(** * Gaussian-process interpolation of PSF parameters

    A shallow embedding of [piff/gp_interp.py]: the two covariance kernels
    ([EmpiricalKernel], [AnisotropicRBF]) and the interpolator [GPInterp]
    that drives a Gaussian-process regressor over lists of stars.

    Scalars are the real numbers: [float] arithmetic is idealised to exact
    arithmetic, so that [exp], [log] and [sqrt] are the mathematical
    functions.  Python exceptions are values of [result]; Python objects
    with identity (stars, their data and their fits) live in a heap. *)

From Stdlib Require Import Reals Lra Lia.
From stdpp Require Import gmap strings list.

(** ** Exceptions and results *)

Inductive exc_class :=
  | ValueError | RuntimeError | AssertionError | TypeError
  | KeyError | IndexError | AttributeError | LinAlgError.

Record exception := Exc { exc_type : exc_class; exc_msg : string }.

Inductive result (A : Type) : Type :=
  | Ok (a : A)
  | Raise (e : exception).
Arguments Ok {A} a.
Arguments Raise {A} e.

(** Sequencing: an exception of the first computation ends the whole. *)
Definition rbind {A B} (r : result A) (f : A → result B) : result B :=
  match r with Ok a => f a | Raise e => Raise e end.
Notation "x <- e ;; k" := (rbind e (λ x, k))
  (at level 100, e at next level, k at level 200, right associativity,
   format "'[v' x  <-  e  ;;  '/' k ']'").

#[global] Instance result_ret : MRet result := @Ok.
#[global] Instance result_bind : MBind result := λ A B f r, rbind r f.
#[global] Instance result_fmap : FMap result := λ A B f r,
  match r with Ok a => Ok (f a) | Raise e => Raise e end.

Definition is_ok {A} (r : result A) : Prop := ∃ a, r = Ok a.
Definition raises {A} (r : result A) (c : exc_class) : Prop :=
  ∃ msg, r = Raise (Exc c msg).

(** [o or_raise e]: the value of an optional lookup, or the exception. *)
Definition or_raise {A} (o : option A) (e : exception) : result A :=
  match o with Some a => Ok a | None => Raise e end.

#[global] Instance R_eq_dec : EqDecision R := Req_dec_T.
#[global] Instance R_inhabited : Inhabited R := populate 0%R.

(** ** numpy arrays *)

Module np.

(** Arrays of known rank, as the kernels compute with them. *)
Abbreviation vector := (list R).
Abbreviation matrix := (list (list R)).
Abbreviation tensor3 := (list (list (list R))).

(** An array of any rank, as Python passes it around: a scalar, or the
    sequence of its sub-arrays along the first axis.  An array without
    rows carries no column count: [Nd []] is the empty 1-d array. *)
Local Unset Elimination Schemes.
Inductive ndarray :=
  | Sc (x : R)
  | Nd (items : list ndarray).
Local Set Elimination Schemes.

Definition of_vector (v : vector) : ndarray := Nd (Sc <$> v).
Definition of_matrix (M : matrix) : ndarray := Nd (of_vector <$> M).
Definition of_tensor3 (T : tensor3) : ndarray := Nd (of_matrix <$> T).

Fixpoint ndim (a : ndarray) : nat :=
  match a with
  | Sc _ => 0
  | Nd [] => 1
  | Nd (x :: _) => S (ndim x)
  end.

(** [a.ravel()]: the scalars of the array in row-major order. *)
Fixpoint ravel (a : ndarray) : list R :=
  match a with
  | Sc x => [x]
  | Nd items => concat (map ravel items)
  end.

Definition as_scalar (a : ndarray) : option R :=
  match a with Sc x => Some x | Nd _ => None end.
Definition as_vector (a : ndarray) : option vector :=
  match a with Sc _ => None | Nd items => mapM as_scalar items end.
(** The rows of a 2-d array. *)
Definition as_matrix (a : ndarray) : option matrix :=
  match a with
  | Sc _ => None
  | Nd items => if decide (ndim a = 2) then mapM as_vector items else None
  end.

(** [np.atleast_2d]. *)
Definition atleast_2d (a : ndarray) : ndarray :=
  match ndim a with
  | 0 => Nd [Nd [a]]
  | 1 => Nd [a]
  | _ => a
  end.

(** [np.array(rows)] of a Python list of arrays. *)
Definition array (rows : list ndarray) : ndarray := Nd rows.

(** [a[i]] along the first axis. *)
Definition item (i : nat) (a : ndarray) : result ndarray :=
  match a with
  | Sc _ => Raise (Exc IndexError "too many indices for array")
  | Nd items => or_raise (items !! i) (Exc IndexError "index is out of bounds")
  end.

(** [a[:, j]]. *)
Definition column (j : nat) (a : ndarray) : result ndarray :=
  match a with
  | Sc _ => Raise (Exc IndexError "too many indices for array")
  | Nd rows => Nd <$> mapM (item j) rows
  end.

(** [a[:, :k]], defined on arrays of rank two and more. *)
Definition columns_upto (k : nat) (a : ndarray) : ndarray :=
  match a with
  | Sc x => Sc x
  | Nd rows =>
      Nd ((λ r, match r with Sc x => Sc x | Nd xs => Nd (take k xs) end) <$> rows)
  end.

(** Elementwise application, and its generalisation that replaces each
    scalar by an array. *)
Fixpoint nd_bind (f : R → ndarray) (a : ndarray) : ndarray :=
  match a with
  | Sc x => f x
  | Nd items => Nd (map (nd_bind f) items)
  end.
Definition nd_map (f : R → R) : ndarray → ndarray := nd_bind (λ x, Sc (f x)).

(** [np.subtract.outer(a, b)]. *)
Definition subtract_outer (a b : ndarray) : ndarray :=
  nd_bind (λ x, nd_map (λ y, (x - y)%R) b) a.

(** The truth value of [a == c] as [assert] and [if] take it: the
    comparison is elementwise, and only an array of one element has a
    truth value of its own. *)
Definition truth_of_eq (a : ndarray) (c : R) : result bool :=
  match ravel a with
  | [x] => Ok (bool_decide (x = c))
  | [] => Ok false
  | _ => Raise (Exc ValueError
           "The truth value of an array with more than one element is ambiguous")
  end.

(** *** Linear algebra on rows *)

Definition dot (u v : vector) : R := foldr Rplus 0%R (zip_with Rmult u v).
Definition mat_vec (M : matrix) (v : vector) : vector := (λ row, dot row v) <$> M.
Definition vec_sub (u v : vector) : vector := zip_with Rminus u v.

Definition entry (M : matrix) (i j : nat) : R := nth j (nth i M []) 0%R.
Definition ncols (M : matrix) : nat := length (hd [] M).

(** Column [j] of a matrix, [M[:, j]]. *)
Definition col (j : nat) (M : matrix) : vector := (λ r, nth j r 0%R) <$> M.

(** [M.T] *)
Definition transpose (M : matrix) : matrix :=
  (λ j, (λ row, nth j row 0%R) <$> M) <$> seq 0 (ncols M).

(** [np.dot(A, B)] of two matrices. *)
Definition matmul (A B : matrix) : matrix :=
  (λ row, (λ col, dot row col) <$> transpose B) <$> A.

Definition mat_add (A B : matrix) : matrix := zip_with (zip_with Rplus) A B.

(** [np.zeros((p, q))] *)
Definition zeros (p q : nat) : matrix := replicate p (replicate q 0%R).
Definition zeros3 (k p q : nat) : tensor3 := replicate k (zeros p q).

(** [np.zeros_like(M)] *)
Definition zeros_like (M : matrix) : matrix := (λ row, replicate (length row) 0%R) <$> M.

Definition is_shape (p q : nat) (M : matrix) : Prop :=
  length M = p ∧ Forall (λ row, length row = q) M.

(** Entries and shapes of arrays with three axes. *)
Definition entry3 (T : tensor3) (k i j : nat) : R := entry (nth k T []) i j.
Definition is_shape3 (m p q : nat) (T : tensor3) : Prop :=
  length T = m ∧ Forall (is_shape p q) T.

(** [np.diag_indices(n)] and [np.tril_indices(n, -1)], as lists of
    (row, column) pairs in numpy's order. *)
Definition diag_indices (n : nat) : list (nat * nat) := (λ i, (i, i)) <$> seq 0 n.
Definition tril_indices_below (n : nat) : list (nat * nat) :=
  i ← seq 0 n; (λ j, (i, j)) <$> seq 0 i.

(** One write [M[i, j] = x] and a sequence of writes, in order. *)
Definition set2 (M : matrix) (i j : nat) (x : R) : matrix := alter (<[j := x]>) i M.
Definition writes (M : matrix) (ws : list (nat * nat * R)) : matrix :=
  foldl (λ M w, set2 M w.1.1 w.1.2 w.2) M ws.

Definition in_bounds (M : matrix) (ij : nat * nat) : Prop :=
  ∃ row, M !! ij.1 = Some row ∧ ij.2 < length row.
#[global] Instance in_bounds_dec M ij : Decision (in_bounds M ij).
Proof.
  unfold in_bounds. destruct (M !! ij.1) as [row|].
  - destruct (decide (ij.2 < length row)).
    + left. eauto.
    + right. intros (r & [= <-] & ?). lia.
  - right. intros (r & [=] & ?).
Defined.

(** The values an indexed assignment stores: one per index, a single
    value being repeated. *)
Definition broadcast_to (k : nat) (vals : list R) : result (list R) :=
  if decide (length vals = k) then Ok vals
  else match vals with
       | [x] => Ok (replicate k x)
       | _ => Raise (Exc ValueError "shape mismatch: value array could not be broadcast to indexing result")
       end.

(** [M[idx]] and [M[idx] = vals] for a pair of index arrays. *)
Definition getitem2 (M : matrix) (idx : list (nat * nat)) : result (list R) :=
  if decide (Forall (in_bounds M) idx)
  then Ok ((λ ij, entry M ij.1 ij.2) <$> idx)
  else Raise (Exc IndexError "index is out of bounds").
Definition setitem2 (M : matrix) (idx : list (nat * nat)) (vals : list R) : result matrix :=
  if decide (Forall (in_bounds M) idx)
  then vs <- broadcast_to (length idx) vals ;; Ok (writes M (zip idx vs))
  else Raise (Exc IndexError "index is out of bounds").

(** The same for a triple of index arrays into a 3-d array. *)
Definition set3 (T : tensor3) (k i j : nat) (x : R) : tensor3 :=
  alter (λ M, set2 M i j x) k T.
Definition writes3 (T : tensor3) (ws : list (nat * (nat * nat) * R)) : tensor3 :=
  foldl (λ T w, set3 T w.1.1 w.1.2.1 w.1.2.2 w.2) T ws.
Definition in_bounds3 (T : tensor3) (kij : nat * (nat * nat)) : Prop :=
  ∃ M, T !! kij.1 = Some M ∧ in_bounds M kij.2.
#[global] Instance in_bounds3_dec T kij : Decision (in_bounds3 T kij).
Proof.
  unfold in_bounds3. destruct (T !! kij.1) as [M|].
  - destruct (decide (in_bounds M kij.2)).
    + left. eauto.
    + right. intros (M' & [= <-] & ?). done.
  - right. intros (M' & [=] & ?).
Defined.

(** The index arrays of one indexing expression are broadcast against
    each other before use. *)
Definition broadcast_index {A B} (ks : list A) (ijs : list B) : result (list (A * B)) :=
  if decide (length ks = length ijs) then Ok (zip ks ijs)
  else match ks, ijs with
       | [k], _ => Ok ((λ ij, (k, ij)) <$> ijs)
       | _, [ij] => Ok ((λ k, (k, ij)) <$> ks)
       | _, _ => Raise (Exc IndexError
                   "shape mismatch: indexing arrays could not be broadcast together")
       end.

Definition setitem3 (T : tensor3) (ks : list nat) (ijs : list (nat * nat))
    (vals : list R) : result tensor3 :=
  idx <- broadcast_index ks ijs ;;
  if decide (Forall (in_bounds3 T) idx)
  then vs <- broadcast_to (length idx) vals ;; Ok (writes3 T (zip idx vs))
  else Raise (Exc IndexError "index is out of bounds").

(** [np.fill_diagonal(M, x)] on a matrix. *)
Definition fill_diagonal (M : matrix) (x : R) : matrix :=
  imap (λ i row, <[i := x]> row) M.

(** [np.arange(a, b)] *)
Definition arange (a b : nat) : list nat := seq a (b - a).

(** [np.linalg.cholesky]: the lower-triangular factor, computed column by
    column; the strict upper triangle of the argument is not read.  A
    pivot that is not positive aborts the factorisation. *)
Fixpoint potrf (n : nat) (A : matrix) : result matrix :=
  match n with
  | 0 => Ok []
  | S n' =>
      let a := entry A 0 0 in
      if Rlt_dec 0 a then
        let l := sqrt a in
        let c := (λ row, (hd 0 row / l)%R) <$> tl A in
        let S := zip_with (λ ci row, zip_with (λ cj x, (x - ci * cj)%R) c (tl row)) c (tl A) in
        L' <- potrf n' S ;;
        Ok ((l :: replicate n' 0%R) :: zip_with cons c L')
      else Raise (Exc LinAlgError "Matrix is not positive definite")
  end.

Definition cholesky (A : matrix) : result matrix :=
  if decide (Forall (λ row, length row = length A) A) then potrf (length A) A
  else Raise (Exc LinAlgError "Last 2 dimensions of the array must be square").

End np.

(** ** scipy.spatial.distance *)

Module scipy.
Import np.

(** The Mahalanobis distance of two rows under the metric [VI]. *)
Definition mahalanobis (VI : matrix) (u v : vector) : R :=
  let delta := vec_sub u v in
  sqrt (dot delta (mat_vec VI delta)).

(** The pairs [(i, j)], [i < j < d], in the order the condensed distance
    vector lists them. *)
Definition pairs_above (d : nat) : list (nat * nat) :=
  i ← seq 0 d; (λ j, (i, j)) <$> seq (S i) (d - S i).

(** [pdist(X, metric='mahalanobis', VI=VI)] *)
Definition pdist (X : ndarray) (VI : matrix) : result vector :=
  Xm <- or_raise (as_matrix X) (Exc ValueError "A 2-dimensional array must be passed.") ;;
  Ok ((λ ij, mahalanobis VI (nth ij.1 Xm []) (nth ij.2 Xm [])) <$> pairs_above (length Xm)).

(** [cdist(XA, XB, metric='mahalanobis', VI=VI)] *)
Definition cdist (XA XB : ndarray) (VI : matrix) : result matrix :=
  A <- or_raise (as_matrix XA) (Exc ValueError "XA must be a 2-dimensional array.") ;;
  B <- or_raise (as_matrix XB) (Exc ValueError "XB must be a 2-dimensional array.") ;;
  if decide (ncols A = ncols B)
  then Ok ((λ u, (λ v, mahalanobis VI u v) <$> B) <$> A)
  else Raise (Exc ValueError "XA and XB must have the same number of columns").

(** [int(np.ceil(np.sqrt(n)))] *)
Definition ceil_sqrt (n : nat) : nat :=
  if decide (Nat.sqrt n * Nat.sqrt n = n) then Nat.sqrt n else S (Nat.sqrt n).

(** [squareform(v)] of a condensed vector: the symmetric matrix with
    zero diagonal that lists [v] above the diagonal. *)
Definition squareform (v : vector) : result matrix :=
  let s := length v in
  if decide (s = 0) then Ok (zeros 1 1)
  else
    let d := ceil_sqrt (s * 2) in
    if decide (d * (d - 1) = s * 2)
    then Ok (writes (zeros d d)
               (w ← zip (pairs_above d) v; [(w.1, w.2); ((w.1.2, w.1.1), w.2)]))
    else Raise (Exc ValueError
           "Incompatible vector size. It must be a binomial coefficient n choose 2 for some integer n >= 2.").

End scipy.

(** ** sklearn.gaussian_process.kernels.Hyperparameter *)

Inductive hyper_bounds :=
  | BoundsFixed                       (* the string "fixed" *)
  | BoundsRange (lo hi : R).

Record Hyperparameter := {
  hp_name : string;
  hp_value_type : string;
  hp_bounds : hyper_bounds;
  hp_n_elements : nat;
}.

(** [Hyperparameter.fixed]: a hyperparameter is fixed when its bounds are
    the string "fixed". *)
Definition hp_fixed (h : Hyperparameter) : bool :=
  match hp_bounds h with BoundsFixed => true | BoundsRange _ _ => false end.

(** What a kernel call returns: [K], or the pair [(K, K_gradient)]. *)
Inductive kernel_value :=
  | KernelOnly (K : np.ndarray)
  | KernelWithGradient (K : np.ndarray) (K_gradient : np.ndarray).

(** ** EmpiricalKernel *)

Module EmpiricalKernel.
Import np.

Record t := { fn : ndarray → ndarray → ndarray }.

Definition __init__ (fn : ndarray → ndarray → ndarray) : result t :=
  let self := {| fn := fn |} in
  ok <- truth_of_eq (self.(EmpiricalKernel.fn) (Sc 0) (Sc 0)) 1 ;;
  if ok : bool then Ok self else Raise (Exc AssertionError "").

Definition __call__ (self : t) (X : ndarray) (Y : option ndarray)
    (eval_gradient : bool) : result kernel_value :=
  if eval_gradient
  then Raise (Exc RuntimeError "Cannot evaluate gradient for EmpiricalKernel.")
  else
    let X := atleast_2d X in
    let Y := match Y with None => X | Some Y => Y end in
    x0 <- column 0 X ;;
    y0 <- column 0 Y ;;
    let xshift := subtract_outer x0 y0 in
    x1 <- column 1 X ;;
    y1 <- column 1 Y ;;
    let yshift := subtract_outer x1 y1 in
    Ok (KernelOnly (self.(fn) xshift yshift)).

End EmpiricalKernel.

(** ** AnisotropicRBF *)

Module AnisotropicRBF.
Import np scipy.

Record t := {
  ndim : nat;
  ntheta : nat;
  _d : list (nat * nat);
  _t : list (nat * nat);
  invLam : matrix;
  _L : matrix;
  _theta : vector;
}.

Definition set_params (self : t) (invLam : option matrix) : result t :=
  match invLam with
  | None => Ok self
  | Some invLam =>
      L <- cholesky invLam ;;
      diag <- getitem2 L self.(_d) ;;
      below <- getitem2 L self.(_t) ;;
      Ok {| ndim := self.(ndim); ntheta := self.(ntheta);
            _d := self.(_d); _t := self.(_t);
            invLam := invLam; _L := L;
            _theta := (ln <$> diag) ++ below |}
  end.

Definition __init__ (invLam : matrix) : result t :=
  let ndim := length invLam in
  set_params {| ndim := ndim; ntheta := ndim * (ndim + 1) / 2;
                _d := diag_indices ndim; _t := tril_indices_below ndim;
                invLam := []; _L := []; _theta := [] |}
             (Some invLam).

Definition hyperparameter_cho_factor (self : t) : Hyperparameter :=
  {| hp_name := "ChoFactor"; hp_value_type := "numeric";
     hp_bounds := BoundsRange (1 / 100000) 100000;
     hp_n_elements := self.(ntheta) |}.

Definition get_params (self : t) : list (string * matrix) :=
  [("invLam"%string, self.(invLam))].

(** The [theta] property and its setter. *)
Definition theta (self : t) : vector := self.(_theta).

Definition theta_set (self : t) (theta : vector) : result t :=
  let L := zeros_like self.(invLam) in
  L <- setitem2 L (diag_indices self.(ndim)) (exp <$> take self.(ndim) theta) ;;
  L <- setitem2 L (tril_indices_below self.(ndim)) (drop self.(ndim) theta) ;;
  Ok {| ndim := self.(ndim); ntheta := self.(ntheta);
        _d := self.(_d); _t := self.(_t);
        invLam := matmul L (transpose L); _L := L;
        _theta := theta |}.

Definition bounds (self : t) : list (R * R) :=
  replicate self.(ntheta) ((-5)%R, 5%R).

(** [exp(-0.5 * dists**2)] *)
Definition rbf (d : R) : R := exp (- 0.5 * d ^ 2).

Definition __call__ (self : t) (X : ndarray) (Y : option ndarray)
    (eval_gradient : bool) : result kernel_value :=
  let X := atleast_2d X in
  K <- match Y with
      | None =>
          dists <- pdist X self.(invLam) ;;
          let K := rbf <$> dists in
          K <- squareform K ;;
          Ok (fill_diagonal K 1)
      | Some Y =>
          if eval_gradient
          then Raise (Exc ValueError "Gradient can only be evaluated when Y is None.")
          else
            dists <- cdist X Y self.(invLam) ;;
            Ok ((λ row : vector, rbf <$> row) <$> dists)
      end ;;
  if eval_gradient then
    Xm <- or_raise (as_matrix X) (Exc IndexError "too many indices for array") ;;
    if hp_fixed (hyperparameter_cho_factor self)
    then Ok (KernelWithGradient (of_matrix K)
               (of_tensor3 (replicate (length Xm) (replicate (length Xm) []))))
    else
      let L_grad := zeros3 self.(ntheta) self.(ndim) self.(ndim) in
      diag <- getitem2 self.(_L) self.(_d) ;;
      L_grad <- setitem3 L_grad (arange 0 self.(ndim)) self.(_d) diag ;;
      L_grad <- setitem3 L_grad (arange self.(ndim) self.(ntheta)) self.(_t) [1%R] ;;
      let half_invLam_grad := (λ G, matmul G (transpose self.(_L))) <$> L_grad in
      let invLam_grad := zip_with mat_add half_invLam_grad (transpose <$> half_invLam_grad) in
      let dX := (λ xi, (λ xj, vec_sub xi xj) <$> Xm) <$> Xm in
      let dist_grad :=
        (λ row : matrix, (λ dx, (λ G, dot dx (mat_vec G dx)) <$> invLam_grad) <$> row) <$> dX in
      let K_gradient :=
        zip_with (zip_with (λ k g, (λ x, (- 0.5 * k * x)%R) <$> g)) K dist_grad in
      Ok (KernelWithGradient (of_matrix K) (of_tensor3 K_gradient))
  else Ok (KernelOnly (of_matrix K)).

End AnisotropicRBF.

(** ** sklearn: the regressor and the principal-component transform

    The numerical cores of [GaussianProcessRegressor] and [PCA] are left
    abstract; what is modelled is the input validation that precedes them
    ([sklearn.utils.check_array]) and the way results are threaded. *)

Inductive kernel_obj :=
  | KEmpirical (k : EmpiricalKernel.t)
  | KAnisotropicRBF (k : AnisotropicRBF.t).

Class Numerics := {
  gp_fitted : Type;
  pca_fitted : Type;
  gp_fit_core : option kernel_obj → option string → np.matrix → np.ndarray → result gp_fitted;
  gp_predict_core : option kernel_obj → option gp_fitted → np.matrix → result np.ndarray;
  pca_fit_core : Z → np.matrix → result pca_fitted;
  pca_transform_core : pca_fitted → np.matrix → result np.ndarray;
  pca_inverse_transform_core : pca_fitted → np.ndarray → result np.ndarray;
}.

Module sklearn.
Import np.

(** [check_array(a)] with its defaults: a 2-d array with at least one
    sample and one feature. *)
Definition check_array (a : ndarray) : result matrix :=
  match ndim a with
  | 0 => Raise (Exc ValueError "Expected 2D array, got scalar array instead")
  | 1 => Raise (Exc ValueError "Expected 2D array, got 1D array instead")
  | 2 =>
      M <- or_raise (as_matrix a) (Exc ValueError "could not convert to float") ;;
      if decide (length M = 0) then Raise (Exc ValueError "Found array with 0 sample(s)")
      else if decide (ncols M = 0) then Raise (Exc ValueError "Found array with 0 feature(s)")
      else Ok M
  | _ => Raise (Exc ValueError "Found array with dim 3. Estimator expected <= 2.")
  end.

(** [len(a)] *)
Definition len (a : ndarray) : result nat :=
  match a with
  | Sc _ => Raise (Exc TypeError "len() of unsized object")
  | Nd items => Ok (length items)
  end.

Section with_numerics.
Context `{Numerics}.

Record GaussianProcessRegressor := {
  gp_kernel : option kernel_obj;
  gp_optimizer : option string;
  gp_state : option gp_fitted;
}.

Record PCA := {
  n_components : Z;
  whiten : bool;
  pca_state : option pca_fitted;
}.

(** [gp.fit(X, y)] *)
Definition gp_fit (gp : GaussianProcessRegressor) (X y : ndarray)
    : result GaussianProcessRegressor :=
  Xm <- check_array X ;;
  ny <- len y ;;
  if decide (ny = length Xm) then
    st <- gp_fit_core gp.(gp_kernel) gp.(gp_optimizer) Xm y ;;
    Ok {| gp_kernel := gp.(gp_kernel); gp_optimizer := gp.(gp_optimizer);
          gp_state := Some st |}
  else Raise (Exc ValueError "Found input variables with inconsistent numbers of samples").

(** [gp.predict(X)] *)
Definition gp_predict (gp : GaussianProcessRegressor) (X : ndarray) : result ndarray :=
  Xm <- check_array X ;;
  gp_predict_core gp.(gp_kernel) gp.(gp_state) Xm.

(** [pca.fit(y)], [pca.transform(y)], [pca.inverse_transform(y)] *)
Definition pca_fit (pca : PCA) (y : ndarray) : result PCA :=
  ym <- check_array y ;;
  st <- pca_fit_core pca.(n_components) ym ;;
  Ok {| n_components := pca.(n_components); whiten := pca.(whiten);
        pca_state := Some st |}.
Definition pca_transform (pca : PCA) (y : ndarray) : result ndarray :=
  st <- or_raise pca.(pca_state) (Exc AttributeError "This PCA instance is not fitted yet") ;;
  ym <- check_array y ;;
  pca_transform_core st ym.
Definition pca_inverse_transform (pca : PCA) (y : ndarray) : result ndarray :=
  st <- or_raise pca.(pca_state) (Exc AttributeError "This PCA instance is not fitted yet") ;;
  pca_inverse_transform_core st y.
End with_numerics.

End sklearn.

(** ** Stars *)

Abbreviation loc := nat (only parsing).

(** Modelled from the spec: [StarFit] of [piff/star.py], which is not part
    of the sources at hand.  A fit record "holds a parameter vector and
    optionally a covariance/uncertainty record". *)
Record StarFit := {
  params : np.ndarray;
  params_cov : option np.ndarray;
}.

(** Objects with identity.  Modelled from the spec: a [Star] is the pair of
    its [data] and its nullable [fit]; the [data] maps the names of the
    covariate fields to floats. *)
Inductive obj :=
  | OStarData (props : gmap string R)
  | OStarFit (f : StarFit)
  | OStar (data : loc) (fit : option loc).

Abbreviation heap := (gmap loc obj).

(** Computations that may allocate: the heap is threaded through, and is
    kept when an exception ends the computation. *)
Definition M (A : Type) : Type := heap → result A * heap.
Definition hret {A} (a : A) : M A := λ h, (Ok a, h).
Definition hbind {A B} (m : M A) (f : A → M B) : M B := λ h,
  match m h with
  | (Ok a, h') => f a h'
  | (Raise e, h') => (Raise e, h')
  end.
Notation "x <~ e ;; k" := (hbind e (λ x, k))
  (at level 100, e at next level, k at level 200, right associativity,
   format "'[v' x  <~  e  ;;  '/' k ']'").
(** A computation that only reads the heap. *)
Definition hread {A} (f : heap → result A) : M A := λ h, (f h, h).
(** Object construction: the new object gets an unused location. *)
Definition alloc (o : obj) : M loc := λ h,
  let l := fresh (dom h) in (Ok l, <[l := o]> h).

Module Star.

(** [star.data] and [star.fit] *)
Definition data (star : loc) (h : heap) : result loc :=
  match h !! star with
  | Some (OStar data _) => Ok data
  | _ => Raise (Exc AttributeError "object has no attribute 'data'")
  end.
Definition fit (star : loc) (h : heap) : result (option loc) :=
  match h !! star with
  | Some (OStar _ fit) => Ok fit
  | _ => Raise (Exc AttributeError "object has no attribute 'fit'")
  end.

(** [data[key]] *)
Definition getitem (data : loc) (key : string) (h : heap) : result R :=
  match h !! data with
  | Some (OStarData props) => or_raise (props !! key) (Exc KeyError key)
  | _ => Raise (Exc TypeError "object is not subscriptable")
  end.

(** [fit.params] *)
Definition fit_params (fit : option loc) (h : heap) : result np.ndarray :=
  match fit with
  | None => Raise (Exc AttributeError "'NoneType' object has no attribute 'params'")
  | Some l =>
      match h !! l with
      | Some (OStarFit f) => Ok f.(params)
      | _ => Raise (Exc AttributeError "object has no attribute 'params'")
      end
  end.

(** Modelled from the spec: [Star(data, fit)] constructs a new star. *)
Definition __init__ (data : loc) (fit : option loc) : M loc := alloc (OStar data fit).

End Star.

Module StarFit_.

(** Modelled from the spec: [StarFit(params)] is "a fresh fit record from
    the predicted parameters". *)
Definition __init__ (params : np.ndarray) : M loc :=
  alloc (OStarFit {| params := params; params_cov := None |}).

(** Modelled from the spec: [fit.newParams(p)] is "a new fit record that
    copies over any existing fit metadata but replaces the parameter
    vector". *)
Definition newParams (fit : loc) (p : np.ndarray) : M loc := λ h,
  match h !! fit with
  | Some (OStarFit f) =>
      alloc (OStarFit {| params := p; params_cov := f.(params_cov) |}) h
  | _ => (Raise (Exc AttributeError "object has no attribute 'newParams'"), h)
  end.

End StarFit_.

(** ** GPInterp *)

Module GPInterp.
Import np sklearn.

Section with_numerics.
Context `{Numerics}.

Record t := {
  attr_interp : list string;
  kernel : option kernel_obj;
  npca : Z;
  gp : GaussianProcessRegressor;
  _pca : option PCA;
}.

Definition __init__ (attr_interp : option (list string)) (kernel : option kernel_obj)
    (optimizer : option string) (npca : Z) : t :=
  let attr_interp :=
    match attr_interp with None => ["u"; "v"]%string | Some a => a end in
  {| attr_interp := attr_interp; kernel := kernel; npca := npca;
     gp := {| gp_kernel := kernel; gp_optimizer := optimizer; gp_state := None |};
     _pca := None |}.

Definition _fit (self : t) (X y : ndarray) : result t :=
  if decide (self.(npca) > 0)%Z then
    let pca := {| n_components := self.(npca); whiten := true; pca_state := None |} in
    pca <- pca_fit pca y ;;
    y <- pca_transform pca y ;;
    gp <- gp_fit self.(gp) X y ;;
    Ok {| attr_interp := self.(attr_interp); kernel := self.(kernel);
          npca := self.(npca); gp := gp; _pca := Some pca |}
  else
    gp <- gp_fit self.(gp) X y ;;
    Ok {| attr_interp := self.(attr_interp); kernel := self.(kernel);
          npca := self.(npca); gp := gp; _pca := self.(_pca) |}.

Definition _predict (self : t) (Xstar : ndarray) : result ndarray :=
  ystar <- gp_predict self.(gp) Xstar ;;
  if decide (self.(npca) > 0)%Z then
    pca <- or_raise self.(_pca)
             (Exc AttributeError "'GPInterp' object has no attribute '_pca'") ;;
    pca_inverse_transform pca ystar
  else Ok ystar.

Definition getProperties (self : t) (star : loc) (h : heap) : result ndarray :=
  data <- Star.data star h ;;
  vals <- mapM (λ key, Star.getitem data key h) self.(attr_interp) ;;
  Ok (of_vector vals).

Definition solve (self : t) (stars : option (list loc)) (h : heap) : result t :=
  stars <- or_raise stars (Exc TypeError "'NoneType' object is not iterable") ;;
  X <- mapM (λ star, getProperties self star h) stars ;;
  y <- mapM (λ star, fit <- Star.fit star h ;; Star.fit_params fit h) stars ;;
  _fit self (array X) (array y).

(** The body of the loop over [zip(y, stars)]. *)
Definition fitted_star (y : ndarray) (y0 : ndarray) (star : loc) : M loc :=
  fit <~ hread (Star.fit star) ;;
  fit <~ match fit with
         | None => StarFit_.__init__ y
         | Some f => StarFit_.newParams f y0
         end ;;
  data <~ hread (Star.data star) ;;
  Star.__init__ data (Some fit).

Fixpoint fitted_stars_loop (y : ndarray) (pairs : list (ndarray * loc))
    (fitted_stars : list loc) : M (list loc) :=
  match pairs with
  | [] => hret fitted_stars
  | (y0, star) :: pairs =>
      new <~ fitted_star y y0 star ;;
      fitted_stars_loop y pairs (fitted_stars ++ [new])
  end.

(** Iterating over an array yields its sub-arrays along the first axis. *)
Definition iter (a : ndarray) : result (list ndarray) :=
  match a with
  | Sc _ => Raise (Exc TypeError "iteration over a 0-d array")
  | Nd items => Ok items
  end.

Definition interpolateList (self : t) (stars : list loc) : M (list loc) :=
  Xstar <~ hread (λ h, mapM (λ star, getProperties self star h) stars) ;;
  y <~ hread (λ _, _predict self (array Xstar)) ;;
  rows <~ hread (λ _, iter y) ;;
  fitted_stars_loop y (zip rows stars) [].

Definition interpolate (self : t) (star : loc) : M loc :=
  out <~ interpolateList self [star] ;;
  hread (λ _, or_raise (out !! 0) (Exc IndexError "list index out of range")).

Definition initialize (self : t) (stars : list loc) : M (t * list loc) :=
  self <~ hread (solve self (Some stars)) ;;
  out <~ interpolateList self stars ;;
  hret (self, out).

End with_numerics.

End GPInterp.


(** ** Predicates of the statements *)

(** The quadratic form [v · M · v]. *)
Definition quad (M : np.matrix) (v : np.vector) : R := np.dot v (np.mat_vec M v).

(** Symmetric positive-definite matrices of size [n]. *)
Definition symmetric (n : nat) (A : np.matrix) : Prop :=
  ∀ i j, i < n → j < n → np.entry A i j = np.entry A j i.
Definition pos_def (n : nat) (A : np.matrix) : Prop :=
  ∀ v, length v = n → Exists (λ x, x ≠ 0%R) v → (0 < quad A v)%R.
Definition spd (n : nat) (A : np.matrix) : Prop :=
  np.is_shape n n A ∧ symmetric n A ∧ pos_def n A.

(** The Schur complement that [np.potrf] recurses on: [C - c · cᵀ]. *)
Definition schur (c : np.vector) (C : np.matrix) : np.matrix :=
  zip_with (λ ci row, zip_with (λ cj x, (x - ci * cj)%R) c row) c C.

(** Lower-triangular matrices with a positive diagonal. *)
Definition lower_triangular (n : nat) (L : np.matrix) : Prop :=
  ∀ i j, i < j → j < n → np.entry L i j = 0%R.
Definition pos_diag (n : nat) (L : np.matrix) : Prop :=
  ∀ i, i < n → (0 < np.entry L i i)%R.

(** The parameter vector [set_params] derives from the Cholesky factor:
    the logarithms of its diagonal, then its entries below the diagonal. *)
Definition theta_of_factor (n : nat) (L : np.matrix) : np.vector :=
  (ln <$> ((λ ij, np.entry L ij.1 ij.2) <$> np.diag_indices n))
  ++ ((λ ij, np.entry L ij.1 ij.2) <$> np.tril_indices_below n).

(** The covariance matrix of the rows of [X] with themselves, as the
    specification words it: ones on the diagonal, and
    [exp(-0.5 * mahalanobis(X[i], X[j])^2)] elsewhere. *)
Definition self_covariance (VI : np.matrix) (X : np.matrix) : np.matrix :=
  imap (λ i xi, imap (λ j xj,
    if decide (i = j) then 1%R
    else exp (- 0.5 * scipy.mahalanobis VI xi xj ^ 2)) X) X.

(** The [n] by [n] matrix with [x] at [(r, c)] and zeros elsewhere. *)
Definition single_entry (n r c : nat) (x : R) : np.matrix :=
  (λ i, (λ j, if decide (i = r ∧ j = c) then x else 0%R) <$> seq 0 n) <$> seq 0 n.

(** The derivative of the Cholesky factor [L] by the parameter [theta[k]],
    as the specification words it: a single entry, the diagonal value
    [L[k, k]] for one of the [n] log-scaled parameters, and [1] at the
    position of the parameter below the diagonal otherwise. *)
Definition dL_dtheta (n : nat) (L : np.matrix) (k : nat) : np.matrix :=
  if decide (k < n) then single_entry n k k (np.entry L k k)
  else match np.tril_indices_below n !! (k - n) with
       | Some (r, c) => single_entry n r c 1%R
       | None => np.zeros n n
       end.

(** [d(invLam)/dtheta[k] = dL/dtheta[k] · Lᵀ + L · (dL/dtheta[k])ᵀ] *)
Definition dinvLam_dtheta (n : nat) (L : np.matrix) (k : nat) : np.matrix :=
  np.mat_add (np.matmul (dL_dtheta n L k) (np.transpose L))
             (np.matmul L (np.transpose (dL_dtheta n L k))).

(** *** Closed forms of what [AnisotropicRBF.__call__] computes on the way
    to the gradient *)

(** The array [L_grad] after its two indexed assignments. *)
Definition L_grad_computed (n : nat) (L : np.matrix) : np.tensor3 :=
  let len := length (np.tril_indices_below n) in
  np.writes3
    (np.writes3 (np.zeros3 (n + len) n n)
       (zip (zip (seq 0 n) (np.diag_indices n))
            ((λ ij, np.entry L ij.1 ij.2) <$> np.diag_indices n)))
    (zip (zip (seq n len) (np.tril_indices_below n)) (replicate len 1%R)).

(** The derivatives of [invLam] that [__call__] computes from [L_grad]. *)
Definition invLam_grad_computed (n : nat) (L : np.matrix) : np.tensor3 :=
  let half := (λ G, np.matmul G (np.transpose L)) <$> L_grad_computed n L in
  zip_with np.mat_add half (np.transpose <$> half).

(** The gradient tensor [__call__] builds from [K], [X] and the
    derivatives of [invLam]. *)
Definition K_gradient_computed (K X : np.matrix) (invLam_grad : np.tensor3) : np.tensor3 :=
  zip_with (zip_with (λ k g, (λ x, (- 0.5 * k * x)%R) <$> g)) K
    ((λ row : np.matrix, (λ dx, (λ G, np.dot dx (np.mat_vec G dx)) <$> invLam_grad) <$> row)
       <$> ((λ xi, (λ xj, np.vec_sub xi xj) <$> X) <$> X)).

(** The fields of a kernel for [n] covariates are of matching sizes. *)
Definition kernel_shape (n : nat) (k : AnisotropicRBF.t) : Prop :=
  k.(AnisotropicRBF.ndim) = n
  ∧ k.(AnisotropicRBF.ntheta) = n * (n + 1) / 2
  ∧ k.(AnisotropicRBF._d) = np.diag_indices n
  ∧ k.(AnisotropicRBF._t) = np.tril_indices_below n
  ∧ np.is_shape n n k.(AnisotropicRBF.invLam)
  ∧ np.is_shape n n k.(AnisotropicRBF._L).

(** The invariant a kernel has after [__init__], [set_params] and after
    [theta] is set: [_L] is the Cholesky factor of [invLam]. *)
Definition kernel_wf (n : nat) (k : AnisotropicRBF.t) : Prop :=
  kernel_shape n k
  ∧ lower_triangular n k.(AnisotropicRBF._L)
  ∧ pos_diag n k.(AnisotropicRBF._L)
  ∧ np.matmul k.(AnisotropicRBF._L) (np.transpose k.(AnisotropicRBF._L))
    = k.(AnisotropicRBF.invLam).

(** An [M] computation is framed when it leaves every object of the
    initial heap as it was, on normal and on exceptional exit. *)
Definition framed {A} (m : M A) : Prop := ∀ h, h ⊆ (m h).2.

(** What the loop of [interpolateList] builds for one input star, read
    off the final heap: a star on the same data whose fit holds the whole
    prediction array [y] when the input star has no fit, and the row [y0]
    with the covariance record of the old fit when it has one. *)
Definition star_built (h : heap) (y y0 : np.ndarray) (star new : nat) : Prop :=
  ∃ data oldfit f fit,
    h !! star = Some (OStar data oldfit)
    ∧ h !! new = Some (OStar data (Some f))
    ∧ h !! f = Some (OStarFit fit)
    ∧ match oldfit with
      | None => fit = {| params := y; params_cov := None |}
      | Some fo =>
          ∃ old, h !! fo = Some (OStarFit old)
                 ∧ fit = {| params := y0; params_cov := old.(params_cov) |}
      end.

(** A location holds a star constructed after the heap [h0] was taken. *)
Definition new_star (h0 h : heap) (l : nat) : Prop :=
  h0 !! l = None ∧ ∃ data fit, h !! l = Some (OStar data (Some fit)) ∧ h0 !! fit = None.

(** ** Sample inputs *)

(** A symmetric positive-definite matrix, its Cholesky factor in a kernel
    for two covariates, and three stars' covariates. *)
Definition sample_invLam : np.matrix := [[4; 2]; [2; 5]]%R.
Definition sample_kernel : AnisotropicRBF.t :=
  {| AnisotropicRBF.ndim := 2; AnisotropicRBF.ntheta := 3;
     AnisotropicRBF._d := np.diag_indices 2;
     AnisotropicRBF._t := np.tril_indices_below 2;
     AnisotropicRBF.invLam := sample_invLam;
     AnisotropicRBF._L := [[2; 0]; [1; 2]]%R;
     AnisotropicRBF._theta := [ln 2; ln 2; 1]%R |}.
Definition sample_X : np.matrix := [[0; 0]; [1; 0]; [0; 1]]%R.
Definition sample_X3 : np.matrix := [[0; 0; 7]; [1; 0; 8]]%R.

(** A covariance function of the coordinate differences: a Gaussian in
    the first difference. *)
Definition sample_fn (dx dy : np.ndarray) : np.ndarray :=
  np.nd_map (λ x, exp (- (x * x))) dx.
Definition sample_empirical : EmpiricalKernel.t := {| EmpiricalKernel.fn := sample_fn |}.

(** A regressor that predicts, for each row of covariates, the row itself. *)
Definition echo_numerics : Numerics := {|
  gp_fitted := unit;
  pca_fitted := unit;
  gp_fit_core := λ _ _ _ _, Ok tt;
  gp_predict_core := λ _ _ X, Ok (np.of_matrix X);
  pca_fit_core := λ _ _, Ok tt;
  pca_transform_core := λ _ y, Ok (np.of_matrix y);
  pca_inverse_transform_core := λ _ y, Ok y;
|}.

(** Two stars at locations 1 and 3, without fits, and their data at
    locations 0 and 2. *)
Definition sample_props (u v : R) : gmap string R :=
  <["u"%string := u]> (<["v"%string := v]> ∅).

Definition two_unfitted_stars : heap :=
  <[0 := OStarData (sample_props 1 2)]> (<[1 := OStar 0 None]>
  (<[2 := OStarData (sample_props 3 4)]> (<[3 := OStar 2 None]> ∅))).

(** An interpolator over the default covariates [u] and [v]. *)
Definition sample_interp : @GPInterp.t echo_numerics :=
  @GPInterp.__init__ echo_numerics None None (Some "fmin_l_bfgs_b"%string) 0.

(** The parameters of the fit of the star at a location. *)
Definition result_fit_params (h : heap) (star : nat) : option np.ndarray :=
  match h !! star with
  | Some (OStar _ (Some f)) =>
      match h !! f with Some (OStarFit fit) => Some fit.(params) | _ => None end
  | _ => None
  end.

(** ** Translations of the covariates *)

(** Every row of [X] moved by the vector [c]. *)
Definition translate (c : np.vector) (X : np.matrix) : np.matrix :=
  (λ r, zip_with Rplus r c) <$> X.

(** ** The covariance as a function of the parameters *)




(** ** Stars in the heap *)

(** The location [star] holds a star with the covariates [props] and the
    (nullable) fit [fit]. *)
Definition star_at (h : heap) (star : nat) (props : gmap string R) (fit : option nat) : Prop :=
  ∃ data, h !! star = Some (OStar data fit) ∧ h !! data = Some (OStarData props).

(** The location [star] holds a star that has a fit record. *)
Definition has_fit (h : heap) (star : nat) : Prop :=
  ∃ data f sf, h !! star = Some (OStar data (Some f)) ∧ h !! f = Some (OStarFit sf).

(** Two stars at locations 2 and 5, with their data at 0 and 3 and their
    fits at 1 and 4. *)
Definition two_fitted_stars : heap :=
  <[0 := OStarData (sample_props 1 2)]>
  (<[1 := OStarFit {| params := np.of_vector [5; 6]%R;
                      params_cov := Some (np.of_vector [7]%R) |}]>
  (<[2 := OStar 0 (Some 1)]>
  (<[3 := OStarData (sample_props 3 4)]>
  (<[4 := OStarFit {| params := np.of_vector [8; 9]%R;
                      params_cov := Some (np.of_vector [10]%R) |}]>
  (<[5 := OStar 3 (Some 4)]> ∅))))).

(** * Configuration and drivers

    A shallow embedding of [piff/config.py].  The functions there are glue
    around collaborators that are not part of the sources at hand (the
    YAML parser, [galsim.config], [os.path], the image input, the PSF
    model and the output writers): these are the fields of the class
    [Outside], and act on a state [ext] of their own.  What is modelled
    in full is what [config.py] itself does: the table of verbosity
    levels, the state of the [logging] module's loggers, the splitting of
    [key=value] variables, and the order of the checks and calls. *)

(** ** Python values of a configuration *)

(** The values a YAML document holds.  Dictionaries are ordered and, as
    in a configuration dict, keyed by strings. *)
Local Unset Elimination Schemes.
Inductive pyval :=
  | PNone
  | PBool (b : bool)
  | PInt (n : Z)
  | PFloat (x : R)
  | PStr (s : string)
  | PList (items : list pyval)
  | PDict (items : list (string * pyval)).
Local Set Elimination Schemes.

Module pydict.

(** A Python [dict] with string keys, in insertion order. *)
Abbreviation t V := (list (string * V)).

(** [d.get(key)] *)
Fixpoint get {V} (key : string) (d : t V) : option V :=
  match d with
  | [] => None
  | (k, v) :: d => if decide (k = key) then Some v else get key d
  end.

(** [d[key] = val]: a key that is present keeps its place. *)
Fixpoint set {V} (key : string) (val : V) (d : t V) : t V :=
  match d with
  | [] => [(key, val)]
  | (k, v) :: d => if decide (k = key) then (k, val) :: d else (k, v) :: set key val d
  end.

(** [key in d] *)
Definition contains {V} (key : string) (d : t V) : bool :=
  match get key d with Some _ => true | None => false end.

(** [d[key]] *)
Definition getitem {V} (key : string) (d : t V) : result V :=
  or_raise (get key d) (Exc KeyError key).

End pydict.

(** A configuration dict. *)
Abbreviation cfg := (pydict.t pyval).

(** [p in s] for two strings: [p] occurs in [s]. *)
Fixpoint is_substring (p s : string) : bool :=
  String.prefix p s
  || match s with
     | EmptyString => false
     | String _ s' => is_substring p s'
     end.

(** [type(v).__name__] *)
Definition type_name (v : pyval) : string :=
  match v with
  | PNone => "NoneType"
  | PBool _ => "bool"
  | PInt _ => "int"
  | PFloat _ => "float"
  | PStr _ => "str"
  | PList _ => "list"
  | PDict _ => "dict"
  end.

(** [key in v] for a string [key] and any value [v]. *)
Definition py_contains (key : string) (v : pyval) : result bool :=
  match v with
  | PDict d => Ok (pydict.contains key d)
  | PStr s => Ok (is_substring key s)
  | PList items =>
      Ok (existsb (λ x, match x with PStr s => bool_decide (s = key) | _ => false end) items)
  | _ => Raise (Exc TypeError ("argument of type '" +:+ type_name v +:+ "' is not iterable"))
  end.

(** [v[key]] for a string [key] and any value [v]. *)
Definition py_getitem (v : pyval) (key : string) : result pyval :=
  match v with
  | PDict d => pydict.getitem key d
  | PStr _ => Raise (Exc TypeError "string indices must be integers")
  | PList _ => Raise (Exc TypeError "list indices must be integers or slices, not str")
  | _ => Raise (Exc TypeError ("'" +:+ type_name v +:+ "' object is not subscriptable"))
  end.

(** Lists and dicts cannot be keys of a dict. *)
Definition hashable (v : pyval) : bool :=
  match v with PList _ | PDict _ => false | _ => true end.

(** A value equals the integer key [n]: [True == 1] and [1.0 == 1]. *)
Definition key_eqb (v : pyval) (n : Z) : bool :=
  match v with
  | PInt m => bool_decide (m = n)
  | PBool b => bool_decide ((if b then 1 else 0)%Z = n)
  | PFloat x => bool_decide (x = IZR n)
  | _ => false
  end.

(** ** The [logging] module *)

Module logging.

Definition CRITICAL : Z := 50.
Definition WARNING : Z := 30.
Definition INFO : Z := 20.
Definition DEBUG : Z := 10.
Definition NOTSET : Z := 0.

(** A handler writes to a file, or to the standard error stream. *)
Record Handler := {
  target : option string;
  formatter : option string;
}.

#[global] Instance Handler_eq_dec : EqDecision Handler.
Proof. solve_decision. Defined.

Record Logger := {
  handlers : list Handler;
  level : Z;
}.

(** The loggers of the process by name; a name that was never asked for
    stands for a logger without handlers and level. *)
Abbreviation registry := (gmap string Logger).

Definition getLogger (name : string) (r : registry) : Logger :=
  default {| handlers := []; level := NOTSET |} (r !! name).

Definition setFormatter (fmt : string) (h : Handler) : Handler :=
  {| target := h.(target); formatter := Some fmt |}.

(** [logger.addHandler(hdlr)]: a handler that is attached already is not
    attached again. *)
Definition addHandler (hdlr : Handler) (l : Logger) : Logger :=
  if decide (hdlr ∈ l.(handlers)) then l
  else {| handlers := l.(handlers) ++ [hdlr]; level := l.(level) |}.

Definition setLevel (lvl : Z) (l : Logger) : Logger :=
  {| handlers := l.(handlers); level := lvl |}.

End logging.

(** ** The collaborators *)

Class Outside := {
  (** files, streams and imported modules *)
  ext : Type;
  inputs_t : Type;
  psf_t : Type;
  output_t : Type;
  stats_t : Type;
  (** [repr(v)] and [str(v)] *)
  py_repr : pyval → string;
  py_str : pyval → string;
  (** [yaml.load(s)]: the value, or the [repr] of the [YAMLError] *)
  yaml_load : string → pyval + string;
  (** [galsim.config.UpdateConfig(config, new_params)]: whether it raised,
      and the configuration it leaves *)
  UpdateConfig : cfg → cfg → result unit * cfg;
  (** [galsim.config.ImportModules(config)] *)
  ImportModules : cfg → ext → result unit * ext;
  (** [os.path.join(a, b)] *)
  path_join : pyval → pyval → result pyval;
  (** opening the file of a [logging.FileHandler] *)
  open_log : string → ext → result unit * ext;
  (** what the logger of a name does with a record of a level, given the
      loggers as they are set up *)
  emit : logging.registry → string → Z → string → ext → ext;
  (** [Input.process(config['input'], logger)]: stars, wcs and pointing *)
  Input_process : pyval → option string → ext → result inputs_t * ext;
  (** [PSF.process(config['psf'], logger)], [psf.fit(...)], [PSF.read(...)] *)
  PSF_process : pyval → option string → ext → result psf_t * ext;
  psf_fit : psf_t → inputs_t → option string → ext → result psf_t * ext;
  PSF_read : pyval → option string → ext → result psf_t * ext;
  (** [Output.process(config['output'], logger)], [output.write(...)] *)
  Output_process : pyval → option string → ext → result output_t * ext;
  output_write : output_t → psf_t → option string → ext → result unit * ext;
  (** [output.stats_list], its [str], [stats.compute(...)], [stats.write(...)] *)
  stats_list : output_t → list stats_t;
  stats_list_str : output_t → string;
  stats_compute : stats_t → psf_t → inputs_t → option string → ext → result stats_t * ext;
  stats_write : stats_t → option string → ext → result unit * ext;
}.

Module config.
Import logging Stdlib.Strings.Ascii.

Section with_outside.
Context `{Outside}.

(** The state the functions act on: the loggers, and the outside. *)
Record world := {
  loggers : registry;
  outside : ext;
}.

Definition W (A : Type) : Type := world → result A * world.
Definition wret {A} (a : A) : W A := λ w, (Ok a, w).
Definition wbind {A B} (m : W A) (f : A → W B) : W B := λ w,
  match m w with
  | (Ok a, w') => f a w'
  | (Raise e, w') => (Raise e, w')
  end.
Notation "x <<- e ;; k" := (wbind e (λ x, k))
  (at level 100, e at next level, k at level 200, right associativity).

(** A computation without effect, a call of a collaborator, and a change
    of one logger. *)
Definition wlift {A} (r : result A) : W A := λ w, (r, w).
Definition wext {A} (f : ext → result A * ext) : W A := λ w,
  let (r, e) := f w.(outside) in (r, {| loggers := w.(loggers); outside := e |}).
Definition update_logger (name : string) (f : Logger → Logger) : W unit := λ w,
  (Ok tt, {| loggers := <[name := f (getLogger name w.(loggers))]> w.(loggers);
             outside := w.(outside) |}).

(** [logger.debug(msg)], [logger.info(msg)], [logger.warning(msg)] *)
Definition log (name : string) (lvl : Z) (msg : string) : W unit := λ w,
  (Ok tt, {| loggers := w.(loggers);
             outside := emit w.(loggers) name lvl msg w.(outside) |}).

Definition logging_levels : list (Z * Z) :=
  [(0, CRITICAL); (1, WARNING); (2, INFO); (3, DEBUG)]%Z.

(** [logging_levels[verbose]] *)
Definition logging_level_of (verbose : pyval) : result Z :=
  if hashable verbose then
    match list_find (λ kv, key_eqb verbose kv.1 = true) logging_levels with
    | Some (_, kv) => Ok kv.2
    | None => Raise (Exc KeyError (py_repr verbose))
    end
  else Raise (Exc TypeError ("unhashable type: '" +:+ type_name verbose +:+ "'")).

Definition setup_logger (verbose : pyval) (log_file : option string) : W string :=
  logging_level <<- wlift (logging_level_of verbose) ;;
  let logger := "piff"%string in
  _ <<- update_logger logger (λ l, {| handlers := []; level := l.(level) |}) ;;
  handle <<- match log_file with
             | None => wret {| target := None; formatter := None |}
             | Some f =>
                 _ <<- wext (open_log f) ;;
                 wret {| target := Some f; formatter := None |}
             end ;;
  let handle := setFormatter "%(message)s" handle in
  _ <<- update_logger logger (addHandler handle) ;;
  _ <<- update_logger logger (setLevel logging_level) ;;
  wret logger.

(** [v.split('=', 1)] when ['=' in v]: the text before the first ['='],
    and the text after it. *)
Fixpoint split_eq (v : string) : option (string * string) :=
  match v with
  | EmptyString => None
  | String c rest =>
      if Ascii.eqb c "="%char then Some (EmptyString, rest)
      else match split_eq rest with
           | Some (key, value) => Some (String c key, value)
           | None => None
           end
  end.

(** The loop of [parse_variables] over the variables that are left. *)
Fixpoint parse_loop (variables : list string) (logger : string) (new_params : cfg)
    : W cfg :=
  match variables with
  | [] => wret new_params
  | v :: variables =>
      _ <<- log logger DEBUG ("Parsing additional variable: " +:+ v) ;;
      match split_eq v with
      | None =>
          wlift (Raise (Exc ValueError
            ("Improper variable specificationi: " +:+ v +:+ ".  Use field.item=value.")))
      | Some (key, value) =>
          value <<- match yaml_load value with
                    | inl parsed => wret parsed
                    | inr e =>
                        _ <<- log logger WARNING ("Caught " +:+ e) ;;
                        _ <<- log logger WARNING
                                ("Unable to parse " +:+ value +:+ ".  Treating it as a string.") ;;
                        wret (PStr value)
                    end ;;
          parse_loop variables logger (pydict.set key value new_params)
      end
  end.

(** [parse_variables(config, variables, logger)]: whether it raised, and
    the configuration it leaves. *)
Definition parse_variables (config : cfg) (variables : list string) (logger : string)
    (w : world) : (result unit * cfg) * world :=
  match parse_loop variables logger [] w with
  | (Ok new_params, w') => (UpdateConfig config new_params, w')
  | (Raise e, w') => ((Raise e, config), w')
  end.

(** [for key in keys: if key not in config: raise ValueError(...)] *)
Fixpoint require_fields (keys : list string) (config : cfg) : result unit :=
  match keys with
  | [] => Ok tt
  | key :: keys =>
      if pydict.contains key config then require_fields keys config
      else Raise (Exc ValueError (key +:+ " field is required in config dict"))
  end.

(** The logger the drivers use: the one given, or the one [setup_logger]
    builds for [config.get('verbose', 1)]. *)
Definition logger_or_setup (config : cfg) (logger : option string) : W string :=
  match logger with
  | None =>
      let verbose := default (PInt 1) (pydict.get "verbose" config) in
      setup_logger verbose None
  | Some logger => wret logger
  end.

Definition import_modules (config : cfg) : W unit :=
  if pydict.contains "modules" config then wext (ImportModules config) else wret tt.

Definition process (config : cfg) (logger : option string) : W psf_t :=
  logger <<- logger_or_setup config logger ;;
  _ <<- wlift (require_fields ["input"; "psf"]%string config) ;;
  _ <<- import_modules config ;;
  config_input <<- wlift (pydict.getitem "input" config) ;;
  inputs <<- wext (Input_process config_input (Some logger)) ;;
  config_psf <<- wlift (pydict.getitem "psf" config) ;;
  psf <<- wext (PSF_process config_psf (Some logger)) ;;
  psf <<- wext (psf_fit psf inputs (Some logger)) ;;
  wret psf.

Definition piffify (config : cfg) (logger : option string) : W unit :=
  _ <<- wlift (require_fields ["input"; "output"; "psf"]%string config) ;;
  psf <<- process config logger ;;
  config_output <<- wlift (pydict.getitem "output" config) ;;
  output <<- wext (Output_process config_output logger) ;;
  wext (output_write output psf logger).

(** The loop of [plotify] over [output.stats_list]. *)
Fixpoint stats_loop (stats : list stats_t) (psf : psf_t) (inputs : inputs_t)
    (logger : string) : W unit :=
  match stats with
  | [] => wret tt
  | s :: stats =>
      s <<- wext (stats_compute s psf inputs (Some logger)) ;;
      _ <<- wext (stats_write s (Some logger)) ;;
      stats_loop stats psf inputs logger
  end.

Definition plotify (config : cfg) (logger : option string) : W unit :=
  logger <<- logger_or_setup config logger ;;
  _ <<- wlift (require_fields ["input"; "output"]%string config) ;;
  config_output <<- wlift (pydict.getitem "output" config) ;;
  has_file_name <<- wlift (py_contains "file_name" config_output) ;;
  _ <<- wlift (if has_file_name : bool then Ok tt
               else Raise (Exc ValueError
                      ("file_name" +:+ " field is required in config dict output"))) ;;
  _ <<- import_modules config ;;
  config_input <<- wlift (pydict.getitem "input" config) ;;
  inputs <<- wext (Input_process config_input (Some logger)) ;;
  file_name <<- wlift (py_getitem config_output "file_name") ;;
  has_dir <<- wlift (py_contains "dir" config_output) ;;
  file_name <<- (if has_dir : bool then
                   dir <<- wlift (py_getitem config_output "dir") ;;
                   wlift (path_join dir file_name)
                 else wret file_name) ;;
  _ <<- log logger INFO ("Looking for PSF at " +:+ py_str file_name) ;;
  psf <<- wext (PSF_read file_name (Some logger)) ;;
  output <<- wext (Output_process config_output (Some logger)) ;;
  _ <<- log logger DEBUG ("stats_list = " +:+ stats_list_str output) ;;
  stats_loop (stats_list output) psf inputs logger.

End with_outside.

End config.

(** *** Predicates and sample inputs for the configuration *)

(** The text [key=value] of a variable. *)
Definition variable_text (kv : string * string) : string := kv.1 +:+ "=" +:+ kv.2.

(** The value [parse_variables] stores for the text [s]: what the YAML
    parser makes of it or, failing that, the text itself. *)
Definition value_of `{Outside} (s : string) : pyval :=
  match yaml_load s with inl parsed => parsed | inr _ => PStr s end.

(** An outside where nothing happens and nothing fails; YAML texts are
    kept as strings. *)
Definition quiet_outside : Outside := {|
  ext := unit;
  inputs_t := unit;
  psf_t := unit;
  output_t := unit;
  stats_t := unit;
  py_repr := λ _, "?"%string;
  py_str := λ _, "?"%string;
  yaml_load := λ s, inl (PStr s);
  UpdateConfig := λ config new_params,
    (Ok tt, foldl (λ c kv, pydict.set kv.1 kv.2 c) config new_params);
  ImportModules := λ _ e, (Ok tt, e);
  path_join := λ _ b, Ok b;
  open_log := λ _ e, (Ok tt, e);
  emit := λ _ _ _ _ e, e;
  Input_process := λ _ _ e, (Ok tt, e);
  PSF_process := λ _ _ e, (Ok tt, e);
  psf_fit := λ p _ _ e, (Ok p, e);
  PSF_read := λ _ _ e, (Ok tt, e);
  Output_process := λ _ _ e, (Ok tt, e);
  output_write := λ _ _ _ e, (Ok tt, e);
  stats_list := λ _, [];
  stats_list_str := λ _, "[]"%string;
  stats_compute := λ s _ _ _ e, (Ok s, e);
  stats_write := λ _ _ e, (Ok tt, e);
|}.

(** A world in which no logger has been set up. *)
Definition fresh_world : @config.world quiet_outside :=
  @config.Build_world quiet_outside ∅ tt.

(** * Properties *)

(** ** Arrays of known rank as Python arrays *)

Section arrays.
Import np.

Lemma mapM_result_ok {A B} (f : A → result B) (g : A → B) (l : list A) :
  (∀ x, x ∈ l → f x = Ok (g x)) → mapM f l = Ok (g <$> l).
Proof.
  induction l as [|x l IH]; intros Hf; [reflexivity|].
  cbn. rewrite Hf by left. cbn. unfold mbind, result_bind at 1. cbn.
  rewrite IH; [reflexivity|]. intros y Hy. apply Hf. by right.
Qed.

Lemma mapM_option_ok {A B} (f : A → option B) (g : A → B) (l : list A) :
  (∀ x, x ∈ l → f x = Some (g x)) → mapM f l = Some (g <$> l).
Proof.
  induction l as [|x l IH]; intros Hf; [reflexivity|].
  cbn. rewrite Hf by left. cbn.
  rewrite IH; [reflexivity|]. intros y Hy. apply Hf. by right.
Qed.

Lemma as_vector_of_vector v : as_vector (of_vector v) = Some v.
Proof.
  unfold as_vector, of_vector.
  induction v as [|x v IH]; [reflexivity|].
  cbn. cbn in IH. rewrite IH. reflexivity.
Qed.

Lemma ndim_of_matrix M : M ≠ [] → ndim (of_matrix M) = 2.
Proof. destruct M as [|[|x r] M]; [done|reflexivity|reflexivity]. Qed.

Lemma as_matrix_of_matrix M : M ≠ [] → as_matrix (of_matrix M) = Some M.
Proof.
  intros HM. unfold as_matrix. 
  change (of_matrix M) with (Nd (of_vector <$> M)) at 1.
  cbv iota beta. rewrite decide_True by (by apply ndim_of_matrix).
  clear HM. induction M as [|r M IH]; [reflexivity|].
  cbn. pose proof (as_vector_of_vector r) as Hr. unfold as_vector, of_vector in Hr.
  cbn in Hr. rewrite Hr. cbn. cbn in IH. rewrite IH. reflexivity.
Qed.

Lemma atleast_2d_of_matrix M : M ≠ [] → atleast_2d (of_matrix M) = of_matrix M.
Proof. intros HM. unfold atleast_2d. by rewrite ndim_of_matrix. Qed.

End arrays.
(** ** Error paths of the kernels *)

(** C7: an [EmpiricalKernel] called with [eval_gradient=True] raises
    [RuntimeError], whatever [X] and [Y] are. *)
Theorem EmpiricalKernel_gradient_raises (self : EmpiricalKernel.t)
    (X : np.ndarray) (Y : option np.ndarray) :
  EmpiricalKernel.__call__ self X Y true
  = Raise (Exc RuntimeError "Cannot evaluate gradient for EmpiricalKernel.").
Proof. reflexivity. Qed.

(** C6: an [AnisotropicRBF] called with some [Y] and [eval_gradient=True]
    raises [ValueError], whatever [X] and [Y] are; hence a call that
    returns a gradient was made with [Y] omitted. *)
Theorem AnisotropicRBF_Y_with_gradient_raises (self : AnisotropicRBF.t) (X : np.ndarray) :
  (∀ Y, AnisotropicRBF.__call__ self X (Some Y) true
        = Raise (Exc ValueError "Gradient can only be evaluated when Y is None."))
  ∧ (∀ Y v, AnisotropicRBF.__call__ self X Y true = Ok v → Y = None).
Proof.
  assert (Hfail : ∀ Y, AnisotropicRBF.__call__ self X (Some Y) true
        = Raise (Exc ValueError "Gradient can only be evaluated when Y is None."))
    by reflexivity.
  split; [exact Hfail|].
  intros [Y|] v Hv; [|reflexivity].
  rewrite Hfail in Hv. discriminate.
Qed.

(** C5: constructing an [EmpiricalKernel] succeeds exactly when
    [fn(0, 0) == 1] holds, and raises otherwise; for an [fn] that returns a
    scalar at [(0, 0)] this is the equation [fn(0, 0) = 1]. *)
Theorem EmpiricalKernel_init_iff (fn : np.ndarray → np.ndarray → np.ndarray) :
  (is_ok (EmpiricalKernel.__init__ fn)
   ↔ np.truth_of_eq (fn (np.Sc 0) (np.Sc 0)) 1 = Ok true)
  ∧ (np.truth_of_eq (fn (np.Sc 0) (np.Sc 0)) 1 = Ok true
     ↔ EmpiricalKernel.__init__ fn = Ok {| EmpiricalKernel.fn := fn |})
  ∧ (np.truth_of_eq (fn (np.Sc 0) (np.Sc 0)) 1 ≠ Ok true
     ↔ ∃ e, EmpiricalKernel.__init__ fn = Raise e)
  ∧ (∀ x, fn (np.Sc 0) (np.Sc 0) = np.Sc x →
       (x = 1%R → EmpiricalKernel.__init__ fn = Ok {| EmpiricalKernel.fn := fn |})
       ∧ (x ≠ 1%R → EmpiricalKernel.__init__ fn = Raise (Exc AssertionError ""))).
Proof.
  unfold EmpiricalKernel.__init__, is_ok; cbn.
  split; [|split; [|split]].
  - destruct (np.truth_of_eq _ _) as [[|]|e]; cbn; split; eauto; try congruence.
    + intros [a Ha]; discriminate.
    + intros [a Ha]; discriminate.
  - destruct (np.truth_of_eq _ _) as [[|]|e]; cbn; split; congruence.
  - destruct (np.truth_of_eq _ _) as [[|]|e]; cbn; split; eauto; try congruence.
    intros [e He]; discriminate.
  - intros x ->. unfold np.truth_of_eq; cbn. split.
    + intros ->. rewrite bool_decide_eq_true_2 by done. reflexivity.
    + intros Hne. rewrite bool_decide_eq_false_2 by done. reflexivity.
Qed.

(** ** EmpiricalKernel on matrices *)

Section empirical.
Import np.

Lemma item_of_vector j r : j < length r → item j (of_vector r) = Ok (Sc (nth j r 0%R)).
Proof.
  intros Hj. unfold item, of_vector. rewrite list_lookup_fmap.
  destruct (lookup_lt_is_Some_2 r j Hj) as [x Hx]. rewrite Hx. cbn.
  by rewrite (nth_lookup_Some _ _ _ _ Hx).
Qed.

Lemma column_of_matrix j M :
  Forall (λ r, j < length r) M →
  column j (of_matrix M) = Ok (of_vector ((λ r, nth j r 0%R) <$> M)).
Proof.
  intros HM. unfold column, of_matrix.
  rewrite (mapM_result_ok _ (λ a, Sc (nth j (default [] (as_vector a)) 0%R))).
  - cbn. unfold of_vector. do 2 f_equal. rewrite <-!list_fmap_compose.
    apply list_fmap_ext. intros i r _. cbn.
    pose proof (as_vector_of_vector r) as Hr. unfold of_vector, as_vector in Hr.
    by rewrite Hr.
  - intros a [r [-> Hr]]%list_elem_of_fmap.
    rewrite as_vector_of_vector. cbn. apply item_of_vector.
    rewrite Forall_forall in HM. by apply HM.
Qed.

Lemma columns_upto_of_matrix k M : columns_upto k (of_matrix M) = of_matrix (take k <$> M).
Proof.
  unfold columns_upto, of_matrix. f_equal. rewrite <-!list_fmap_compose.
  apply list_fmap_ext. intros i r _. cbn. unfold of_vector. by rewrite fmap_take.
Qed.

Lemma EmpiricalKernel_call_matrix (self : EmpiricalKernel.t) (X : matrix) (Y : option matrix) :
  X ≠ [] → Forall (λ r, 2 ≤ length r) X →
  (∀ Ym, Y = Some Ym → Forall (λ r, 2 ≤ length r) Ym) →
  EmpiricalKernel.__call__ self (of_matrix X) (of_matrix <$> Y) false
  = Ok (KernelOnly (self.(EmpiricalKernel.fn)
          (subtract_outer (of_vector (col 0 X)) (of_vector (col 0 (default X Y))))
          (subtract_outer (of_vector (col 1 X)) (of_vector (col 1 (default X Y)))))).
Proof.
  intros HX HXw HYw. unfold EmpiricalKernel.__call__.
  rewrite atleast_2d_of_matrix by done.
  assert (HY : match of_matrix <$> Y with Some Y0 => Y0 | None => of_matrix X end
               = of_matrix (default X Y)) by (by destruct Y).
  rewrite HY.
  assert (HYw' : Forall (λ r, 2 ≤ length r) (default X Y)).
  { destruct Y as [Ym|]; cbn; [by apply HYw | done]. }
  rewrite !column_of_matrix; cbn; try reflexivity.
  all: eapply Forall_impl; [eassumption|]; cbn; intros; lia.
Qed.

(** C10: on a matrix [X] (and an optional matrix [Y]) whose rows have more
    than two entries, an [EmpiricalKernel] returns: it reads the first two
    columns only, its value being that on the inputs cut to their first
    two columns, [fn] applied to the pairwise differences of column 0 and
    of column 1. *)
Theorem EmpiricalKernel_ignores_extra_columns (self : EmpiricalKernel.t)
    (X : matrix) (Y : option matrix) :
  X ≠ [] → Forall (λ r, 2 < length r) X →
  (∀ Ym, Y = Some Ym → Forall (λ r, 2 < length r) Ym) →
  is_ok (EmpiricalKernel.__call__ self (of_matrix X) (of_matrix <$> Y) false)
  ∧ EmpiricalKernel.__call__ self (of_matrix X) (of_matrix <$> Y) false
    = EmpiricalKernel.__call__ self (columns_upto 2 (of_matrix X))
        (columns_upto 2 <$> (of_matrix <$> Y)) false
  ∧ EmpiricalKernel.__call__ self (of_matrix X) (of_matrix <$> Y) false
    = Ok (KernelOnly (self.(EmpiricalKernel.fn)
          (subtract_outer (of_vector (col 0 X)) (of_vector (col 0 (default X Y))))
          (subtract_outer (of_vector (col 1 X)) (of_vector (col 1 (default X Y)))))).
Proof.
  intros HX HXw HYw.
  assert (Hcall := EmpiricalKernel_call_matrix self X Y HX).
  rewrite Hcall.
  2: { eapply Forall_impl; [eassumption|]; cbn; intros; lia. }
  2: { intros Ym HYm. eapply Forall_impl; [by apply HYw|]; cbn; intros; lia. }
  split; [eexists; reflexivity|]. split; [|reflexivity].
  rewrite columns_upto_of_matrix.
  assert (HY : columns_upto 2 <$> (of_matrix <$> Y) = of_matrix <$> (fmap (take 2) <$> Y)).
  { destruct Y as [Ym|]; [|reflexivity].
    change (Some (columns_upto 2 (of_matrix Ym)) = Some (of_matrix (take 2 <$> Ym))).
    by rewrite columns_upto_of_matrix. }
  rewrite HY, EmpiricalKernel_call_matrix.
  - assert (Hcol : ∀ j M, j < 2 → Forall (λ r, 2 < length r) M → col j (take 2 <$> M) = col j M).
    { intros j M Hj HM. unfold col. rewrite <-list_fmap_compose.
      apply Forall_fmap_ext_1. eapply Forall_impl; [exact HM|].
      cbn. intros r Hr. rewrite !nth_lookup, lookup_take_lt by lia. done. }
    assert (HdY : default (take 2 <$> X) (fmap (take 2) <$> Y) = take 2 <$> default X Y)
      by (by destruct Y).
    rewrite HdY.
    assert (HYw' : Forall (λ r, 2 < length r) (default X Y)).
    { destruct Y as [Ym|]; cbn; [by apply HYw | done]. }
    rewrite !Hcol by (done || lia). reflexivity.
  - by destruct X.
  - rewrite Forall_fmap. eapply Forall_impl; [exact HXw|]. cbn. intros r Hr.
    rewrite length_take. lia.
  - intros Ym HYm. destruct Y as [Y0|]; [|done]. cbn in HYm. injection HYm as <-.
    rewrite Forall_fmap. eapply Forall_impl; [by apply HYw|]. cbn. intros r Hr.
    rewrite length_take. lia.
Qed.
End empirical.

(** ** Rows, entries and shapes *)

Section linear_algebra.
Import np.
Local Open Scope R_scope.

Lemma dot_nil_l v : dot [] v = 0.
Proof. reflexivity. Qed.

Lemma dot_nil_r u : dot u [] = 0.
Proof. by destruct u. Qed.

Lemma dot_cons x u y v : dot (x :: u) (y :: v) = x * y + dot u v.
Proof. reflexivity. Qed.

Lemma dot_comm u v : dot u v = dot v u.
Proof.
  revert v. induction u as [|x u IH]; intros [|y v]; try reflexivity.
  rewrite !dot_cons, IH. lra.
Qed.

Lemma dot_zeros_l n v : dot (replicate n 0) v = 0.
Proof.
  revert v. induction n as [|n IH]; intros [|y v]; try reflexivity.
  cbn [replicate]. rewrite dot_cons, IH. lra.
Qed.

Lemma dot_zeros_r n u : dot u (replicate n 0) = 0.
Proof. by rewrite dot_comm, dot_zeros_l. Qed.

Lemma dot_scale_l k u v : dot ((λ x, k * x) <$> u) v = k * dot u v.
Proof.
  revert v. induction u as [|x u IH]; intros [|y v]; cbn [fmap list_fmap];
    rewrite ?dot_nil_l, ?dot_nil_r, ?dot_cons, ?IH; lra.
Qed.

Lemma dot_opp u v : dot (Ropp <$> u) (Ropp <$> v) = dot u v.
Proof.
  revert v. induction u as [|x u IH]; intros [|y v]; cbn [fmap list_fmap];
    rewrite ?dot_nil_l, ?dot_nil_r, ?dot_cons, ?IH; lra.
Qed.

Lemma vec_sub_opp u v : vec_sub u v = Ropp <$> vec_sub v u.
Proof.
  unfold vec_sub. revert v. induction u as [|x u IH]; intros [|y v]; try reflexivity.
  cbn. rewrite IH. f_equal. lra.
Qed.

Lemma mat_vec_opp M v : mat_vec M (Ropp <$> v) = Ropp <$> mat_vec M v.
Proof.
  unfold mat_vec. rewrite <-list_fmap_compose. apply list_fmap_ext. intros _ row _. cbn.
  revert v. induction row as [|x u IH]; intros [|y v]; cbn [fmap list_fmap];
    rewrite ?dot_nil_l, ?dot_nil_r, ?dot_cons, ?IH; lra.
Qed.

(** The quadratic form [v · M · v]. *)
Lemma quad_opp M v : dot (Ropp <$> v) (mat_vec M (Ropp <$> v)) = dot v (mat_vec M v).
Proof. by rewrite mat_vec_opp, dot_opp. Qed.

Lemma mahalanobis_sym VI u v : scipy.mahalanobis VI u v = scipy.mahalanobis VI v u.
Proof. unfold scipy.mahalanobis. cbv zeta. by rewrite (vec_sub_opp u v), quad_opp. Qed.

(** Entries and rows. *)
Lemma entry_lookup M i j row x :
  M !! i = Some row → row !! j = Some x → entry M i j = x.
Proof.
  intros Hi Hj. unfold entry.
  by rewrite (nth_lookup_Some _ _ _ _ Hi), (nth_lookup_Some _ _ _ _ Hj).
Qed.

Lemma is_shape_lookup p q M i :
  is_shape p q M → (i < p)%nat → ∃ row, M !! i = Some row ∧ length row = q.
Proof.
  intros [<- HM] Hi. destruct (lookup_lt_is_Some_2 M i Hi) as [row Hrow].
  exists row. split; [done|]. rewrite Forall_forall in HM. apply HM.
  eapply list_elem_of_lookup_2; eassumption.
Qed.

Lemma is_shape_nth p q M i :
  is_shape p q M → (i < p)%nat → length (nth i M []) = q.
Proof.
  intros HM Hi. destruct (is_shape_lookup p q M i HM Hi) as (row & Hrow & Hlen).
  by rewrite (nth_lookup_Some _ _ _ _ Hrow).
Qed.

Lemma list_eq_nth {A} (d : A) (l1 l2 : list A) :
  length l1 = length l2 → (∀ i, (i < length l1)%nat → nth i l1 d = nth i l2 d) → l1 = l2.
Proof.
  intros Hlen Hnth. apply list_eq_same_length with (length l1); [done|done|].
  intros i x y Hi Hx Hy. specialize (Hnth i Hi).
  rewrite (nth_lookup_Some _ _ _ _ Hx), (nth_lookup_Some _ _ _ _ Hy) in Hnth. done.
Qed.

(** Two matrices of one shape with the same entries are equal. *)
Lemma matrix_ext p q (A B : matrix) :
  is_shape p q A → is_shape p q B →
  (∀ i j, (i < p)%nat → (j < q)%nat → entry A i j = entry B i j) → A = B.
Proof.
  intros HA HB Hent. apply (list_eq_nth []).
  { destruct HA as [-> _], HB as [-> _]. done. }
  intros i Hi. assert (i < p)%nat as Hip by (destruct HA as [<- _]; done).
  apply (list_eq_nth 0).
  { by rewrite (is_shape_nth p q A), (is_shape_nth p q B). }
  intros j Hj. rewrite (is_shape_nth p q A) in Hj by done. by apply Hent.
Qed.

Lemma zeros_shape p q : is_shape p q (zeros p q).
Proof.
  split; [apply length_replicate|]. apply Forall_replicate, length_replicate.
Qed.

Lemma entry_zeros p q i j : entry (zeros p q) i j = 0.
Proof.
  unfold entry, zeros. destruct (decide (i < p)%nat).
  - rewrite (nth_lookup_Some _ _ _ (replicate q 0)) by (by apply lookup_replicate_2).
    destruct (decide (j < q)%nat).
    + by rewrite (nth_lookup_Some _ _ _ 0) by (by apply lookup_replicate_2).
    + rewrite nth_overflow; [done|]. rewrite length_replicate. lia.
  - rewrite (nth_overflow (replicate p _)) by (rewrite length_replicate; lia). by destruct j.
Qed.

Lemma zeros_like_shape p q M : is_shape p q M → zeros_like M = zeros p q.
Proof.
  intros [<- HM]. unfold zeros_like, zeros. induction M as [|row M IH]; [done|].
  apply Forall_cons in HM as [<- HM]. cbn. by rewrite IH.
Qed.
End linear_algebra.

(** ** The Cholesky factorisation *)

Section cholesky.
Import np.
Local Open Scope R_scope.

Lemma square_S_inv n A :
  is_shape (S n) (S n) A →
  ∃ a b rest, A = (a :: b) :: rest ∧ length b = n ∧ is_shape n (S n) rest.
Proof.
  intros [Hlen HA]. destruct A as [|[|a b] rest]; try discriminate.
  - apply Forall_cons in HA as [? _]. discriminate.
  - apply Forall_cons in HA as [Hb HA]. exists a, b, rest.
    repeat split; cbn in *; [lia|lia|done].
Qed.

Lemma rows_hd_tl n q rest :
  is_shape n (S q) rest →
  rest = zip_with cons (hd 0 <$> rest) (tl <$> rest)
  ∧ length (hd 0 <$> rest) = n ∧ is_shape n q (tl <$> rest).
Proof.
  intros [<- Hrest]. induction rest as [|row rest IH]; [by repeat split|].
  apply Forall_cons in Hrest as [Hrow Hrest]. destruct (IH Hrest) as (IH1 & IH2 & IH3 & IH4).
  destruct row as [|x row]; [discriminate|]. cbn in *.
  split; [by rewrite <-IH1|]. split; [by rewrite IH2|].
  split; [cbn; by rewrite IH3|]. apply Forall_cons. split; [lia|done].
Qed.

Lemma dot_zip_add t w c m :
  length c = length m →
  dot w (zip_with (λ x y, x * t + y) c m) = t * dot w c + dot w m.
Proof.
  revert c m. induction w as [|z w IH]; intros [|x c] [|y m] Hlen; try discriminate;
    cbn [zip_with]; rewrite ?dot_nil_l, ?dot_nil_r, ?dot_cons; try lra.
  rewrite IH by (cbn in Hlen; lia). lra.
Qed.

Lemma mat_vec_cons_rows n q rest t w :
  is_shape n (S q) rest →
  mat_vec rest (t :: w) = zip_with (λ x y, x * t + y) (hd 0 <$> rest) (mat_vec (tl <$> rest) w).
Proof.
  intros [_ Hrest]. unfold mat_vec. induction rest as [|row rest IH]; [done|].
  apply Forall_cons in Hrest as [Hrow Hrest]. destruct row as [|x row]; [discriminate|].
  cbn [fmap list_fmap hd tl zip_with]. by rewrite IH, dot_cons.
Qed.

Lemma quad_block a b rest t w n :
  is_shape n (S n) rest →
  quad ((a :: b) :: rest) (t :: w)
  = t * (a * t + dot b w) + (t * dot w (hd 0 <$> rest) + quad (tl <$> rest) w).
Proof.
  intros Hrest. unfold quad. cbn [mat_vec fmap list_fmap].
  change ((λ row, dot row (t :: w)) <$> rest) with (mat_vec rest (t :: w)).
  rewrite !dot_cons, (mat_vec_cons_rows n n) by done.
  rewrite dot_zip_add; [done|].
  destruct (rows_hd_tl n n rest Hrest) as (_ & -> & [Hlen _]).
  unfold mat_vec. by rewrite length_fmap.
Qed.

Lemma dot_zip_sub ci c r w :
  length c = length r →
  dot (zip_with (λ cj x, x - ci * cj) c r) w = dot r w - ci * dot c w.
Proof.
  revert r w. induction c as [|x c IH]; intros [|y r] [|z w] Hlen; try discriminate;
    cbn [zip_with]; rewrite ?dot_nil_l, ?dot_nil_r, ?dot_cons; try lra.
  rewrite IH by (cbn in Hlen; lia). lra.
Qed.

Lemma mat_vec_schur n c C w :
  length c = n → is_shape n n C →
  mat_vec (schur c C) w = zip_with (λ ci m, m - ci * dot c w) c (mat_vec C w).
Proof.
  intros Hc [HC1 HC2]. unfold schur, mat_vec.
  assert (Hrows : Forall (λ row, length c = length row) C).
  { eapply Forall_impl; [exact HC2|]. cbn. intros; lia. }
  clear HC1 HC2 Hc. generalize c at 2 4 as c'.
  induction C as [|row C IH]; intros [|ci c']; try reflexivity.
  apply Forall_cons in Hrows as [Hrow Hrows].
  cbn [zip_with fmap list_fmap]. by rewrite IH, dot_zip_sub.
Qed.

Lemma dot_zip_sub_r s w c m :
  length c = length m →
  dot w (zip_with (λ ci y, y - ci * s) c m) = dot w m - s * dot w c.
Proof.
  revert c m. induction w as [|z w IH]; intros [|x c] [|y m] Hlen; try discriminate;
    cbn [zip_with]; rewrite ?dot_nil_l, ?dot_nil_r, ?dot_cons; try lra.
  rewrite IH by (cbn in Hlen; lia). lra.
Qed.

Lemma quad_schur n c C w :
  length c = n → is_shape n n C →
  quad (schur c C) w = quad C w - dot c w * dot c w.
Proof.
  intros Hc HC. unfold quad. rewrite (mat_vec_schur n) by done.
  rewrite dot_zip_sub_r.
  - rewrite (dot_comm w c). lra.
  - unfold mat_vec. rewrite length_fmap. destruct HC as [-> _]. done.
Qed.

Lemma schur_shape n c C : length c = n → is_shape n n C → is_shape n n (schur c C).
Proof.
  intros Hc [HC1 HC2]. unfold schur. split.
  - rewrite length_zip_with. lia.
  - apply Forall_forall. intros row [ci [r (-> & _ & Hr)]]%elem_of_zip_with.
    rewrite Forall_forall in HC2. rewrite length_zip_with, (HC2 r) by done. lia.
Qed.

Lemma entry_schur n c C i j :
  length c = n → is_shape n n C → (i < n)%nat → (j < n)%nat →
  entry (schur c C) i j = entry C i j - nth i c 0 * nth j c 0.
Proof.
  intros Hc HC Hi Hj.
  destruct (is_shape_lookup n n C i HC Hi) as (row & Hrow & Hlen).
  destruct (lookup_lt_is_Some_2 c i) as [ci Hci]; [lia|].
  destruct (lookup_lt_is_Some_2 c j) as [cj Hcj]; [lia|].
  destruct (lookup_lt_is_Some_2 row j) as [x Hx]; [lia|].
  rewrite (entry_lookup C i j row x) by done.
  rewrite (nth_lookup_Some _ _ _ _ Hci), (nth_lookup_Some _ _ _ _ Hcj).
  apply (entry_lookup _ _ _ (zip_with (λ cj x, x - ci * cj) c row)).
  - unfold schur. rewrite lookup_zip_with, Hci, Hrow. done.
  - rewrite lookup_zip_with, Hcj, Hx. done.
Qed.

Lemma dot_div_l l u v : dot ((λ x, x / l) <$> u) v = dot u v / l.
Proof.
  rewrite (list_fmap_ext (λ x, x / l) (λ x, / l * x) u) by (intros; cbn; lra).
  rewrite dot_scale_l. lra.
Qed.

(** What [potrf] computes on a matrix given by its first row and the
    rows below. *)
Lemma potrf_S n a b rest :
  potrf (S n) ((a :: b) :: rest)
  = if Rlt_dec 0 a then
      let c := (λ x, x / sqrt a) <$> (hd 0 <$> rest) in
      L' <- potrf n (schur c (tl <$> rest)) ;;
      Ok ((sqrt a :: replicate n 0) :: zip_with cons c L')
    else Raise (Exc LinAlgError "Matrix is not positive definite").
Proof.
  cbn [potrf]. change (entry ((a :: b) :: rest) 0 0) with a.
  destruct (Rlt_dec 0 a); [|done]. cbv zeta. cbn [tl].
  rewrite <-list_fmap_compose. unfold schur. by rewrite zip_with_fmap_r.
Qed.

(** The blocks of a symmetric positive-definite matrix. *)
Lemma entry_block_SS a b rest i j :
  entry ((a :: b) :: rest) (S i) (S j) = entry (tl <$> rest) i j.
Proof.
  unfold entry. cbn [nth]. destruct (decide (i < length rest)%nat) as [Hi|Hi].
  - destruct (lookup_lt_is_Some_2 rest i Hi) as [row Hrow].
    rewrite (nth_lookup_Some _ _ _ _ Hrow).
    rewrite (nth_lookup_Some (tl <$> rest) i [] (tl row))
      by (by rewrite list_lookup_fmap, Hrow).
    destruct row; [by destruct j|done].
  - rewrite (nth_overflow rest []) by lia.
    rewrite (nth_overflow (tl <$> rest)) by (rewrite length_fmap; lia). by destruct j.
Qed.

Lemma entry_block_S0 a b rest i :
  entry ((a :: b) :: rest) (S i) 0 = nth i (hd 0 <$> rest) 0.
Proof.
  unfold entry. cbn [nth]. destruct (decide (i < length rest)%nat) as [Hi|Hi].
  - destruct (lookup_lt_is_Some_2 rest i Hi) as [row Hrow].
    rewrite (nth_lookup_Some _ _ _ _ Hrow).
    rewrite (nth_lookup_Some (hd 0 <$> rest) i 0 (hd 0 row))
      by (by rewrite list_lookup_fmap, Hrow).
    by destruct row.
  - rewrite (nth_overflow rest []) by lia.
    rewrite (nth_overflow (hd 0 <$> rest)) by (rewrite length_fmap; lia). done.
Qed.

Lemma spd_block n a b rest :
  spd (S n) ((a :: b) :: rest) →
  0 < a ∧ b = hd 0 <$> rest ∧ length b = n ∧ is_shape n (S n) rest
  ∧ symmetric n (tl <$> rest).
Proof.
  intros (Hshape & Hsym & Hpos).
  destruct (square_S_inv n _ Hshape) as (a' & b' & rest' & [= <- <- <-] & Hb & Hrest).
  destruct (rows_hd_tl n n rest Hrest) as (_ & Hc0 & HC).
  split; [|split; [|split; [done|split; [done|]]]].
  - specialize (Hpos (1 :: replicate n 0)).
    rewrite (quad_block _ _ _ _ _ n) in Hpos by done.
    unfold quad in Hpos. rewrite dot_zeros_r, !dot_zeros_l in Hpos.
    rewrite length_cons, length_replicate in Hpos.
    specialize (Hpos eq_refl). 
    assert (Hnz : Exists (λ x, x ≠ 0) (1 :: replicate n 0)) by (left; lra).
    specialize (Hpos Hnz). lra.
  - apply (list_eq_nth 0); [lia|]. intros j Hj.
    rewrite <-entry_block_S0 with (a := a) (b := b).
    rewrite <-Hsym by lia. reflexivity.
  - intros i j Hi Hj. rewrite <-!entry_block_SS with (a := a) (b := b).
    apply Hsym; lia.
Qed.

Lemma spd_schur n a b rest :
  spd (S n) ((a :: b) :: rest) →
  spd n (schur ((λ x, x / sqrt a) <$> (hd 0 <$> rest)) (tl <$> rest)).
Proof.
  intros HA. destruct (spd_block n a b rest HA) as (Ha & -> & Hb & Hrest & HsymC).
  destruct (rows_hd_tl n n rest Hrest) as (_ & Hc0 & HC).
  set (c0 := hd 0 <$> rest) in *. set (C := tl <$> rest) in *.
  set (c := (λ x, x / sqrt a) <$> c0).
  assert (Hc : length c = n) by (unfold c; by rewrite length_fmap).
  assert (Hl : 0 < sqrt a) by (by apply sqrt_lt_R0).
  assert (Hll : sqrt a * sqrt a = a) by (apply sqrt_sqrt; lra).
  split; [by apply schur_shape|]. split.
  - intros i j Hi Hj. rewrite !(entry_schur n) by done. rewrite (HsymC i j) by done. lra.
  - intros w Hw Hnz. rewrite (quad_schur n) by done.
    destruct HA as (_ & _ & Hpos).
    specialize (Hpos ((- dot c0 w / a) :: w)).
    rewrite (quad_block _ _ _ _ _ n) in Hpos by done.
    fold c0 C in Hpos.
    assert (Hlen : length (- dot c0 w / a :: w) = S n) by (cbn; lia).
    specialize (Hpos Hlen (Exists_cons_tl _ Hnz)).
    unfold c. rewrite dot_div_l. rewrite (dot_comm w c0) in Hpos.
    set (d := dot c0 w) in *. set (qC := quad C w) in *.
    assert (Heq : ∀ l, 0 < l → l * l = a →
                  - d / a * (a * (- d / a) + d) + (- d / a * d + qC)
                  = qC - d / l * (d / l)).
    { intros l Hl0 <-. field. lra. }
    rewrite <-(Heq (sqrt a)) by done. lra.
Qed.

Lemma nth_zip_with_cons i (c : vector) (L : matrix) :
  (i < length c)%nat → (i < length L)%nat →
  nth i (zip_with cons c L) [] = nth i c 0 :: nth i L [].
Proof.
  intros Hc HL.
  destruct (lookup_lt_is_Some_2 c i Hc) as [x Hx].
  destruct (lookup_lt_is_Some_2 L i HL) as [row Hrow].
  rewrite (nth_lookup_Some _ _ _ _ Hx), (nth_lookup_Some _ _ _ _ Hrow).
  apply nth_lookup_Some. by rewrite lookup_zip_with, Hx, Hrow.
Qed.

Lemma nth_fmap_div i l (u : vector) :
  (i < length u)%nat → nth i ((λ x, x / l) <$> u) 0 = nth i u 0 / l.
Proof.
  intros Hi. destruct (lookup_lt_is_Some_2 u i Hi) as [x Hx].
  rewrite (nth_lookup_Some _ _ _ _ Hx). apply nth_lookup_Some.
  by rewrite list_lookup_fmap, Hx.
Qed.

Lemma nth_zeros i n : nth i (replicate n 0) 0 = 0.
Proof.
  destruct (decide (i < n)%nat).
  - apply nth_lookup_Some. by apply lookup_replicate_2.
  - apply nth_overflow. rewrite length_replicate. lia.
Qed.

(** On a symmetric positive-definite matrix the factorisation succeeds;
    the factor is lower triangular with a positive diagonal, and the dot
    products of its rows are the entries of the matrix. *)
Lemma potrf_spd n A :
  spd n A →
  ∃ L, potrf n A = Ok L ∧ is_shape n n L ∧ lower_triangular n L ∧ pos_diag n L
       ∧ ∀ i j, (i < n)%nat → (j < n)%nat → dot (nth i L []) (nth j L []) = entry A i j.
Proof.
  revert A. induction n as [|n IH]; intros A HA.
  { exists []. unfold lower_triangular, pos_diag.
    split; [done|]. split; [by split|].
    split; [intros i j ? ?; lia|]. split; intros; lia. }
  destruct (square_S_inv n A (proj1 HA)) as (a & b & rest & -> & _ & _).
  destruct (spd_block n a b rest HA) as (Ha & Hb & Hblen & Hrest & HsymC).
  destruct (rows_hd_tl n n rest Hrest) as (_ & Hc0 & HC).
  destruct (IH _ (spd_schur n a b rest HA)) as (L' & HL' & Hshape' & Hlow' & Hdiag' & Hgram').
  rewrite potrf_S. destruct (Rlt_dec 0 a) as [_|]; [|done]. cbv zeta.
  rewrite HL'. cbn [rbind].
  set (l := sqrt a). set (c0 := hd 0 <$> rest) in *. set (C := tl <$> rest) in *.
  set (c := (λ x, x / l) <$> c0) in *.
  assert (Hc : length c = n) by (unfold c; by rewrite length_fmap).
  assert (Hl : 0 < l) by (by apply sqrt_lt_R0).
  assert (Hll : l * l = a) by (apply sqrt_sqrt; lra).
  assert (HlenL' : length L' = n) by (by destruct Hshape').
  set (L := (l :: replicate n 0) :: zip_with cons c L').
  assert (Hrow0 : nth 0 L [] = l :: replicate n 0) by done.
  assert (HrowS : ∀ i, (i < n)%nat → nth (S i) L [] = nth i c 0 :: nth i L' []).
  { intros i Hi. unfold L. cbn [nth]. apply nth_zip_with_cons; lia. }
  assert (Hci : ∀ i, (i < n)%nat → nth i c 0 * l = nth i c0 0).
  { intros i Hi. unfold c. rewrite nth_fmap_div by lia. field. lra. }
  exists L. split; [done|]. split; [|split; [|split]].
  - split; [cbn; rewrite length_zip_with; lia|].
    apply Forall_cons. split; [cbn; by rewrite length_replicate|].
    apply Forall_forall. intros row (x & r & -> & _ & Hr)%elem_of_zip_with.
    destruct Hshape' as [_ Hrows]. rewrite Forall_forall in Hrows.
    cbn. by rewrite (Hrows r).
  - intros i j Hij Hj. unfold entry. destruct i as [|i].
    + rewrite Hrow0. destruct j as [|j]; [lia|]. cbn [nth]. apply nth_zeros.
    + destruct j as [|j]; [lia|]. rewrite HrowS by lia. cbn [nth].
      apply (Hlow' i j); lia.
  - intros i Hi. unfold entry. destruct i as [|i].
    + by rewrite Hrow0.
    + rewrite HrowS by lia. cbn [nth]. apply (Hdiag' i); lia.
  - intros i j Hi Hj. destruct i as [|i], j as [|j].
    + rewrite Hrow0, dot_cons, dot_zeros_l. change (entry _ 0 0) with a. lra.
    + rewrite Hrow0, HrowS, dot_cons, dot_zeros_l by lia.
      change (entry ((a :: b) :: rest) 0 (S j)) with (nth j b 0).
      rewrite Hb. fold c0. rewrite <-Hci by lia. lra.
    + rewrite Hrow0, HrowS, dot_cons, dot_zeros_r by lia.
      rewrite entry_block_S0. fold c0. rewrite <-Hci by lia. lra.
    + rewrite !HrowS, dot_cons, Hgram' by lia.
      rewrite (entry_schur n), entry_block_SS by (done || lia). fold C l c. lra.
Qed.
End cholesky.

(** ** Transposes and products *)

Section products.
Import np.
Local Open Scope R_scope.

Lemma ncols_shape p q M : is_shape (S p) q M → ncols M = q.
Proof.
  intros [Hlen HM]. destruct M as [|row M]; [discriminate|].
  apply Forall_cons in HM as [Hrow _]. done.
Qed.

Lemma transpose_eq p q M :
  is_shape (S p) q M → transpose M = (λ j, col j M) <$> seq 0 q.
Proof. intros HM. unfold transpose. by rewrite (ncols_shape p q). Qed.

Lemma col_length j (M : matrix) : length (col j M) = length M.
Proof. unfold col. by rewrite length_fmap. Qed.

Lemma nth_col i j (M : matrix) : nth i (col j M) 0 = entry M i j.
Proof.
  unfold col, entry. destruct (decide (i < length M)%nat) as [Hi|Hi].
  - destruct (lookup_lt_is_Some_2 M i Hi) as [row Hrow].
    rewrite (nth_lookup_Some _ _ _ _ Hrow). apply nth_lookup_Some.
    by rewrite list_lookup_fmap, Hrow.
  - rewrite (nth_overflow M) by lia. rewrite nth_overflow by (rewrite length_fmap; lia).
    by destruct j.
Qed.

Lemma transpose_shape p q M : is_shape (S p) q M → is_shape q (S p) (transpose M).
Proof.
  intros HM. rewrite (transpose_eq p q) by done. split.
  - by rewrite length_fmap, length_seq.
  - apply Forall_fmap, Forall_forall. intros j _. cbn. rewrite col_length. by destruct HM.
Qed.

Lemma nth_transpose p q M j :
  is_shape (S p) q M → (j < q)%nat → nth j (transpose M) [] = col j M.
Proof.
  intros HM Hj. rewrite (transpose_eq p q) by done. apply nth_lookup_Some.
  rewrite list_lookup_fmap, lookup_seq_lt by done. done.
Qed.

Lemma entry_transpose p q M i j :
  is_shape (S p) q M → (i < q)%nat → entry (transpose M) i j = entry M j i.
Proof.
  intros HM Hi. unfold entry at 1. rewrite (nth_transpose p q) by done. apply nth_col.
Qed.

(** A column of the transpose is a row. *)
Lemma col_transpose p q M i :
  is_shape (S p) q M → (i < S p)%nat → col i (transpose M) = nth i M [].
Proof.
  intros HM Hi. apply (list_eq_nth 0).
  - rewrite col_length. destruct (transpose_shape p q M HM) as [-> _].
    by rewrite (is_shape_nth (S p) q).
  - intros j Hj. rewrite nth_col. rewrite col_length in Hj.
    destruct (transpose_shape p q M HM) as [Hlen _]. rewrite Hlen in Hj.
    by rewrite (entry_transpose p q).
Qed.

Lemma matmul_shape p q (A B : matrix) :
  length A = p → length (transpose B) = q → is_shape p q (matmul A B).
Proof.
  intros HA HB. unfold matmul. split; [by rewrite length_fmap|].
  apply Forall_fmap, Forall_forall. intros row _. cbn. by rewrite length_fmap.
Qed.

Lemma entry_matmul (A B : matrix) i j :
  (i < length A)%nat → (j < length (transpose B))%nat →
  entry (matmul A B) i j = dot (nth i A []) (nth j (transpose B) []).
Proof.
  intros Hi Hj. unfold matmul.
  destruct (lookup_lt_is_Some_2 A i Hi) as [row Hrow].
  destruct (lookup_lt_is_Some_2 _ j Hj) as [cl Hcl].
  rewrite (nth_lookup_Some _ _ _ _ Hrow), (nth_lookup_Some _ _ _ _ Hcl).
  apply (entry_lookup _ _ _ ((λ col, dot row col) <$> transpose B)).
  - by rewrite list_lookup_fmap, Hrow.
  - by rewrite list_lookup_fmap, Hcl.
Qed.

(** The entries of [L · Lᵀ] are the dot products of the rows of [L]. *)
Lemma matmul_transpose_shape n L :
  is_shape n n L → is_shape n n (matmul L (transpose L)).
Proof.
  intros HL. destruct n as [|n].
  - destruct HL as [HL _]. destruct L; [|discriminate]. by split.
  - apply matmul_shape; [by destruct HL|].
    destruct (transpose_shape n (S n) _ (transpose_shape n (S n) L HL)) as [-> _]. done.
Qed.

Lemma entry_matmul_transpose n (A L : matrix) i j :
  is_shape n n L → (i < length A)%nat → (j < n)%nat →
  entry (matmul A (transpose L)) i j = dot (nth i A []) (nth j L []).
Proof.
  intros HL Hi Hj. destruct n as [|n]; [lia|].
  pose proof (transpose_shape n (S n) L HL) as HLt.
  rewrite entry_matmul; [|done|].
  - by rewrite (nth_transpose n (S n)), (col_transpose n (S n)).
  - destruct (transpose_shape n (S n) _ HLt) as [-> _]. done.
Qed.

Lemma cholesky_spd n A :
  spd n A →
  ∃ L, cholesky A = Ok L ∧ is_shape n n L ∧ lower_triangular n L ∧ pos_diag n L
       ∧ matmul L (transpose L) = A.
Proof.
  intros HA. destruct (potrf_spd n A HA) as (L & HL & Hshape & Hlow & Hdiag & Hgram).
  exists L. destruct HA as ([Hlen Hrows] & _).
  split; [|split; [done|split; [done|split; [done|]]]].
  - unfold cholesky. rewrite Hlen, decide_True; done.
  - apply (matrix_ext n n); [by apply matmul_transpose_shape|by split|].
    intros i j Hi Hj. rewrite (entry_matmul_transpose n) by (done || destruct Hshape; lia).
    by apply Hgram.
Qed.
End products.

(** ** Indexed assignment *)

Section writes.
Import np.
Local Open Scope R_scope.

Lemma in_bounds_shape p q M ij :
  is_shape p q M → in_bounds M ij ↔ (ij.1 < p ∧ ij.2 < q)%nat.
Proof.
  intros HM. unfold in_bounds. split.
  - intros (row & Hrow & Hlen). pose proof (lookup_lt_Some _ _ _ Hrow) as Hi.
    destruct HM as [<- HM]. split; [done|]. rewrite Forall_forall in HM.
    rewrite <-(HM row); [done|]. eapply list_elem_of_lookup_2; eassumption.
  - intros [Hi Hj]. destruct (is_shape_lookup p q M _ HM Hi) as (row & Hrow & Hlen).
    exists row. split; [done|lia].
Qed.

Lemma set2_shape p q M i j x : is_shape p q M → is_shape p q (set2 M i j x).
Proof.
  intros [Hlen HM]. unfold set2. split; [by rewrite length_alter|].
  apply Forall_alter; [done|]. intros row _ Hrow. by rewrite length_insert.
Qed.

Lemma entry_set2 p q M i j x a b :
  is_shape p q M → (i < p)%nat → (j < q)%nat →
  entry (set2 M i j x) a b = if decide ((a, b) = (i, j)) then x else entry M a b.
Proof.
  intros HM Hi Hj. unfold entry, set2. rewrite !nth_lookup, list_lookup_alter.
  destruct (is_shape_lookup p q M i HM Hi) as (row & Hrow & Hlen).
  destruct (decide (i = a)) as [<-|Hne].
  - rewrite Hrow. cbn. rewrite list_lookup_insert.
    destruct (decide (j = b ∧ (j < length row)%nat)) as [[<- _]|Hnb].
    + by rewrite decide_True.
    + rewrite decide_False; [done|]. intros [= <-]. apply Hnb. split; [done|lia].
  - rewrite decide_False by congruence. done.
Qed.

Lemma writes_shape p q M ws : is_shape p q M → is_shape p q (writes M ws).
Proof.
  unfold writes. revert M. induction ws as [|w ws IH]; intros M HM; [done|].
  cbn. apply IH. by apply set2_shape.
Qed.

(** A sequence of in-range writes that stores at each position the value a
    function gives for it: an entry holds that value if its position was
    written, and is unchanged otherwise. *)
Lemma entry_writes_fn p q M ws (h : nat * nat → R) a b :
  is_shape p q M →
  Forall (λ w, (w.1.1 < p)%nat ∧ (w.1.2 < q)%nat ∧ w.2 = h w.1) ws →
  entry (writes M ws) a b = if decide ((a, b) ∈ ws.*1) then h (a, b) else entry M a b.
Proof.
  unfold writes. revert M. induction ws as [|[[i j] x] ws IH]; intros M HM Hws.
  { cbn. rewrite decide_False; [done|]. apply not_elem_of_nil. }
  apply Forall_cons in Hws as [(Hi & Hj & Hx) Hws]. cbn in Hi, Hj, Hx.
  cbn [foldl fmap list_fmap fst snd]. rewrite IH by (by try apply set2_shape).
  destruct (decide ((a, b) ∈ ws.*1)) as [Hin|Hnin].
  - rewrite decide_True; [done|]. by right.
  - rewrite (entry_set2 p q) by done.
    destruct (decide ((a, b) = (i, j))) as [[= -> ->]|Hne].
    + rewrite decide_True; [done|]. by left.
    + rewrite decide_False; [done|]. intros [?|?]%elem_of_cons; done.
Qed.

(** The same for arrays with three axes. *)
Lemma in_bounds3_shape m p q T kij :
  is_shape3 m p q T → in_bounds3 T kij ↔ (kij.1 < m ∧ kij.2.1 < p ∧ kij.2.2 < q)%nat.
Proof.
  intros [Hlen HT]. unfold in_bounds3. rewrite Forall_forall in HT. split.
  - intros (M & HM & Hb). pose proof (lookup_lt_Some _ _ _ HM) as Hk.
    rewrite (in_bounds_shape p q) in Hb by (eapply HT, list_elem_of_lookup_2; eassumption).
    split; [lia|done].
  - intros (Hk & Hij). destruct (lookup_lt_is_Some_2 T kij.1) as [M HM]; [lia|].
    exists M. split; [done|]. rewrite (in_bounds_shape p q); [done|].
    eapply HT, list_elem_of_lookup_2; eassumption.
Qed.

Lemma set3_shape m p q T k i j x : is_shape3 m p q T → is_shape3 m p q (set3 T k i j x).
Proof.
  intros [Hlen HT]. unfold set3. split; [by rewrite length_alter|].
  apply Forall_alter; [done|]. intros M _ HM. by apply set2_shape.
Qed.

Lemma entry3_set3 m p q T k i j x c a b :
  is_shape3 m p q T → (k < m)%nat → (i < p)%nat → (j < q)%nat →
  entry3 (set3 T k i j x) c a b
  = if decide ((c, (a, b)) = (k, (i, j))) then x else entry3 T c a b.
Proof.
  intros [Hlen HT] Hk Hi Hj. unfold entry3, set3. rewrite !nth_lookup, list_lookup_alter.
  destruct (lookup_lt_is_Some_2 T k) as [M HM]; [lia|].
  assert (is_shape p q M) as HMs.
  { rewrite Forall_forall in HT. eapply HT, list_elem_of_lookup_2; eassumption. }
  destruct (decide (k = c)) as [<-|Hne].
  - rewrite HM. cbn -[entry set2]. rewrite (entry_set2 p q) by done.
    destruct (decide ((a, b) = (i, j))) as [[= -> ->]|Hnab].
    + by rewrite decide_True.
    + rewrite decide_False by congruence. done.
  - rewrite decide_False by congruence. done.
Qed.

Lemma entry3_writes3_fn m p q T ws (h : nat * (nat * nat) → R) c a b :
  is_shape3 m p q T →
  Forall (λ w, (w.1.1 < m)%nat ∧ (w.1.2.1 < p)%nat ∧ (w.1.2.2 < q)%nat ∧ w.2 = h w.1) ws →
  entry3 (writes3 T ws) c a b
  = if decide ((c, (a, b)) ∈ ws.*1) then h (c, (a, b)) else entry3 T c a b.
Proof.
  unfold writes3. revert T. induction ws as [|[[k [i j]] x] ws IH]; intros T HT Hws.
  { cbn. rewrite decide_False; [done|]. apply not_elem_of_nil. }
  apply Forall_cons in Hws as [(Hk & Hi & Hj & Hx) Hws]. cbn in Hk, Hi, Hj, Hx.
  cbn [foldl fmap list_fmap fst snd]. rewrite IH by (by try apply set3_shape).
  destruct (decide ((c, (a, b)) ∈ ws.*1)) as [Hin|Hnin].
  - rewrite decide_True; [done|]. by right.
  - rewrite (entry3_set3 m p q) by done.
    destruct (decide ((c, (a, b)) = (k, (i, j)))) as [[= -> -> ->]|Hne].
    + rewrite decide_True; [done|]. by left.
    + rewrite decide_False; [done|]. intros [?|?]%elem_of_cons; done.
Qed.

Lemma writes3_shape m p q T ws : is_shape3 m p q T → is_shape3 m p q (writes3 T ws).
Proof.
  unfold writes3. revert T. induction ws as [|w ws IH]; intros T HT; [done|].
  cbn. apply IH. by apply set3_shape.
Qed.

Lemma zeros3_shape m p q : is_shape3 m p q (zeros3 m p q).
Proof.
  split; [apply length_replicate|]. apply Forall_replicate, zeros_shape.
Qed.

Lemma entry3_zeros3 m p q k i j : entry3 (zeros3 m p q) k i j = 0.
Proof.
  unfold entry3, zeros3. destruct (decide (k < m)%nat).
  - rewrite (nth_lookup_Some _ _ _ (zeros p q)) by (by apply lookup_replicate_2).
    apply entry_zeros.
  - rewrite nth_overflow by (rewrite length_replicate; lia). unfold entry. by destruct i, j.
Qed.

(** [fill_diagonal] *)
Lemma fill_diagonal_shape p q M x : is_shape p q M → is_shape p q (fill_diagonal M x).
Proof.
  intros [Hlen HM]. unfold fill_diagonal. split; [by rewrite length_imap|].
  apply Forall_forall. intros row (i & r & -> & Hr)%elem_of_lookup_imap.
  rewrite length_insert. rewrite Forall_forall in HM. eapply HM, list_elem_of_lookup_2; eassumption.
Qed.

Lemma entry_fill_diagonal p q M x a b :
  is_shape p q M → (a < p)%nat → (b < q)%nat →
  entry (fill_diagonal M x) a b = if decide (a = b) then x else entry M a b.
Proof.
  intros HM Ha Hb. unfold entry, fill_diagonal. rewrite !nth_lookup, list_lookup_imap.
  destruct (is_shape_lookup p q M a HM Ha) as (row & Hrow & Hlen).
  rewrite Hrow. cbn. rewrite list_lookup_insert.
  destruct (decide (a = b)) as [<-|Hne].
  - rewrite decide_True; [done|split; [done|lia]].
  - rewrite decide_False; [done|]. intros [? _]. done.
Qed.
End writes.

(** ** The index arrays of the kernel *)

Section indices.
Import np.
Local Open Scope R_scope.

Lemma elem_of_diag_indices n a b : (a, b) ∈ diag_indices n ↔ a = b ∧ (a < n)%nat.
Proof.
  unfold diag_indices. rewrite list_elem_of_fmap. split.
  - intros (i & [= -> ->] & Hi%elem_of_seq). split; [done|lia].
  - intros [<- Ha]. exists a. split; [done|]. apply elem_of_seq. lia.
Qed.

Lemma elem_of_tril_indices_below n a b :
  (a, b) ∈ tril_indices_below n ↔ (b < a ∧ a < n)%nat.
Proof.
  unfold tril_indices_below. rewrite list_elem_of_bind. split.
  - intros (i & (j & [= -> ->] & Hj%elem_of_seq)%list_elem_of_fmap & Hi%elem_of_seq). lia.
  - intros [Hb Ha]. exists a. split; [|apply elem_of_seq; lia].
    apply list_elem_of_fmap. exists b. split; [done|]. apply elem_of_seq. lia.
Qed.

Lemma length_diag_indices n : length (diag_indices n) = n.
Proof. unfold diag_indices. by rewrite length_fmap, length_seq. Qed.

Lemma tril_indices_below_S n :
  tril_indices_below (S n) = tril_indices_below n ++ ((λ j, (n, j)) <$> seq 0 n).
Proof.
  unfold tril_indices_below. rewrite seq_S, bind_app. cbn. by rewrite app_nil_r.
Qed.

Lemma length_tril_indices_below n :
  (length (tril_indices_below n) * 2 + n * 2 = n * (n + 1))%nat.
Proof.
  induction n as [|n IH]; [done|].
  rewrite tril_indices_below_S, length_app, length_fmap, length_seq. lia.
Qed.

Lemma ntheta_split n : (n * (n + 1) / 2 = n + length (tril_indices_below n))%nat.
Proof.
  pose proof (length_tril_indices_below n) as Hlen.
  replace (n * (n + 1))%nat with ((n + length (tril_indices_below n)) * 2)%nat by lia.
  apply Nat.div_mul. done.
Qed.

Lemma NoDup_diag_indices n : NoDup (diag_indices n).
Proof.
  unfold diag_indices. apply NoDup_fmap_2; [|apply NoDup_seq]. intros i j [= ->]. done.
Qed.

Lemma NoDup_tril_indices_below n : NoDup (tril_indices_below n).
Proof.
  unfold tril_indices_below. apply NoDup_bind; [| |apply NoDup_seq].
  - intros i1 i2 [a b] _ _ (j1 & [= -> ->] & _)%list_elem_of_fmap
      (j2 & [= -> ->] & _)%list_elem_of_fmap. done.
  - intros i _. apply NoDup_fmap_2; [|apply NoDup_seq]. intros j1 j2 [= ->]. done.
Qed.

Lemma lookup_diag_indices n i : (i < n)%nat → diag_indices n !! i = Some (i, i).
Proof.
  intros Hi. unfold diag_indices. rewrite list_lookup_fmap, lookup_seq_lt by done. done.
Qed.

(** Reading and writing at index arrays that are in range. *)
Lemma getitem2_ok p q M idx :
  is_shape p q M → Forall (λ ij, (ij.1 < p ∧ ij.2 < q)%nat) idx →
  getitem2 M idx = Ok ((λ ij, entry M ij.1 ij.2) <$> idx).
Proof.
  intros HM Hidx. unfold getitem2. rewrite decide_True; [done|].
  eapply Forall_impl; [exact Hidx|]. intros ij Hij. by apply (in_bounds_shape p q).
Qed.

Lemma setitem2_ok p q M idx vals :
  is_shape p q M → Forall (λ ij, (ij.1 < p ∧ ij.2 < q)%nat) idx →
  length vals = length idx →
  setitem2 M idx vals = Ok (writes M (zip idx vals)).
Proof.
  intros HM Hidx Hlen. unfold setitem2, broadcast_to. rewrite decide_True.
  - by rewrite decide_True.
  - eapply Forall_impl; [exact Hidx|]. intros ij Hij. by apply (in_bounds_shape p q).
Qed.

Lemma diag_indices_in_range n : Forall (λ ij, (ij.1 < n ∧ ij.2 < n)%nat) (diag_indices n).
Proof.
  apply Forall_forall. intros [a b] [-> Hb]%elem_of_diag_indices. done.
Qed.

Lemma tril_indices_below_in_range n :
  Forall (λ ij, (ij.1 < n ∧ ij.2 < n)%nat) (tril_indices_below n).
Proof.
  apply Forall_forall. intros [a b] [Ha Hb]%elem_of_tril_indices_below. cbn. lia.
Qed.

(** Writes at distinct positions: each position holds its own value. *)
Lemma entry_writes_notin p q M ws a b :
  is_shape p q M → Forall (λ w, (w.1.1 < p)%nat ∧ (w.1.2 < q)%nat) ws →
  (a, b) ∉ ws.*1 → entry (writes M ws) a b = entry M a b.
Proof.
  unfold writes. revert M. induction ws as [|[[i j] x] ws IH]; intros M HM Hws Hnin; [done|].
  apply Forall_cons in Hws as [[Hi Hj] Hws]. cbn in Hi, Hj.
  cbn [fmap list_fmap fst] in Hnin. apply not_elem_of_cons in Hnin as [Hne Hnin].
  cbn [foldl fst snd]. rewrite IH by (by try apply set2_shape).
  rewrite (entry_set2 p q) by done. by rewrite decide_False.
Qed.

Lemma zip_in_range {A} (P : nat * nat → Prop) idx (vals : list A) :
  Forall P idx → Forall (λ w, P w.1) (zip idx vals).
Proof.
  intros Hidx. apply Forall_forall. intros [ij x] Hin%elem_of_zip_l.
  rewrite Forall_forall in Hidx. by apply Hidx.
Qed.

Lemma zip_fst_elem_of {A B} (idx : list A) (vals : list B) ij :
  ij ∈ (zip idx vals).*1 → ij ∈ idx.
Proof.
  intros ([ij' x] & -> & Hin)%list_elem_of_fmap. by apply elem_of_zip_l in Hin.
Qed.

Lemma entry_writes_zip p q M idx vals m a b x :
  is_shape p q M → Forall (λ ij, (ij.1 < p ∧ ij.2 < q)%nat) idx → NoDup idx →
  idx !! m = Some (a, b) → vals !! m = Some x →
  entry (writes M (zip idx vals)) a b = x.
Proof.
  unfold writes. revert M vals m.
  induction idx as [|[i j] idx IH]; intros M vals m HM Hidx Hnd Ha Hx; [done|].
  destruct vals as [|y vals]; [done|].
  apply Forall_cons in Hidx as [[Hi Hj] Hidx]. apply NoDup_cons in Hnd as [Hnin Hnd].
  cbn in Hi, Hj. cbn [zip zip_with foldl fst snd].
  destruct m as [|m]; cbn in Ha, Hx.
  - injection Ha as -> ->. injection Hx as ->.
    fold (writes (set2 M a b x) (zip idx vals)).
    rewrite (entry_writes_notin p q).
    + rewrite (entry_set2 p q) by done. by rewrite decide_True.
    + by apply set2_shape.
    + by apply (zip_in_range (λ ij, (ij.1 < p)%nat ∧ (ij.2 < q)%nat)).
    + intros Hin%zip_fst_elem_of. done.
  - apply (IH _ _ m); try done. by apply set2_shape.
Qed.

(** Gathering the values of a matrix at some positions and writing them
    back at the same positions of another: the entries gathered are those
    of the first matrix, the others are unchanged. *)
Lemma entry_writes_gather p q M L idx a b :
  is_shape p q M → Forall (λ ij, (ij.1 < p ∧ ij.2 < q)%nat) idx →
  entry (writes M (zip idx ((λ ij, entry L ij.1 ij.2) <$> idx))) a b
  = if decide ((a, b) ∈ idx) then entry L a b else entry M a b.
Proof.
  intros HM Hidx.
  assert (Hzip : zip idx ((λ ij, entry L ij.1 ij.2) <$> idx)
                 = (λ ij, (ij, entry L ij.1 ij.2)) <$> idx).
  { clear. induction idx as [|ij idx IH]; [done|]. cbn. by rewrite <-IH. }
  assert (Hfst : ((λ ij, (ij, entry L ij.1 ij.2)) <$> idx).*1 = idx).
  { clear. induction idx as [|ij idx IH]; [done|]. cbn. by rewrite IH. }
  rewrite Hzip, (entry_writes_fn p q M _ (λ ij, entry L ij.1 ij.2) a b HM).
  - by rewrite Hfst.
  - apply Forall_fmap. eapply Forall_impl; [exact Hidx|]. cbn. intros ij [? ?]. done.
Qed.
End indices.

(** ** The parameters of [AnisotropicRBF] *)

Section theta.
Import np.
Local Open Scope R_scope.

Lemma nth_app_l {A} (d : A) (l k : list A) i :
  (i < length l)%nat → nth i (l ++ k) d = nth i l d.
Proof. intros Hi. rewrite !nth_lookup, lookup_app_l by done. done. Qed.

Lemma nth_app_r {A} (d : A) (l k : list A) i :
  nth (length l + i) (l ++ k) d = nth i k d.
Proof.
  rewrite !nth_lookup, lookup_app_r by lia. by replace (length l + i - length l)%nat with i by lia.
Qed.

(** Setting [theta] on a kernel for [n] covariates, with a vector of
    [n (n + 1) / 2] parameters. *)
Lemma theta_set_ok n k theta :
  kernel_shape n k → length theta = (n * (n + 1) / 2)%nat →
  ∃ k', AnisotropicRBF.theta_set k theta = Ok k'
        ∧ AnisotropicRBF.theta k' = theta
        ∧ kernel_wf n k'
        ∧ (∀ i, (i < n)%nat →
             entry k'.(AnisotropicRBF._L) i i = exp (nth i theta 0))
        ∧ (∀ m a b, tril_indices_below n !! m = Some (a, b) →
             entry k'.(AnisotropicRBF._L) a b = nth (n + m) theta 0).
Proof.
  intros (Hndim & Hntheta & Hd & Ht & HinvLam & HL) Hlen.
  rewrite ntheta_split in Hlen.
  unfold AnisotropicRBF.theta_set. rewrite Hndim, (zeros_like_shape n n) by done.
  rewrite (setitem2_ok n n); [|apply zeros_shape|apply diag_indices_in_range|].
  2: { rewrite length_fmap, length_take, length_diag_indices. lia. }
  cbn [rbind].
  set (L1 := writes (zeros n n) (zip (diag_indices n) (exp <$> take n theta))).
  assert (HL1 : is_shape n n L1) by apply writes_shape, zeros_shape.
  rewrite (setitem2_ok n n); [|done|apply tril_indices_below_in_range|].
  2: { rewrite length_drop. lia. }
  cbn [rbind].
  set (L2 := writes L1 (zip (tril_indices_below n) (drop n theta))).
  assert (HL2 : is_shape n n L2) by (by apply writes_shape).
  assert (Hdiag : ∀ i, (i < n)%nat → entry L2 i i = exp (nth i theta 0)).
  { intros i Hi. unfold L2. rewrite (entry_writes_notin n n); [|done| |].
    - unfold L1. apply (entry_writes_zip n n _ _ _ i);
        [apply zeros_shape|apply diag_indices_in_range|apply NoDup_diag_indices| |].
      + by apply lookup_diag_indices.
      + rewrite list_lookup_fmap, lookup_take_lt by done.
        destruct (lookup_lt_is_Some_2 theta i) as [x Hx]; [lia|].
        by rewrite Hx, (nth_lookup_Some _ _ _ _ Hx).
    - apply (zip_in_range (λ ij, (ij.1 < n)%nat ∧ (ij.2 < n)%nat)),
        tril_indices_below_in_range.
    - intros Hin%zip_fst_elem_of%elem_of_tril_indices_below. lia. }
  assert (Hbelow : ∀ m a b, tril_indices_below n !! m = Some (a, b) →
                     entry L2 a b = nth (n + m) theta 0).
  { intros m a b Hm. unfold L2.
    apply (entry_writes_zip n n _ _ _ m);
      [done|apply tril_indices_below_in_range|apply NoDup_tril_indices_below|done|].
    rewrite lookup_drop. pose proof (lookup_lt_Some _ _ _ Hm) as Hlt.
    destruct (lookup_lt_is_Some_2 theta (n + m)) as [x Hx]; [lia|].
    by rewrite Hx, (nth_lookup_Some _ _ _ _ Hx). }
  eexists. split; [reflexivity|]. split; [reflexivity|]. cbn.
  split; [|split; [exact Hdiag|exact Hbelow]].
  split; [|split; [|split; [|reflexivity]]]; cbn.
  - unfold kernel_shape; cbn.
    split; [done|]. split; [done|]. split; [done|]. split; [done|].
    split; [by apply matmul_transpose_shape|done].
  - intros a b Hab Hb. unfold L2. rewrite (entry_writes_notin n n); [|done| |].
    + unfold L1. rewrite (entry_writes_notin n n); [apply entry_zeros|apply zeros_shape| |].
      * apply (zip_in_range (λ ij, (ij.1 < n)%nat ∧ (ij.2 < n)%nat)), diag_indices_in_range.
      * intros Hin%zip_fst_elem_of%elem_of_diag_indices. lia.
    + apply (zip_in_range (λ ij, (ij.1 < n)%nat ∧ (ij.2 < n)%nat)),
        tril_indices_below_in_range.
    + intros Hin%zip_fst_elem_of%elem_of_tril_indices_below. lia.
  - intros i Hi. rewrite Hdiag by done. apply exp_pos.
Qed.

Lemma set_params_ok n k0 invLam :
  k0.(AnisotropicRBF.ndim) = n →
  k0.(AnisotropicRBF.ntheta) = (n * (n + 1) / 2)%nat →
  k0.(AnisotropicRBF._d) = diag_indices n →
  k0.(AnisotropicRBF._t) = tril_indices_below n →
  spd n invLam →
  ∃ k, AnisotropicRBF.set_params k0 (Some invLam) = Ok k
       ∧ kernel_wf n k
       ∧ k.(AnisotropicRBF.invLam) = invLam
       ∧ AnisotropicRBF.theta k = theta_of_factor n k.(AnisotropicRBF._L).
Proof.
  intros Hndim Hntheta Hd Ht Hspd.
  destruct (cholesky_spd n invLam Hspd) as (L & HL & Hshape & Hlow & Hdiag & Hprod).
  unfold AnisotropicRBF.set_params. rewrite HL. cbn [rbind].
  rewrite Hd, Ht.
  rewrite !(getitem2_ok n n) by
    (done || apply diag_indices_in_range || apply tril_indices_below_in_range).
  cbn [rbind]. eexists. split; [reflexivity|].
  split; [|split; reflexivity].
  split; [|split; [|split]]; cbn; try done.
  unfold kernel_shape; cbn. destruct Hspd as (HinvLam & _). done.
Qed.

Lemma init_ok n invLam :
  spd n invLam →
  ∃ k, AnisotropicRBF.__init__ invLam = Ok k
       ∧ kernel_wf n k
       ∧ k.(AnisotropicRBF.invLam) = invLam
       ∧ AnisotropicRBF.theta k = theta_of_factor n k.(AnisotropicRBF._L).
Proof.
  intros Hspd. unfold AnisotropicRBF.__init__.
  assert (length invLam = n) as -> by (by destruct Hspd as ([? _] & _)).
  by apply set_params_ok.
Qed.

Lemma nth_theta_of_factor_diag n L i :
  (i < n)%nat → nth i (theta_of_factor n L) 0 = ln (entry L i i).
Proof.
  intros Hi. unfold theta_of_factor.
  rewrite nth_app_l by (by rewrite !length_fmap, length_diag_indices).
  apply nth_lookup_Some. by rewrite !list_lookup_fmap, lookup_diag_indices.
Qed.

Lemma nth_theta_of_factor_below n L m a b :
  tril_indices_below n !! m = Some (a, b) →
  nth (n + m) (theta_of_factor n L) 0 = entry L a b.
Proof.
  intros Hm. unfold theta_of_factor.
  rewrite <-(length_diag_indices n) at 1.
  rewrite <-(length_fmap (λ ij, entry L ij.1 ij.2)), <-(length_fmap ln), nth_app_r.
  apply nth_lookup_Some. by rewrite list_lookup_fmap, Hm.
Qed.

Lemma length_theta_of_factor n L : length (theta_of_factor n L) = (n * (n + 1) / 2)%nat.
Proof.
  unfold theta_of_factor.
  by rewrite length_app, !length_fmap, length_diag_indices, ntheta_split.
Qed.

(** From a kernel in its invariant, setting the [theta] read from it
    rebuilds the factor and the matrix. *)
Lemma theta_set_theta_of_factor n k :
  kernel_wf n k →
  ∃ k', AnisotropicRBF.theta_set k (theta_of_factor n k.(AnisotropicRBF._L)) = Ok k'
        ∧ k'.(AnisotropicRBF._L) = k.(AnisotropicRBF._L)
        ∧ k'.(AnisotropicRBF.invLam) = k.(AnisotropicRBF.invLam).
Proof.
  intros (Hshape & Hlow & Hdiag & Hprod).
  destruct (theta_set_ok n k _ Hshape (length_theta_of_factor n k.(AnisotropicRBF._L)))
    as (k' & Hk' & _ & (Hshape' & Hlow' & _ & Hprod') & Hd' & Hb').
  exists k'. split; [done|].
  assert (HL : k'.(AnisotropicRBF._L) = k.(AnisotropicRBF._L)).
  { apply (matrix_ext n n).
    - by destruct Hshape' as (_ & _ & _ & _ & _ & ?).
    - by destruct Hshape as (_ & _ & _ & _ & _ & ?).
    - intros a b Ha Hb. destruct (lt_eq_lt_dec a b) as [[Hab| <-]|Hab].
      + by rewrite Hlow', Hlow.
      + rewrite Hd', nth_theta_of_factor_diag by done. apply exp_ln. by apply Hdiag.
      + assert ((a, b) ∈ tril_indices_below n) as [m Hm]%list_elem_of_lookup
          by (by apply elem_of_tril_indices_below).
        by rewrite (Hb' m), (nth_theta_of_factor_below n _ m a b). }
  split; [done|]. by rewrite <-Hprod', HL.
Qed.


End theta.

(** ** The self-covariance matrix *)

Section self_covariance.
Import np scipy.
Local Open Scope R_scope.

Lemma elem_of_pairs_above d i j : (i, j) ∈ pairs_above d ↔ (i < j ∧ j < d)%nat.
Proof.
  unfold pairs_above. rewrite list_elem_of_bind. split.
  - intros (i' & (j' & [= -> ->] & Hj%elem_of_seq)%list_elem_of_fmap & Hi%elem_of_seq). lia.
  - intros [Hi Hj]. exists i. split; [|apply elem_of_seq; lia].
    apply list_elem_of_fmap. exists j. split; [done|]. apply elem_of_seq. lia.
Qed.

Lemma length_pairs_from k m :
  (length (seq k m ≫= λ i, (λ j, (i, j)) <$> seq (S i) (k + m - S i)) * 2
   = m * (m - 1))%nat.
Proof.
  revert k. induction m as [|m IH]; intros k; [done|].
  cbn [seq]. rewrite bind_cons, length_app, length_fmap, length_seq.
  specialize (IH (S k)).
  replace (S k + m)%nat with (k + S m)%nat in IH by lia. nia.
Qed.

Lemma length_pairs_above d : (length (pairs_above d) * 2 = d * (d - 1))%nat.
Proof. apply (length_pairs_from 0 d). Qed.

Lemma ceil_sqrt_pronic d : (2 ≤ d)%nat → ceil_sqrt (d * (d - 1)) = d.
Proof.
  intros Hd. unfold ceil_sqrt.
  assert (Nat.sqrt (d * (d - 1)) = d - 1)%nat as ->.
  { apply Nat.sqrt_unique. nia. }
  rewrite decide_False by nia. lia.
Qed.

Lemma pdist_of_matrix X VI :
  X ≠ [] →
  pdist (atleast_2d (of_matrix X)) VI
  = Ok ((λ ij, mahalanobis VI (nth ij.1 X []) (nth ij.2 X [])) <$> pairs_above (length X)).
Proof.
  intros HX. unfold pdist. rewrite atleast_2d_of_matrix, as_matrix_of_matrix by done. done.
Qed.

(** The writes of [squareform] on the condensed vector of a function of
    the pair. *)
Lemma squareform_pairs d (g : nat * nat → R) :
  (2 ≤ d)%nat →
  squareform (g <$> pairs_above d)
  = Ok (writes (zeros d d)
          (pairs_above d ≫= λ ij, [(ij, g ij); ((ij.2, ij.1), g ij)])).
Proof.
  intros Hd. unfold squareform. cbv zeta. rewrite length_fmap.
  pose proof (length_pairs_above d) as Hlen.
  rewrite decide_False by nia. rewrite Hlen, ceil_sqrt_pronic by done.
  rewrite decide_True by done. do 2 f_equal.
  generalize (pairs_above d). intros l. induction l as [|ij l IH]; [done|].
  cbn. by rewrite <-IH.
Qed.

Lemma squareform_nil : squareform [] = Ok (zeros 1 1).
Proof. reflexivity. Qed.

Lemma entry_squareform_writes d (g : nat * nat → R) a b :
  (a < d)%nat → (b < d)%nat →
  entry (writes (zeros d d)
           (pairs_above d ≫= λ ij, [(ij, g ij); ((ij.2, ij.1), g ij)])) a b
  = if decide (a = b) then 0 else g (a `min` b, a `max` b)%nat.
Proof.
  intros Ha Hb.
  rewrite (entry_writes_fn d d _ _ (λ ij, g (ij.1 `min` ij.2, ij.1 `max` ij.2)%nat));
    [|apply zeros_shape|].
  - destruct (decide (a = b)) as [<-|Hne].
    + rewrite decide_False; [apply entry_zeros|].
      intros ([[a1 a2] x] & Heq & ([i j] & Hw & Hij%elem_of_pairs_above)%list_elem_of_bind)
        %list_elem_of_fmap.
      cbn in Heq, Hw. injection Heq as <- <-.
      apply elem_of_cons in Hw as [[= -> -> _]|Hw]; [lia|].
      apply list_elem_of_singleton in Hw as [= Hw1 Hw2 _]. lia.
    + rewrite decide_True; [done|]. apply list_elem_of_fmap.
      exists ((a, b), g (a `min` b, a `max` b)%nat). split; [done|].
      apply list_elem_of_bind. exists (a `min` b, a `max` b)%nat. split.
      * cbn. destruct (decide (a < b)%nat).
        -- rewrite Nat.min_l, Nat.max_r by lia. left.
        -- rewrite Nat.min_r, Nat.max_l by lia. right. left.
      * apply elem_of_pairs_above. lia.
  - apply Forall_forall.
    intros [[i j] x] ([i' j'] & Hw & Hij%elem_of_pairs_above)%list_elem_of_bind.
    cbn in Hw. apply elem_of_cons in Hw as [[= -> -> ->]|Hw].
    + cbn. rewrite Nat.min_l, Nat.max_r by lia. repeat split; lia || done.
    + apply list_elem_of_singleton in Hw as [= -> -> ->]. cbn.
      rewrite Nat.min_r, Nat.max_l by lia. repeat split; lia || done.
Qed.

Lemma self_covariance_shape VI X : is_shape (length X) (length X) (self_covariance VI X).
Proof.
  unfold self_covariance. split; [by rewrite length_imap|].
  apply Forall_forall. intros row (i & xi & -> & _)%elem_of_lookup_imap.
  by rewrite length_imap.
Qed.

Lemma entry_self_covariance VI X a b :
  (a < length X)%nat → (b < length X)%nat →
  entry (self_covariance VI X) a b
  = if decide (a = b) then 1
    else exp (- 0.5 * mahalanobis VI (nth a X []) (nth b X []) ^ 2).
Proof.
  intros Ha Hb.
  destruct (lookup_lt_is_Some_2 X a Ha) as [xa Hxa].
  destruct (lookup_lt_is_Some_2 X b Hb) as [xb Hxb].
  rewrite (nth_lookup_Some _ _ _ _ Hxa), (nth_lookup_Some _ _ _ _ Hxb).
  unfold self_covariance. eapply entry_lookup.
  - rewrite list_lookup_imap, Hxa. reflexivity.
  - rewrite list_lookup_imap, Hxb. reflexivity.
Qed.

(** The matrix [__call__] computes when [Y] is omitted is the
    self-covariance matrix. *)
Lemma self_covariance_computed VI X :
  X ≠ [] →
  (dists <- pdist (atleast_2d (of_matrix X)) VI ;;
   K <- squareform (AnisotropicRBF.rbf <$> dists) ;;
   Ok (fill_diagonal K 1))
  = Ok (self_covariance VI X).
Proof.
  intros HX. rewrite pdist_of_matrix by done. cbn [rbind].
  rewrite <-list_fmap_compose.
  set (g := AnisotropicRBF.rbf ∘ (λ ij, mahalanobis VI (nth ij.1 X []) (nth ij.2 X []))).
  destruct (decide (length X = 1%nat)) as [H1|H1].
  { destruct X as [|x [|]]; try discriminate. cbn. by rewrite decide_True. }
  assert (2 ≤ length X)%nat as Hd by (destruct X; [done|cbn in *; lia]).
  rewrite squareform_pairs by done. cbn [rbind]. f_equal.
  apply (matrix_ext (length X) (length X)).
  - apply fill_diagonal_shape, writes_shape, zeros_shape.
  - apply self_covariance_shape.
  - intros a b Ha Hb.
    rewrite (entry_fill_diagonal (length X) (length X)) by
      (done || apply writes_shape, zeros_shape).
    rewrite entry_self_covariance, entry_squareform_writes by done.
    destruct (decide (a = b)) as [|Hne]; [done|].
    unfold g, AnisotropicRBF.rbf. cbn.
    destruct (decide (a < b)%nat).
    + by rewrite Nat.min_l, Nat.max_r by lia.
    + rewrite Nat.min_r, Nat.max_l by lia. by rewrite mahalanobis_sym.
Qed.

Lemma AnisotropicRBF_call_self k X :
  X ≠ [] →
  AnisotropicRBF.__call__ k (of_matrix X) None false
  = Ok (KernelOnly (of_matrix (self_covariance k.(AnisotropicRBF.invLam) X))).
Proof.
  intros HX. unfold AnisotropicRBF.__call__.
  rewrite self_covariance_computed by done. done.
Qed.

(** C1: for a symmetric positive-definite [invLam] and a matrix [X] of
    [p >= 1] rows of [n] covariates, the kernel constructed on [invLam] and
    called with [Y] omitted returns a [p] by [p] matrix [K] that is
    symmetric, has ones on its diagonal, and whose other entries are
    [exp(-0.5 * mahalanobis(X[i], X[j])^2)] under the metric [invLam]. *)
Theorem AnisotropicRBF_self_covariance n p (invLam X : matrix) :
  spd n invLam → is_shape p n X → (0 < p)%nat →
  ∃ k K,
    AnisotropicRBF.__init__ invLam = Ok k
    ∧ AnisotropicRBF.__call__ k (of_matrix X) None false = Ok (KernelOnly (of_matrix K))
    ∧ is_shape p p K
    ∧ (∀ i j, (i < p)%nat → (j < p)%nat → entry K i j = entry K j i)
    ∧ (∀ i, (i < p)%nat → entry K i i = 1)
    ∧ (∀ i j, (i < p)%nat → (j < p)%nat → i ≠ j →
         entry K i j = exp (- 0.5 * mahalanobis invLam (nth i X []) (nth j X []) ^ 2)).
Proof.
  intros Hspd [Hlen HX] Hp.
  destruct (init_ok n invLam Hspd) as (k & Hk & _ & HinvLam & _).
  exists k, (self_covariance invLam X).
  split; [done|]. split.
  { rewrite <-HinvLam. apply AnisotropicRBF_call_self. destruct X; [cbn in *; lia|done]. }
  subst p. split; [apply self_covariance_shape|]. split; [|split].
  - intros i j Hi Hj. rewrite !entry_self_covariance by done.
    destruct (decide (i = j)) as [->|Hne].
    + by rewrite decide_True.
    + rewrite decide_False by done. by rewrite mahalanobis_sym.
  - intros i Hi. rewrite entry_self_covariance by done. by rewrite decide_True.
  - intros i j Hi Hj Hne. rewrite entry_self_covariance by done. by rewrite decide_False.
Qed.
End self_covariance.

(** ** The gradient of the self-covariance matrix *)

Section gradient.
Import np scipy.
Local Open Scope R_scope.

Lemma single_entry_shape n r c x : is_shape n n (single_entry n r c x).
Proof.
  unfold single_entry. split; [by rewrite length_fmap, length_seq|].
  apply Forall_fmap, Forall_forall. intros i _. cbn. by rewrite length_fmap, length_seq.
Qed.

Lemma entry_single_entry n r c x a b :
  (a < n)%nat → (b < n)%nat →
  entry (single_entry n r c x) a b = if decide (a = r ∧ b = c) then x else 0.
Proof.
  intros Ha Hb. unfold single_entry. eapply entry_lookup.
  - rewrite list_lookup_fmap, lookup_seq_lt by done. reflexivity.
  - rewrite list_lookup_fmap, lookup_seq_lt by done. reflexivity.
Qed.

Lemma dL_dtheta_shape n L k : is_shape n n (dL_dtheta n L k).
Proof.
  unfold dL_dtheta. destruct (decide (k < n)%nat); [apply single_entry_shape|].
  destruct (tril_indices_below n !! (k - n)%nat) as [[r c]|];
    [apply single_entry_shape|apply zeros_shape].
Qed.

(** Indexed assignment into an array with three axes. *)
Lemma setitem3_ok m p q T ks ijs vals :
  is_shape3 m p q T → length ks = length ijs →
  Forall (λ kij, (kij.1 < m ∧ kij.2.1 < p ∧ kij.2.2 < q)%nat) (zip ks ijs) →
  length vals = length ks →
  setitem3 T ks ijs vals = Ok (writes3 T (zip (zip ks ijs) vals)).
Proof.
  intros HT Hlen Hidx Hvals. unfold setitem3, broadcast_index.
  rewrite decide_True by done. cbn [rbind]. rewrite decide_True.
  - unfold broadcast_to. rewrite decide_True; [done|].
    rewrite length_zip_with. lia.
  - eapply Forall_impl; [exact Hidx|]. intros kij Hkij. by apply (in_bounds3_shape m p q).
Qed.

Lemma setitem3_scalar_ok m p q T ks ijs x :
  is_shape3 m p q T → length ks = length ijs →
  Forall (λ kij, (kij.1 < m ∧ kij.2.1 < p ∧ kij.2.2 < q)%nat) (zip ks ijs) →
  setitem3 T ks ijs [x] = Ok (writes3 T (zip (zip ks ijs) (replicate (length ks) x))).
Proof.
  intros HT Hlen Hidx. unfold setitem3, broadcast_index.
  rewrite decide_True by done. cbn [rbind]. rewrite decide_True.
  - unfold broadcast_to. rewrite length_zip_with, <-Hlen, Nat.min_id.
    destruct (decide (length [x] = length ks)) as [Heq|Hne]; [|done].
    cbn in Heq. by rewrite <-Heq.
  - eapply Forall_impl; [exact Hidx|]. intros kij Hkij. by apply (in_bounds3_shape m p q).
Qed.

Lemma elem_of_zip_seq {A} (l : list A) k t x :
  (t, x) ∈ zip (seq k (length l)) l ↔ (k ≤ t)%nat ∧ l !! (t - k)%nat = Some x.
Proof.
  rewrite list_elem_of_lookup. split.
  - intros [i Hi]. apply lookup_zip_with_Some in Hi as (t' & x' & [= <- <-] & Ht & Hx).
    apply lookup_seq in Ht as [-> Hi]. split; [lia|].
    by replace (k + i - k)%nat with i by lia.
  - intros [Hk Hx]. exists (t - k)%nat. apply lookup_zip_with_Some.
    exists t, x. split; [done|]. split; [|done].
    apply lookup_seq. split; [lia|]. by apply lookup_lt_Some in Hx.
Qed.

Lemma zip_fmap_same {A B C} (f : A → B) (g : A → C) (l : list A) :
  zip (f <$> l) (g <$> l) = (λ x, (f x, g x)) <$> l.
Proof. induction l as [|x l IH]; [done|]. cbn. by rewrite <-IH. Qed.

Lemma L_grad_computed_shape n L :
  is_shape3 (n + length (tril_indices_below n)) n n (L_grad_computed n L).
Proof. unfold L_grad_computed. cbv zeta. apply writes3_shape, writes3_shape, zeros3_shape. Qed.

Lemma entry3_L_grad_computed n L t a b :
  (t < n + length (tril_indices_below n))%nat → (a < n)%nat → (b < n)%nat →
  entry3 (L_grad_computed n L) t a b = entry (dL_dtheta n L t) a b.
Proof.
  intros Ht Ha Hb. unfold L_grad_computed. cbv zeta.
  set (len := length (tril_indices_below n)) in *.
  set (W1 := zip (zip (seq 0 n) (diag_indices n)) _).
  set (W2 := zip (zip (seq n len) (tril_indices_below n)) _).
  assert (HW1 : W1 = (λ i, ((i, (i, i)), entry L i i)) <$> seq 0 n).
  { unfold W1, diag_indices. generalize (seq 0 n). intros l.
    induction l as [|i l IH]; [done|]. cbn. by rewrite <-IH. }
  assert (HW2fst : W2.*1 = zip (seq n len) (tril_indices_below n)).
  { unfold W2. apply fst_zip. rewrite length_replicate, length_zip_with. lia. }
  rewrite (entry3_writes3_fn (n + len) n n _ W2 (λ _, 1));
    [|apply writes3_shape, zeros3_shape|].
  2: { apply Forall_forall. intros [[t' [a' b']] x] Hw. unfold W2 in Hw.
       pose proof (elem_of_zip_l _ _ _ _ Hw) as [Hn Hm]%elem_of_zip_seq.
       pose proof (elem_of_zip_r _ _ _ _ Hw) as [-> _]%elem_of_replicate.
       pose proof (lookup_lt_Some _ _ _ Hm) as Hlt.
       apply list_elem_of_lookup_2, elem_of_tril_indices_below in Hm.
       cbn. fold len in Hlt. repeat split; lia || done. }
  rewrite (entry3_writes3_fn (n + len) n n _ W1 (λ kij, entry L kij.2.1 kij.2.2));
    [|apply zeros3_shape|].
  2: { rewrite HW1. apply Forall_fmap, Forall_forall. intros i Hi%elem_of_seq.
       cbn. repeat split; lia || done. }
  rewrite entry3_zeros3, HW2fst, HW1, <-list_fmap_compose.
  unfold dL_dtheta. destruct (decide (t < n)%nat) as [Htn|Htn].
  - rewrite decide_False.
    2: { intros [Hn _]%elem_of_zip_seq. lia. }
    rewrite entry_single_entry by done.
    destruct (decide (a = t ∧ b = t)) as [[-> ->]|Hne].
    + rewrite decide_True; [done|]. apply list_elem_of_fmap. exists t.
      split; [done|]. apply elem_of_seq. lia.
    + rewrite decide_False; [done|].
      intros (i & [= -> -> ->] & _)%list_elem_of_fmap. by apply Hne.
  - destruct (lookup_lt_is_Some_2 (tril_indices_below n) (t - n)) as [[r c] Hrc];
      [fold len; lia|].
    rewrite Hrc, entry_single_entry by done.
    destruct (decide (a = r ∧ b = c)) as [[-> ->]|Hne].
    + rewrite decide_True; [done|]. apply elem_of_zip_seq. split; [lia|done].
    + rewrite decide_False.
      2: { intros [_ Hab]%elem_of_zip_seq. rewrite Hrc in Hab.
           injection Hab as <- <-. by apply Hne. }
      rewrite decide_False; [done|].
      intros (i & [= -> -> ->] & Hi%elem_of_seq)%list_elem_of_fmap. lia.
Qed.

Lemma nth_L_grad_computed n L t :
  (t < n + length (tril_indices_below n))%nat →
  nth t (L_grad_computed n L) [] = dL_dtheta n L t.
Proof.
  intros Ht. apply (matrix_ext n n).
  - destruct (L_grad_computed_shape n L) as [Hlen HT]. rewrite Forall_forall in HT.
    destruct (lookup_lt_is_Some_2 (L_grad_computed n L) t) as [M HM]; [lia|].
    rewrite (nth_lookup_Some _ _ _ _ HM). eapply HT, list_elem_of_lookup_2; eassumption.
  - apply dL_dtheta_shape.
  - intros a b Ha Hb. by apply entry3_L_grad_computed.
Qed.

Lemma transpose_matmul_transpose n G L :
  is_shape n n G → is_shape n n L →
  transpose (matmul G (transpose L)) = matmul L (transpose G).
Proof.
  intros HG HL. destruct n as [|n].
  { destruct HG as [HG _], HL as [HL _]. by destruct G, L. }
  pose proof (transpose_shape n (S n) L HL) as HLt.
  pose proof (transpose_shape n (S n) G HG) as HGt.
  assert (HP : is_shape (S n) (S n) (matmul G (transpose L))).
  { apply matmul_shape; [by destruct HG|].
    by destruct (transpose_shape n (S n) _ HLt) as [-> _]. }
  apply (matrix_ext (S n) (S n)).
  - by apply transpose_shape.
  - apply matmul_shape; [by destruct HL|].
    by destruct (transpose_shape n (S n) _ HGt) as [-> _].
  - intros i j Hi Hj. rewrite (entry_transpose n (S n)) by done.
    rewrite !(entry_matmul_transpose (S n)) by (done || destruct HG, HL; lia).
    apply dot_comm.
Qed.

Lemma K_gradient_computed_shape p K X IG :
  is_shape p p K → length X = p →
  is_shape3 p p (length IG) (K_gradient_computed K X IG).
Proof.
  intros [HK1 HK2] HX. unfold K_gradient_computed. split.
  - rewrite length_zip_with, !length_fmap. lia.
  - apply Forall_forall.
    intros M (Ka & DGa & -> & HKa & (dXa & -> & (xa & -> & _)%list_elem_of_fmap)
      %list_elem_of_fmap)%elem_of_zip_with.
    rewrite Forall_forall in HK2. split.
    + rewrite length_zip_with, !length_fmap, (HK2 Ka) by done. lia.
    + apply Forall_forall.
      intros row (k & g & -> & _ & (dx & -> & _)%list_elem_of_fmap)%elem_of_zip_with.
      by rewrite !length_fmap.
Qed.

Lemma entry3_K_gradient_computed p K X IG a b t :
  is_shape p p K → length X = p → (a < p)%nat → (b < p)%nat → (t < length IG)%nat →
  entry3 (K_gradient_computed K X IG) a b t
  = - 0.5 * entry K a b * quad (nth t IG []) (vec_sub (nth a X []) (nth b X [])).
Proof.
  intros HK HX Ha Hb Ht.
  destruct (is_shape_lookup p p K a HK Ha) as (Ka & HKa & HKalen).
  destruct (lookup_lt_is_Some_2 Ka b) as [Kab HKab]; [lia|].
  destruct (lookup_lt_is_Some_2 X a) as [xa Hxa]; [lia|].
  destruct (lookup_lt_is_Some_2 X b) as [xb Hxb]; [lia|].
  destruct (lookup_lt_is_Some_2 IG t Ht) as [G HG].
  rewrite (entry_lookup K a b Ka Kab) by done.
  rewrite (nth_lookup_Some _ _ _ _ Hxa), (nth_lookup_Some _ _ _ _ Hxb),
    (nth_lookup_Some _ _ _ _ HG).
  unfold entry3, K_gradient_computed.
  erewrite (nth_lookup_Some _ a []).
  2: { rewrite lookup_zip_with, HKa, !list_lookup_fmap, Hxa. reflexivity. }
  eapply entry_lookup.
  - rewrite lookup_zip_with, HKab, !list_lookup_fmap, Hxb. reflexivity.
  - rewrite !list_lookup_fmap, HG. reflexivity.
Qed.

Lemma length_invLam_grad_computed n L :
  length (invLam_grad_computed n L) = (n * (n + 1) / 2)%nat.
Proof.
  unfold invLam_grad_computed. cbv zeta.
  rewrite length_zip_with, !length_fmap, Nat.min_id.
  destruct (L_grad_computed_shape n L) as [-> _]. by rewrite ntheta_split.
Qed.

Lemma nth_invLam_grad_computed n L t :
  is_shape n n L → (t < n * (n + 1) / 2)%nat →
  nth t (invLam_grad_computed n L) [] = dinvLam_dtheta n L t.
Proof.
  intros HL Ht. rewrite ntheta_split in Ht.
  destruct (L_grad_computed_shape n L) as [Hlen _].
  destruct (lookup_lt_is_Some_2 (L_grad_computed n L) t) as [G HG]; [lia|].
  pose proof (nth_L_grad_computed n L t Ht) as HGeq.
  rewrite (nth_lookup_Some _ _ _ _ HG) in HGeq. subst G.
  unfold invLam_grad_computed. cbv zeta.
  erewrite (nth_lookup_Some _ t []).
  2: { rewrite lookup_zip_with, !list_lookup_fmap, HG. reflexivity. }
  unfold dinvLam_dtheta.
  by rewrite (transpose_matmul_transpose n) by (done || apply dL_dtheta_shape).
Qed.

Lemma AnisotropicRBF_call_gradient n k X :
  kernel_shape n k → X ≠ [] →
  AnisotropicRBF.__call__ k (of_matrix X) None true
  = Ok (KernelWithGradient
          (of_matrix (self_covariance k.(AnisotropicRBF.invLam) X))
          (of_tensor3
             (K_gradient_computed (self_covariance k.(AnisotropicRBF.invLam) X) X
                (invLam_grad_computed n k.(AnisotropicRBF._L))))).
Proof.
  intros (Hndim & Hntheta & Hd & Ht & _ & HL) HX.
  unfold AnisotropicRBF.__call__.
  rewrite self_covariance_computed by done. cbn [rbind].
  rewrite atleast_2d_of_matrix, as_matrix_of_matrix by done. cbn [or_raise rbind].
  change (hp_fixed (AnisotropicRBF.hyperparameter_cho_factor k)) with false. cbv iota.
  rewrite Hndim, Hntheta, Hd, Ht, ntheta_split.
  rewrite (getitem2_ok n n) by (done || apply diag_indices_in_range). cbn [rbind].
  set (len := length (tril_indices_below n)).
  unfold arange. rewrite Nat.sub_0_r.
  replace (n + len - n)%nat with len by lia.
  rewrite (setitem3_ok (n + len) n n); [|apply zeros3_shape| | |].
  2: { by rewrite length_seq, length_diag_indices. }
  2: { apply Forall_forall. intros [t [a b]] Hin.
       pose proof (elem_of_zip_l _ _ _ _ Hin) as Ht'%elem_of_seq.
       pose proof (elem_of_zip_r _ _ _ _ Hin) as [-> Hb]%elem_of_diag_indices.
       cbn. lia. }
  2: { by rewrite length_fmap, length_seq, length_diag_indices. }
  cbn [rbind].
  rewrite (setitem3_scalar_ok (n + len) n n); [|apply writes3_shape, zeros3_shape| |].
  2: { by rewrite length_seq. }
  2: { apply Forall_forall. intros [t [a b]] Hin.
       pose proof (elem_of_zip_l _ _ _ _ Hin) as Ht'%elem_of_seq.
       pose proof (elem_of_zip_r _ _ _ _ Hin) as Hab%elem_of_tril_indices_below.
       cbn. fold len in Ht'. lia. }
  cbn [rbind]. rewrite length_seq. reflexivity.
Qed.

(** C3: on a kernel in its invariant, whose hyperparameter is never
    fixed, and a matrix [X] of [p >= 1] rows of [n] covariates, a call with
    [Y] omitted and the gradient requested returns [K] and a tensor of
    shape [(p, p, ntheta)] whose entry at [(a, b, t)] is
    [-0.5 * K[a, b] * (dx · dinvLam_t · dx)] for [dx = X[a] - X[b]], where
    [dinvLam_t = dL_t · Lᵀ + L · dL_tᵀ] and [dL_t] has a single non-zero
    entry: the diagonal value [L[t, t]] at [(t, t)] for [t < n], and [1]
    at the position of the [(t - n)]-th index below the diagonal
    otherwise. *)
Theorem AnisotropicRBF_gradient n p (k : AnisotropicRBF.t) (X : matrix) :
  kernel_wf n k → is_shape p n X → (0 < p)%nat →
  let L := k.(AnisotropicRBF._L) in
  hp_fixed (AnisotropicRBF.hyperparameter_cho_factor k) = false
  ∧ ∃ K G,
    AnisotropicRBF.__call__ k (of_matrix X) None true
    = Ok (KernelWithGradient (of_matrix K) (of_tensor3 G))
    ∧ K = self_covariance k.(AnisotropicRBF.invLam) X
    ∧ is_shape3 p p k.(AnisotropicRBF.ntheta) G
    ∧ (∀ a b t, (a < p)%nat → (b < p)%nat → (t < k.(AnisotropicRBF.ntheta))%nat →
         entry3 G a b t
         = - 0.5 * entry K a b
           * quad (dinvLam_dtheta n L t) (vec_sub (nth a X []) (nth b X [])))
    ∧ (∀ t, (t < n)%nat →
         dL_dtheta n L t = single_entry n t t (entry L t t) ∧ entry L t t ≠ 0)
    ∧ (∀ t, (n ≤ t)%nat → (t < k.(AnisotropicRBF.ntheta))%nat →
         ∃ r c, tril_indices_below n !! (t - n)%nat = Some (r, c)
                ∧ dL_dtheta n L t = single_entry n r c 1).
Proof.
  intros (Hshape & Hlow & Hdiag & Hprod) [HXlen HX] Hp L.
  assert (HXne : X ≠ []) by (destruct X; [cbn in *; lia|done]).
  pose proof Hshape as (Hndim & Hntheta & Hd & Ht & _ & HL).
  split; [reflexivity|].
  eexists _, _. split; [by apply (AnisotropicRBF_call_gradient n)|].
  split; [reflexivity|]. rewrite Hntheta. subst p.
  split; [|split; [|split]].
  - rewrite <-(length_invLam_grad_computed n L).
    apply K_gradient_computed_shape; [apply self_covariance_shape|done].
  - intros a b t Ha Hb Htl.
    rewrite (entry3_K_gradient_computed (length X)) by
      (done || apply self_covariance_shape || by rewrite length_invLam_grad_computed).
    by rewrite nth_invLam_grad_computed.
  - intros t Htn. unfold dL_dtheta. rewrite decide_True by done. split; [done|].
    apply Rgt_not_eq, Rlt_gt, Hdiag. done.
  - intros t Hnt Htl. rewrite ntheta_split in Htl.
    destruct (lookup_lt_is_Some_2 (tril_indices_below n) (t - n)) as [[r c] Hrc]; [lia|].
    exists r, c. split; [done|]. unfold dL_dtheta.
    rewrite decide_False by lia. by rewrite Hrc.
Qed.
End gradient.

(** ** The interpolator *)

Section interp.
Context `{Numerics}.
Import np sklearn.

(** C9: [solve] on an empty list of stars raises [ValueError]: the arrays
    it builds have no rows, and the validation that precedes both the
    principal-component fit and the regressor's fit refuses them; [solve]
    without a list of stars raises [TypeError]. *)
Theorem solve_without_stars_raises (self : GPInterp.t) (h : heap) :
  GPInterp.solve self (Some []) h
  = Raise (Exc ValueError "Expected 2D array, got 1D array instead")
  ∧ GPInterp.solve self None h
    = Raise (Exc TypeError "'NoneType' object is not iterable").
Proof.
  split; [|reflexivity].
  unfold GPInterp.solve, GPInterp._fit. cbn.
  destruct (decide (GPInterp.npca self > 0)%Z); reflexivity.
Qed.

Lemma framed_hret {A} (a : A) : framed (hret a).
Proof. intros h. reflexivity. Qed.

Lemma framed_hread {A} (f : heap → result A) : framed (hread f).
Proof. intros h. reflexivity. Qed.

Lemma alloc_fresh (h : heap) : h !! (fresh (dom h)) = None.
Proof. apply not_elem_of_dom, is_fresh. Qed.

Lemma framed_alloc o : framed (alloc o).
Proof. intros h. cbn. apply insert_subseteq, alloc_fresh. Qed.

Lemma framed_hbind {A B} (m : M A) (f : A → M B) :
  framed m → (∀ a, framed (f a)) → framed (hbind m f).
Proof.
  intros Hm Hf h. unfold hbind. specialize (Hm h).
  destruct (m h) as [[a|e] h1]; cbn in *; [|done].
  etrans; [exact Hm|]. apply Hf.
Qed.

Lemma framed_newParams f p : framed (StarFit_.newParams f p).
Proof.
  intros h. unfold StarFit_.newParams.
  destruct (h !! f) as [[| |]|]; try reflexivity. apply framed_alloc.
Qed.

Lemma framed_fitted_star y y0 star : framed (GPInterp.fitted_star y y0 star).
Proof.
  unfold GPInterp.fitted_star.
  apply framed_hbind; [apply framed_hread|]. intros fit.
  apply framed_hbind.
  { destruct fit; [apply framed_newParams | apply framed_alloc]. }
  intros fit'. apply framed_hbind; [apply framed_hread|]. intros d. apply framed_alloc.
Qed.

Lemma framed_fitted_stars_loop y pairs acc : framed (GPInterp.fitted_stars_loop y pairs acc).
Proof.
  revert acc. induction pairs as [|[y0 star] pairs IH]; intros acc; cbn.
  - apply framed_hret.
  - apply framed_hbind; [apply framed_fitted_star|]. intros new. apply IH.
Qed.

Lemma framed_interpolateList self stars : framed (GPInterp.interpolateList self stars).
Proof.
  unfold GPInterp.interpolateList.
  repeat (apply framed_hbind; [apply framed_hread|]; intros ?).
  apply framed_fitted_stars_loop.
Qed.

Lemma framed_interpolate self star : framed (GPInterp.interpolate self star).
Proof.
  unfold GPInterp.interpolate.
  apply framed_hbind; [apply framed_interpolateList|]. intros out. apply framed_hread.
Qed.

Lemma new_star_mono h0 h h' l : h ⊆ h' → new_star h0 h l → new_star h0 h' l.
Proof.
  intros Hsub (Hl & d & f & Hs & Hf). split; [done|]. exists d, f. split; [|done].
  eapply lookup_weaken; eassumption.
Qed.

Lemma alloc_spec o (h : heap) l h' :
  alloc o h = (Ok l, h') → h !! l = None ∧ h' = <[l := o]> h.
Proof. intros [= <- <-]. split; [apply alloc_fresh | done]. Qed.

Lemma fitted_star_new h0 y y0 star h new h' :
  h0 ⊆ h → GPInterp.fitted_star y y0 star h = (Ok new, h') → new_star h0 h' new.
Proof.
  intros Hsub. unfold GPInterp.fitted_star, hbind, hread.
  destruct (Star.fit star h) as [fit|e]; [|discriminate].
  assert (Hfit : ∀ fl h1,
    match fit with
    | Some f => StarFit_.newParams f y0
    | None => StarFit_.__init__ y
    end h = (Ok fl, h1) → h0 !! fl = None ∧ h ⊆ h1).
  { intros fl h1 Hfl.
    assert (∃ o, alloc o h = (Ok fl, h1)) as [o [Hn ->]%alloc_spec].
    { destruct fit as [f|]; [|by eexists].
      unfold StarFit_.newParams in Hfl.
      destruct (h !! f) as [[| |]|]; try discriminate. by eexists. }
    split; [|by apply insert_subseteq].
    eapply lookup_weaken_None; eassumption. }
  set (m := match fit with
            | Some f => StarFit_.newParams f y0
            | None => StarFit_.__init__ y
            end) in *.
  destruct (m h) as [[fl|e] h1]; [|discriminate].
  destruct (Hfit fl h1 eq_refl) as [Hfl0 Hsub1]. clear Hfit.
  destruct (Star.data star h1) as [d|e]; [|discriminate].
  intros [Hn ->]%alloc_spec. split.
  - eapply lookup_weaken_None; [exact Hn|]. by etrans.
  - exists d, fl. rewrite lookup_insert_eq. done.
Qed.

Lemma fitted_stars_loop_new h0 y pairs acc h out h' :
  h0 ⊆ h → Forall (new_star h0 h) acc →
  GPInterp.fitted_stars_loop y pairs acc h = (Ok out, h') →
  Forall (new_star h0 h') out.
Proof.
  revert acc h. induction pairs as [|[y0 star] pairs IH]; intros acc h Hsub Hacc; cbn.
  - intros [= <- <-]. done.
  - unfold hbind. destruct (GPInterp.fitted_star y y0 star h) as [[new|e] h1] eqn:Hnew; [|discriminate].
    pose proof (framed_fitted_star y y0 star h) as Hfr. rewrite Hnew in Hfr. cbn in Hfr.
    apply IH; [by etrans|].
    apply Forall_app. split.
    + eapply Forall_impl; [exact Hacc|]. intros l. by apply new_star_mono.
    + apply Forall_singleton. eapply fitted_star_new; eassumption.
Qed.

Lemma interpolateList_new self stars h out h' :
  GPInterp.interpolateList self stars h = (Ok out, h') → Forall (new_star h h') out.
Proof.
  unfold GPInterp.interpolateList, hbind, hread.
  destruct (mapM _ stars) as [X|e]; [|discriminate].
  destruct (GPInterp._predict self _) as [y|e]; [|discriminate].
  destruct (GPInterp.iter y) as [rows|e]; [|discriminate].
  apply fitted_stars_loop_new; done.
Qed.

(** C8: [interpolateList] and [interpolate] leave every object of the heap
    they start from as it was (so each input star, its data and its fit),
    whether they return or raise; each star they return is at a location
    that was unused before, and so is its fit. *)
Theorem interpolate_never_mutates (self : GPInterp.t) (stars : list nat) (star : nat) (h : heap) :
  (h ⊆ (GPInterp.interpolateList self stars h).2
   ∧ ∀ out, (GPInterp.interpolateList self stars h).1 = Ok out →
       Forall (new_star h (GPInterp.interpolateList self stars h).2) out)
  ∧ (h ⊆ (GPInterp.interpolate self star h).2
     ∧ ∀ new, (GPInterp.interpolate self star h).1 = Ok new →
         new_star h (GPInterp.interpolate self star h).2 new).
Proof.
  split; split.
  - apply framed_interpolateList.
  - intros out Hout. apply (interpolateList_new self stars).
    destruct (GPInterp.interpolateList self stars h); cbn in *. by subst.
  - apply framed_interpolate.
  - intros new. unfold GPInterp.interpolate, hbind, hread.
    destruct (GPInterp.interpolateList self [star] h) as [[out|e] h1] eqn:Hout; cbn; [|done].
    destruct (out !! 0) as [l|] eqn:Hl; cbn; [|done]. intros [= <-].
    apply interpolateList_new in Hout. rewrite Forall_forall in Hout.
    apply Hout. eapply list_elem_of_lookup_2; eassumption.
Qed.
(** *** What [interpolateList] builds *)

Lemma star_built_mono h h' y y0 star new :
  h ⊆ h' → star_built h y y0 star new → star_built h' y y0 star new.
Proof.
  intros Hsub (data & oldfit & f & fit & Hstar & Hnew & Hf & Hfit).
  exists data, oldfit, f, fit.
  repeat (split; [eapply lookup_weaken; eassumption|]).
  destruct oldfit as [fo|]; [|done].
  destruct Hfit as (old & Hold & ->). exists old. split; [|done].
  eapply lookup_weaken; eassumption.
Qed.

Lemma fitted_star_spec y y0 star h new h' :
  GPInterp.fitted_star y y0 star h = (Ok new, h') →
  h ⊆ h' ∧ star_built h' y y0 star new.
Proof.
  intros Hrun. split.
  { pose proof (framed_fitted_star y y0 star h) as Hfr. by rewrite Hrun in Hfr. }
  revert Hrun. unfold GPInterp.fitted_star, hbind, hread, Star.fit, Star.data.
  destruct (h !! star) as [[| |data oldfit]|] eqn:Hstar; try discriminate.
  destruct oldfit as [fo|].
  - unfold StarFit_.newParams.
    destruct (h !! fo) as [[|old|]|] eqn:Hfo; try discriminate.
    unfold alloc. cbn.
    set (f := fresh (dom h)). set (h1 := <[f := _]> h).
    assert (Hf : h !! f = None) by apply alloc_fresh.
    assert (Hsub1 : h ⊆ h1) by (by apply insert_subseteq).
    rewrite (lookup_weaken _ _ _ _ Hstar Hsub1).
    set (new' := fresh (dom h1)). intros [= <- <-].
    assert (Hn : h1 !! new' = None) by apply alloc_fresh.
    assert (Hsub2 : h1 ⊆ <[new' := OStar data (Some f)]> h1) by (by apply insert_subseteq).
    exists data, (Some fo), f, {| params := y0; params_cov := params_cov old |}.
    split; [eapply lookup_weaken; [|exact Hsub2]; eapply lookup_weaken; eassumption|].
    split; [apply lookup_insert_eq|].
    split; [eapply lookup_weaken; [|exact Hsub2]; apply lookup_insert_eq|].
    exists old. split; [|done].
    eapply lookup_weaken; [|exact Hsub2]. eapply lookup_weaken; eassumption.
  - unfold StarFit_.__init__, alloc. cbn.
    set (f := fresh (dom h)). set (h1 := <[f := _]> h).
    assert (Hf : h !! f = None) by apply alloc_fresh.
    assert (Hsub1 : h ⊆ h1) by (by apply insert_subseteq).
    rewrite (lookup_weaken _ _ _ _ Hstar Hsub1).
    set (new' := fresh (dom h1)). intros [= <- <-].
    assert (Hn : h1 !! new' = None) by apply alloc_fresh.
    assert (Hsub2 : h1 ⊆ <[new' := OStar data (Some f)]> h1) by (by apply insert_subseteq).
    exists data, None, f, {| params := y; params_cov := None |}.
    split; [eapply lookup_weaken; [|exact Hsub2]; eapply lookup_weaken; eassumption|].
    split; [apply lookup_insert_eq|].
    split; [eapply lookup_weaken; [|exact Hsub2]; apply lookup_insert_eq|]. done.
Qed.

Lemma fitted_stars_loop_spec y pairs acc h out h' :
  GPInterp.fitted_stars_loop y pairs acc h = (Ok out, h') →
  ∃ news, out = acc ++ news ∧ length news = length pairs
    ∧ ∀ i y0 star, pairs !! i = Some (y0, star) →
        ∃ new, news !! i = Some new ∧ star_built h' y y0 star new.
Proof.
  revert acc h. induction pairs as [|[y0 star] pairs IH]; intros acc h; cbn.
  - intros [= <- <-]. exists []. by rewrite app_nil_r.
  - unfold hbind.
    destruct (GPInterp.fitted_star y y0 star h) as [[new|e] h1] eqn:Hnew; [|discriminate].
    intros Hloop. destruct (fitted_star_spec _ _ _ _ _ _ Hnew) as [_ Hbuilt].
    pose proof (framed_fitted_stars_loop y pairs (acc ++ [new]) h1) as Hsub.
    rewrite Hloop in Hsub. cbn in Hsub.
    destruct (IH _ _ Hloop) as (news & -> & Hlen & Hnews).
    exists (new :: news). split; [by rewrite <-app_assoc|]. split; [cbn; lia|].
    intros [|i] y0' star' Hi; cbn in Hi.
    + injection Hi as <- <-. exists new. split; [done|]. by eapply star_built_mono.
    + by apply Hnews.
Qed.

(** What [interpolateList] returns: one new star for each pair of a row
    of the prediction and an input star, in order. *)
Lemma interpolateList_spec self stars h out h' :
  GPInterp.interpolateList self stars h = (Ok out, h') →
  ∃ Xstar y rows,
    mapM (λ star, GPInterp.getProperties self star h) stars = Ok Xstar
    ∧ GPInterp._predict self (array Xstar) = Ok y
    ∧ GPInterp.iter y = Ok rows
    ∧ length out = length rows `min` length stars
    ∧ ∀ i y0 star, rows !! i = Some y0 → stars !! i = Some star →
        ∃ new, out !! i = Some new ∧ star_built h' y y0 star new.
Proof.
  unfold GPInterp.interpolateList, hbind, hread.
  destruct (mapM _ stars) as [Xstar|e]; [|discriminate].
  destruct (GPInterp._predict self _) as [y|e] eqn:Hy; [|discriminate].
  destruct (GPInterp.iter y) as [rows|e] eqn:Hrows; [|discriminate].
  intros (news & -> & Hlen & Hnews)%fitted_stars_loop_spec.
  exists Xstar, y, rows. repeat (split; [done|]). cbn [app].
  split; [rewrite Hlen; apply length_zip_with|].
  intros i y0 star Hy0 Hstar. apply Hnews.
  apply lookup_zip_with_Some. eauto.
Qed.
End interp.

(** C4: with two input stars that have no fit, the fit of the first
    output star holds the predictions of both stars, [[1, 2], [3, 4]],
    where the specification has that star's own prediction, [1, 2]: the branch for
    a star without fit constructs [StarFit(y)] from the whole prediction
    array and not from the row [y0]. *)
Example interpolateList_unfitted_star_gets_whole_prediction :
  ∃ out h',
    @GPInterp.interpolateList echo_numerics sample_interp [1; 3] two_unfitted_stars
    = (Ok out, h')
    ∧ length out = 2
    ∧ (out !! 0) ≫= result_fit_params h' = Some (np.of_matrix [[1; 2]; [3; 4]]%R)
    ∧ (out !! 1) ≫= result_fit_params h' = Some (np.of_matrix [[1; 2]; [3; 4]]%R)
    ∧ (out !! 0) ≫= result_fit_params h' ≠ Some (np.of_vector [1; 2]%R).
Proof.
  eexists _, _. split; [vm_compute; reflexivity|].
  split; [reflexivity|]. split; [vm_compute; reflexivity|].
  split; [vm_compute; reflexivity|].
  vm_compute. intros [=].
Qed.

(** ** The statements at sample inputs *)

Section samples.
Import np scipy.
Local Open Scope R_scope.

Lemma sample_invLam_spd : spd 2 sample_invLam.
Proof.
  split; [|split].
  - split; [reflexivity|]. repeat constructor.
  - intros i j Hi Hj. destruct i as [|[|i]], j as [|[|j]]; try lia; reflexivity.
  - intros v Hlen Hnz. destruct v as [|x [|y [|z v]]]; try discriminate.
    unfold quad, sample_invLam, mat_vec, dot. cbn.
    assert (x ≠ 0 ∨ y ≠ 0) as Hxy.
    { apply Exists_cons in Hnz as [?|Hnz]; [by left|].
      apply Exists_cons in Hnz as [?|Hnz]; [by right|]. by apply Exists_nil in Hnz. }
    assert (0 < x * x + y * y) by (destruct Hxy; nra).
    nra.
Qed.

Lemma sample_kernel_wf : kernel_wf 2 sample_kernel.
Proof.
  split; [|split; [|split]].
  - split; [reflexivity|]. split; [reflexivity|]. split; [reflexivity|].
    split; [reflexivity|]. split; (split; [reflexivity|repeat constructor]).
  - intros i j Hij Hj. destruct i as [|[|i]], j as [|[|j]]; try lia; reflexivity.
  - intros i Hi. destruct i as [|[|i]]; try lia; cbn; lra.
  - cbn. unfold sample_invLam, dot; cbn. repeat f_equal; lra.
Qed.

Lemma sample_X_shape : is_shape 3 2 sample_X.
Proof. split; [reflexivity|]. repeat constructor. Qed.

Lemma AnisotropicRBF_self_covariance_witness :
  spd 2 sample_invLam ∧ is_shape 3 2 sample_X
  ∧ ∃ k K,
      AnisotropicRBF.__init__ sample_invLam = Ok k
      ∧ AnisotropicRBF.__call__ k (of_matrix sample_X) None false
        = Ok (KernelOnly (of_matrix K))
      ∧ is_shape 3 3 K
      ∧ entry K 1 1 = 1
      ∧ entry K 0 1 = entry K 1 0.
Proof.
  split; [exact sample_invLam_spd|]. split; [exact sample_X_shape|].
  destruct (AnisotropicRBF_self_covariance 2 3 sample_invLam sample_X
              sample_invLam_spd sample_X_shape)
    as (k & K & Hk & HK & Hshape & Hsym & Hdiag & _); [lia|].
  exists k, K. split; [exact Hk|]. split; [exact HK|]. split; [exact Hshape|].
  split; [apply Hdiag; lia|apply Hsym; lia].
Defined.



Lemma AnisotropicRBF_gradient_witness :
  kernel_wf 2 sample_kernel ∧ is_shape 3 2 sample_X
  ∧ ∃ K G,
      AnisotropicRBF.__call__ sample_kernel (of_matrix sample_X) None true
      = Ok (KernelWithGradient (of_matrix K) (of_tensor3 G))
      ∧ is_shape3 3 3 3 G
      ∧ entry3 G 0 1 2
        = - 0.5 * entry K 0 1
          * quad (dinvLam_dtheta 2 [[2; 0]; [1; 2]] 2) (vec_sub [0; 0] [1; 0]).
Proof.
  split; [exact sample_kernel_wf|]. split; [exact sample_X_shape|].
  destruct (AnisotropicRBF_gradient 2 3 sample_kernel sample_X
              sample_kernel_wf sample_X_shape)
    as (_ & K & G & Hcall & _ & Hshape & Hentry & _); [lia|].
  exists K, G. split; [exact Hcall|]. split; [exact Hshape|].
  apply (Hentry 0 1 2)%nat; cbn; lia.
Defined.

Lemma EmpiricalKernel_ignores_extra_columns_witness :
  sample_X3 ≠ [] ∧ Forall (λ r, 2 < length r)%nat sample_X3
  ∧ EmpiricalKernel.__call__ sample_empirical (of_matrix sample_X3) None false
    = Ok (KernelOnly (sample_fn (subtract_outer (of_vector [0; 1]) (of_vector [0; 1]))
                                (subtract_outer (of_vector [0; 0]) (of_vector [0; 0])))).
Proof.
  assert (H1 : sample_X3 ≠ []) by discriminate.
  assert (H2 : Forall (λ r, 2 < length r)%nat sample_X3) by (repeat constructor).
  assert (H3 : ∀ Ym : matrix, None = Some Ym → Forall (λ r, 2 < length r)%nat Ym)
    by discriminate.
  split; [exact H1|]. split; [exact H2|].
  exact (proj2 (proj2 (EmpiricalKernel_ignores_extra_columns sample_empirical
                         sample_X3 None H1 H2 H3))).
Defined.
End samples.

(** * Further properties *)

(** ** More on the factorisation *)

Section more_cholesky.
Import np.
Local Open Scope R_scope.

Lemma potrf_ok_or_raise n A :
  (∃ L, potrf n A = Ok L)
  ∨ potrf n A = Raise (Exc LinAlgError "Matrix is not positive definite").
Proof.
  revert A. induction n as [|n IH]; intros A; [left; by eexists|].
  cbn [potrf]. destruct (Rlt_dec 0 (entry A 0 0)); [|by right]. cbv zeta.
  match goal with |- context [potrf n ?S] => destruct (IH S) as [[L' ->]| ->] end.
  - left. by eexists.
  - by right.
Qed.

Lemma symmetric_block n a b rest :
  is_shape (S n) (S n) ((a :: b) :: rest) → symmetric (S n) ((a :: b) :: rest) →
  b = hd 0 <$> rest ∧ length b = n ∧ is_shape n (S n) rest ∧ symmetric n (tl <$> rest).
Proof.
  intros Hshape Hsym.
  destruct (square_S_inv n _ Hshape) as (a' & b' & rest' & [= <- <- <-] & Hb & Hrest).
  destruct (rows_hd_tl n n rest Hrest) as (_ & Hc0 & HC).
  split; [|split; [done|split; [done|]]].
  - apply (list_eq_nth 0); [lia|]. intros j Hj.
    rewrite <-entry_block_S0 with (a := a) (b := b).
    rewrite <-Hsym by lia. reflexivity.
  - intros i j Hi Hj. rewrite <-!entry_block_SS with (a := a) (b := b).
    apply Hsym; lia.
Qed.

Lemma quad_zeros M n : quad M (replicate n 0) = 0.
Proof. unfold quad. apply dot_zeros_l. Qed.

Lemma not_Exists_nonzero (w : vector) :
  ¬ Exists (λ x, x ≠ 0) w → w = replicate (length w) 0.
Proof.
  induction w as [|x w IH]; intros Hw; [done|]. cbn.
  destruct (decide (x = 0)) as [->|Hx].
  - rewrite <-IH; [done|]. intros Hex. apply Hw. by right.
  - exfalso. apply Hw. by left.
Qed.

(** A symmetric matrix on which the factorisation succeeds is positive
    definite. *)
Lemma potrf_ok_pos_def n A L :
  is_shape n n A → symmetric n A → potrf n A = Ok L → pos_def n A.
Proof.
  revert A L. induction n as [|n IH]; intros A L Hshape Hsym HL.
  { intros v Hv Hnz. destruct v; [|discriminate]. by apply Exists_nil in Hnz. }
  destruct (square_S_inv n A Hshape) as (a & b & rest & -> & _ & _).
  destruct (symmetric_block n a b rest Hshape Hsym) as (-> & Hb & Hrest & HsymC).
  destruct (rows_hd_tl n n rest Hrest) as (_ & Hc0 & HC).
  rewrite potrf_S in HL. destruct (Rlt_dec 0 a) as [Ha|]; [|discriminate].
  cbv zeta in HL.
  set (c0 := hd 0 <$> rest) in *. set (C := tl <$> rest) in *.
  set (c := (λ x, x / sqrt a) <$> c0) in *.
  assert (Hc : length c = n) by (unfold c; by rewrite length_fmap).
  destruct (potrf n (schur c C)) as [L'|e] eqn:HL'; [|discriminate].
  assert (HposS : pos_def n (schur c C)).
  { apply (IH _ L'); [by apply schur_shape| |done].
    intros i j Hi Hj. rewrite !(entry_schur n) by done. rewrite (HsymC i j) by done. lra. }
  assert (Hl : 0 < sqrt a) by (by apply sqrt_lt_R0).
  assert (Hll : sqrt a * sqrt a = a) by (apply sqrt_sqrt; lra).
  intros v Hv Hnz. destruct v as [|t w]; [discriminate|].
  assert (Hw : length w = n) by (cbn in Hv; lia).
  rewrite (quad_block _ _ _ _ _ n) by done. fold c0 C.
  rewrite (dot_comm w c0).
  assert (HqS : quad (schur c C) w = quad C w - dot c0 w / sqrt a * (dot c0 w / sqrt a)).
  { rewrite (quad_schur n) by done. unfold c. by rewrite dot_div_l. }
  set (d := dot c0 w) in *. set (qC := quad C w) in *.
  assert (Hsq : d / sqrt a * (d / sqrt a) = d * d / a).
  { rewrite <-Hll at 3. field. lra. }
  assert (Hid : t * (a * t + d) + (t * d + qC)
                = a * ((t + d / a) * (t + d / a)) + (qC - d * d / a)).
  { field. lra. }
  rewrite Hid. rewrite Hsq in HqS. rewrite <-HqS.
  destruct (Exists_dec (λ x, x ≠ 0) w) as [Hex|Hnex].
  - specialize (HposS w Hw Hex).
    assert (0 <= a * ((t + d / a) * (t + d / a)))
      by (apply Rmult_le_pos; [lra|apply Rle_0_sqr]).
    lra.
  - apply not_Exists_nonzero in Hnex. rewrite Hw in Hnex.
    assert (Ht : t ≠ 0).
    { apply Exists_cons in Hnz as [?|Hex]; [done|]. exfalso.
      rewrite Hnex in Hex. apply Exists_exists in Hex as (x & Hx%elem_of_replicate & ?).
      by destruct Hx. }
    assert (Hd0 : d = 0) by (unfold d; rewrite Hnex; apply dot_zeros_r).
    assert (HqS0 : quad (schur c C) w = 0) by (rewrite Hnex; apply quad_zeros).
    rewrite HqS0, Hd0. replace (t + 0 / a) with t by (field; lra).
    assert (0 < t * t) by (apply Rsqr_pos_lt; exact Ht).
    assert (0 < a * (t * t)) by (apply Rmult_lt_0_compat; lra).
    lra.
Qed.

(** The factorisation of [L · Lᵀ] gives back [L]. *)
Lemma potrf_gram n L :
  is_shape n n L → lower_triangular n L → pos_diag n L →
  potrf n (matmul L (transpose L)) = Ok L.
Proof.
  revert L. induction n as [|n IH]; intros L HL Hlow Hdiag.
  { destruct HL as [HL _]. by destruct L. }
  set (A := matmul L (transpose L)).
  assert (HA : is_shape (S n) (S n) A) by (by apply matmul_transpose_shape).
  assert (HAe : ∀ i j, (i < S n)%nat → (j < S n)%nat →
                  entry A i j = dot (nth i L []) (nth j L [])).
  { intros i j Hi Hj. apply (entry_matmul_transpose (S n)); [done| |done].
    destruct HL as [-> _]. done. }
  destruct (square_S_inv n L HL) as (l & z & rest & -> & Hz & Hrest).
  destruct (rows_hd_tl n n rest Hrest) as (Hrest_eq & Hc0 & HL').
  set (c := hd 0 <$> rest) in *. set (L' := tl <$> rest) in *.
  assert (Hzz : z = replicate n 0).
  { apply (list_eq_nth 0); [by rewrite length_replicate|]. intros j Hj.
    rewrite nth_zeros. apply (Hlow 0%nat (S j)); lia. }
  subst z.
  assert (Hl : 0 < l) by (apply (Hdiag 0%nat); lia).
  assert (HrowS : ∀ i, (i < n)%nat →
            nth (S i) ((l :: replicate n 0) :: rest) [] = nth i c 0 :: nth i L' []).
  { intros i Hi. cbn [nth]. rewrite Hrest_eq at 1.
    apply nth_zip_with_cons; [lia|]. destruct HL' as [-> _]. done. }
  assert (Hlow' : lower_triangular n L').
  { intros i j Hij Hj. specialize (Hlow (S i) (S j)).
    rewrite entry_block_SS in Hlow. apply Hlow; lia. }
  assert (Hdiag' : pos_diag n L').
  { intros i Hi. specialize (Hdiag (S i)).
    rewrite entry_block_SS in Hdiag. apply Hdiag; lia. }
  destruct (square_S_inv n A HA) as (a & b & restA & HeqA & Hb & HrestA).
  rewrite HeqA in HAe |- *.
  assert (Ha : a = l * l).
  { change a with (entry ((a :: b) :: restA) 0 0). rewrite HAe by lia.
    cbn [nth]. rewrite dot_cons, dot_zeros_l. lra. }
  assert (Hsqrt : sqrt a = l) by (rewrite Ha; apply sqrt_square; lra).
  rewrite potrf_S. destruct (Rlt_dec 0 a) as [_|Hna]; [|exfalso; nra].
  cbv zeta. rewrite Hsqrt.
  assert (HcA : (λ x, x / l) <$> (hd 0 <$> restA) = c).
  { apply (list_eq_nth 0); [by rewrite !length_fmap; destruct HrestA as [-> _]|].
    intros i Hi. rewrite !length_fmap in Hi. destruct HrestA as [HlenA HrowsA].
    rewrite nth_fmap_div by (rewrite length_fmap; lia).
    rewrite <-(entry_block_S0 a b), HAe by lia.
    rewrite HrowS by lia. cbn [nth]. rewrite dot_cons, dot_zeros_r. field. lra. }
  rewrite HcA.
  assert (HS : schur c (tl <$> restA) = matmul L' (transpose L')).
  { destruct (rows_hd_tl n n restA HrestA) as (_ & _ & HCA).
    apply (matrix_ext n n); [by apply schur_shape|by apply matmul_transpose_shape|].
    intros i j Hi Hj. rewrite (entry_schur n) by done.
    rewrite <-(entry_block_SS a b), HAe by lia.
    rewrite (entry_matmul_transpose n) by (done || destruct HL' as [-> _]; done).
    rewrite !HrowS, dot_cons by lia. lra. }
  rewrite HS, IH by done. cbn [rbind]. by rewrite <-Hrest_eq.
Qed.
End more_cholesky.

(** ** The parameters of the anisotropic kernel *)

Section kernel_parameters.
Import np.
Local Open Scope R_scope.

(** In its invariant a kernel holds a symmetric positive-definite
    [invLam]. *)
Lemma kernel_wf_spd n k : kernel_wf n k → spd n k.(AnisotropicRBF.invLam).
Proof.
  intros ((_ & _ & _ & _ & HinvLam & HL) & Hlow & Hdiag & Hprod).
  assert (Hsym : symmetric n k.(AnisotropicRBF.invLam)).
  { intros i j Hi Hj. rewrite <-Hprod.
    rewrite !(entry_matmul_transpose n) by (done || destruct HL as [-> _]; done).
    apply dot_comm. }
  split; [done|]. split; [done|].
  apply (potrf_ok_pos_def n _ k.(AnisotropicRBF._L)); [done|done|].
  rewrite <-Hprod. by apply potrf_gram.
Qed.


(** X2: on a symmetric [n] by [n] matrix the constructor returns exactly
    when the matrix is positive definite, and raises [LinAlgError]
    otherwise; the kernel it returns holds the matrix, its Cholesky
    factor (lower triangular, positive diagonal) and a [theta] of
    [n (n + 1) / 2] entries. *)
Theorem AnisotropicRBF_init_iff_pos_def n (invLam : matrix) :
  is_shape n n invLam → symmetric n invLam →
  (pos_def n invLam →
     ∃ k, AnisotropicRBF.__init__ invLam = Ok k
          ∧ k.(AnisotropicRBF.invLam) = invLam
          ∧ lower_triangular n k.(AnisotropicRBF._L)
          ∧ pos_diag n k.(AnisotropicRBF._L)
          ∧ matmul k.(AnisotropicRBF._L) (transpose k.(AnisotropicRBF._L)) = invLam
          ∧ length (AnisotropicRBF.theta k) = (n * (n + 1) / 2)%nat)
  ∧ (is_ok (AnisotropicRBF.__init__ invLam) → pos_def n invLam)
  ∧ (¬ pos_def n invLam →
       AnisotropicRBF.__init__ invLam
       = Raise (Exc LinAlgError "Matrix is not positive definite")).
Proof.
  intros Hshape Hsym.
  assert (Hchol : cholesky invLam = potrf n invLam).
  { unfold cholesky. destruct Hshape as [Hlen Hrows]. rewrite Hlen.
    by rewrite decide_True. }
  assert (Hconv : ∀ L, potrf n invLam = Ok L → pos_def n invLam)
    by (intros L; by apply potrf_ok_pos_def).
  split; [|split].
  - intros Hpos. destruct (init_ok n invLam) as (k & Hk & Hwf & HinvLam & Htheta); [done|].
    exists k. destruct Hwf as (_ & Hlow & Hdiag & Hprod).
    repeat (split; [done|]). split; [congruence|].
    rewrite Htheta. apply length_theta_of_factor.
  - intros [k Hk]. unfold AnisotropicRBF.__init__, AnisotropicRBF.set_params in Hk.
    rewrite Hchol in Hk. destruct (potrf n invLam) as [L|e] eqn:HL; [|discriminate].
    by apply (Hconv L).
  - intros Hnpos. unfold AnisotropicRBF.__init__, AnisotropicRBF.set_params.
    rewrite Hchol. destruct (potrf_ok_or_raise n invLam) as [[L HL]| ->]; [|done].
    exfalso. by apply Hnpos, (Hconv L).
Qed.


End kernel_parameters.

(** ** Values of the anisotropic kernel *)

Section kernel_values.
Import np scipy.
Local Open Scope R_scope.

Lemma vec_sub_self u : vec_sub u u = replicate (length u) 0.
Proof.
  unfold vec_sub. induction u as [|x u IH]; [done|]. cbn. rewrite IH. f_equal. lra.
Qed.

Lemma mahalanobis_self VI u : mahalanobis VI u u = 0.
Proof.
  unfold mahalanobis. cbv zeta. rewrite vec_sub_self.
  fold (quad VI (replicate (length u) 0)). rewrite quad_zeros. apply sqrt_0.
Qed.

Lemma rbf_0 : AnisotropicRBF.rbf 0 = 1.
Proof. unfold AnisotropicRBF.rbf. replace (- 0.5 * 0 ^ 2) with 0 by lra. apply exp_0. Qed.

Lemma rbf_range d : 0 < AnisotropicRBF.rbf d <= 1.
Proof.
  unfold AnisotropicRBF.rbf. split; [apply exp_pos|].
  rewrite <-exp_0. destruct (Req_dec d 0) as [->|Hd].
  - right. f_equal. lra.
  - left. apply exp_increasing. assert (0 < d ^ 2) by (rewrite <-Rsqr_pow2; by apply Rsqr_pos_lt). lra.
Qed.

Lemma rbf_eq_1 d : AnisotropicRBF.rbf d = 1 → d = 0.
Proof.
  unfold AnisotropicRBF.rbf. intros Hd. destruct (Req_dec d 0) as [->|Hne]; [done|].
  exfalso. assert (0 < d ^ 2) by (rewrite <-Rsqr_pow2; by apply Rsqr_pos_lt).
  assert (exp (- 0.5 * d ^ 2) < exp 0) by (apply exp_increasing; lra).
  rewrite exp_0 in *. lra.
Qed.

Lemma length_vec_sub u v : length (vec_sub u v) = (length u `min` length v)%nat.
Proof. apply length_zip_with. Qed.

Lemma vec_sub_nonzero u v :
  length u = length v → u ≠ v → Exists (λ x, x ≠ 0) (vec_sub u v).
Proof.
  revert v. induction u as [|x u IH]; intros [|y v] Hlen Hne; try done.
  cbn. destruct (Req_dec x y) as [->|Hxy].
  - right. apply IH; [by injection Hlen|]. intros ->. done.
  - left. lra.
Qed.

(** The distance of two rows of equal length is zero for equal rows only,
    when the metric is positive definite. *)
Lemma mahalanobis_eq_0 n VI u v :
  pos_def n VI → length u = n → length v = n →
  mahalanobis VI u v = 0 → u = v.
Proof.
  intros Hpd Hu Hv Hd. destruct (decide (u = v)) as [|Hne]; [done|]. exfalso.
  assert (Hq : 0 < quad VI (vec_sub u v)).
  { apply Hpd; [rewrite length_vec_sub; lia|apply vec_sub_nonzero; congruence]. }
  unfold mahalanobis in Hd. cbv zeta in Hd. fold (quad VI (vec_sub u v)) in Hd.
  apply sqrt_eq_0 in Hd; lra.
Qed.

Lemma cdist_of_matrix X Y VI :
  X ≠ [] → Y ≠ [] →
  cdist (of_matrix X) (of_matrix Y) VI
  = if decide (ncols X = ncols Y)
    then Ok ((λ u, (λ v, mahalanobis VI u v) <$> Y) <$> X)
    else Raise (Exc ValueError "XA and XB must have the same number of columns").
Proof.
  intros HX HY. unfold cdist. by rewrite !as_matrix_of_matrix by done.
Qed.

(** The matrix [__call__] computes from [X] and [Y]. *)
Lemma AnisotropicRBF_call_cross k X Y :
  X ≠ [] → Y ≠ [] → ncols X = ncols Y →
  AnisotropicRBF.__call__ k (of_matrix X) (Some (of_matrix Y)) false
  = Ok (KernelOnly (of_matrix
          ((λ u, (λ v, AnisotropicRBF.rbf (mahalanobis k.(AnisotropicRBF.invLam) u v)) <$> Y)
             <$> X))).
Proof.
  intros HX HY Hcols. unfold AnisotropicRBF.__call__.
  rewrite atleast_2d_of_matrix, cdist_of_matrix by done.
  rewrite decide_True by done. cbn [rbind]. do 3 f_equal.
  rewrite <-list_fmap_compose. apply list_fmap_ext. intros _ u _. cbn.
  by rewrite <-list_fmap_compose.
Qed.

Lemma cross_shape (g : vector → vector → R) X Y :
  is_shape (length X) (length Y) ((λ u, (λ v, g u v) <$> Y) <$> X).
Proof.
  split; [by rewrite length_fmap|]. apply Forall_fmap, Forall_forall.
  intros u _. cbn. by rewrite length_fmap.
Qed.

Lemma entry_cross (g : vector → vector → R) X Y i j :
  (i < length X)%nat → (j < length Y)%nat →
  entry ((λ u, (λ v, g u v) <$> Y) <$> X) i j = g (nth i X []) (nth j Y []).
Proof.
  intros Hi Hj.
  destruct (lookup_lt_is_Some_2 X i Hi) as [u Hu].
  destruct (lookup_lt_is_Some_2 Y j Hj) as [v Hv].
  rewrite (nth_lookup_Some _ _ _ _ Hu), (nth_lookup_Some _ _ _ _ Hv).
  eapply entry_lookup.
  - rewrite list_lookup_fmap, Hu. reflexivity.
  - rewrite list_lookup_fmap, Hv. reflexivity.
Qed.

(** X4: called on a matrix [X] and a matrix [Y], both with at least one
    row, the kernel returns the [len(X)] by [len(Y)] matrix of
    [exp(-0.5 * mahalanobis(X[i], Y[j])^2)] when the rows of [X] and [Y]
    have the same number of columns, and raises [ValueError] when they
    have not; the state of the kernel beyond [invLam] plays no part. *)
Theorem AnisotropicRBF_cross_covariance (k : AnisotropicRBF.t) (X Y : matrix) :
  X ≠ [] → Y ≠ [] →
  (ncols X = ncols Y →
     ∃ K, AnisotropicRBF.__call__ k (of_matrix X) (Some (of_matrix Y)) false
          = Ok (KernelOnly (of_matrix K))
          ∧ is_shape (length X) (length Y) K
          ∧ ∀ i j, (i < length X)%nat → (j < length Y)%nat →
              entry K i j
              = exp (- 0.5 * mahalanobis k.(AnisotropicRBF.invLam) (nth i X []) (nth j Y []) ^ 2))
  ∧ (ncols X ≠ ncols Y →
       AnisotropicRBF.__call__ k (of_matrix X) (Some (of_matrix Y)) false
       = Raise (Exc ValueError "XA and XB must have the same number of columns")).
Proof.
  intros HX HY. split.
  - intros Hcols. eexists. split; [by apply AnisotropicRBF_call_cross|].
    split; [apply cross_shape|].
    intros i j Hi Hj.
    by rewrite (entry_cross (λ u v, AnisotropicRBF.rbf (mahalanobis _ u v))).
  - intros Hcols. unfold AnisotropicRBF.__call__.
    rewrite atleast_2d_of_matrix, cdist_of_matrix by done.
    by rewrite decide_False.
Qed.

(** X5: passing [X] itself as [Y] gives the matrix that omitting [Y]
    gives: the condensed computation with its diagonal filled with ones
    agrees with the full pairwise one. *)
Theorem AnisotropicRBF_Y_is_X (k : AnisotropicRBF.t) (X : matrix) :
  X ≠ [] →
  AnisotropicRBF.__call__ k (of_matrix X) (Some (of_matrix X)) false
  = AnisotropicRBF.__call__ k (of_matrix X) None false.
Proof.
  intros HX. rewrite AnisotropicRBF_call_self, AnisotropicRBF_call_cross by done.
  do 3 f_equal. apply (matrix_ext (length X) (length X)).
  - apply cross_shape.
  - apply self_covariance_shape.
  - intros i j Hi Hj.
    rewrite (entry_cross (λ u v, AnisotropicRBF.rbf (mahalanobis _ u v))) by done.
    rewrite entry_self_covariance by done.
    destruct (decide (i = j)) as [->|Hne]; [|done].
    by rewrite mahalanobis_self, rbf_0.
Qed.

(** X6: on a kernel in its invariant the self-covariance is normalised:
    every entry lies in (0, 1], and an entry is 1 exactly when the two
    rows of [X] are the same point. *)
Theorem AnisotropicRBF_normalized n p (k : AnisotropicRBF.t) (X : matrix) :
  kernel_wf n k → is_shape p n X → (0 < p)%nat →
  ∃ K, AnisotropicRBF.__call__ k (of_matrix X) None false = Ok (KernelOnly (of_matrix K))
       ∧ ∀ i j, (i < p)%nat → (j < p)%nat →
           0 < entry K i j <= 1
           ∧ (entry K i j = 1 ↔ nth i X [] = nth j X []).
Proof.
  intros Hwf HX Hp.
  assert (HXne : X ≠ []) by (destruct HX as [HX _]; destruct X; [cbn in *; lia|done]).
  destruct (kernel_wf_spd n k Hwf) as (_ & _ & Hpd).
  eexists. split; [by apply AnisotropicRBF_call_self|].
  pose proof HX as [Hlen _]. subst p.
  intros i j Hi Hj. rewrite entry_self_covariance by done.
  destruct (decide (i = j)) as [->|Hne]; [split; [lra|done]|].
  fold (AnisotropicRBF.rbf (mahalanobis k.(AnisotropicRBF.invLam) (nth i X []) (nth j X []))).
  split; [apply rbf_range|]. split.
  - intros Hd%rbf_eq_1.
    apply (mahalanobis_eq_0 n k.(AnisotropicRBF.invLam)); [done| | |done];
      by apply (is_shape_nth (length X)).
  - intros ->. by rewrite mahalanobis_self, rbf_0.
Qed.

(** X7: the gradient tensor vanishes on the diagonal and is symmetric in
    its first two indices. *)
Theorem AnisotropicRBF_gradient_symmetric n p (k : AnisotropicRBF.t) (X : matrix) :
  kernel_shape n k → is_shape p n X → (0 < p)%nat →
  ∃ K G,
    AnisotropicRBF.__call__ k (of_matrix X) None true
    = Ok (KernelWithGradient (of_matrix K) (of_tensor3 G))
    ∧ ∀ a b t, (a < p)%nat → (b < p)%nat → (t < k.(AnisotropicRBF.ntheta))%nat →
        entry3 G a a t = 0 ∧ entry3 G a b t = entry3 G b a t.
Proof.
  intros Hk HX Hp.
  assert (HXne : X ≠ []) by (destruct HX as [HX _]; destruct X; [cbn in *; lia|done]).
  eexists _, _. split; [by apply (AnisotropicRBF_call_gradient n)|].
  pose proof HX as [Hlen _]. subst p.
  pose proof Hk as (_ & Hntheta & _). rewrite Hntheta.
  intros a b t Ha Hb Ht.
  rewrite !(entry3_K_gradient_computed (length X)) by
    (done || apply self_covariance_shape || by rewrite length_invLam_grad_computed).
  split.
  - rewrite vec_sub_self, quad_zeros. lra.
  - rewrite (vec_sub_opp (nth a X []) (nth b X [])). unfold quad. rewrite quad_opp.
    rewrite !entry_self_covariance by done.
    destruct (decide (a = b)) as [->|Hne].
    + by rewrite decide_True.
    + rewrite decide_False by done. by rewrite mahalanobis_sym.
Qed.

Lemma nth_translate c X i :
  (i < length X)%nat → nth i (translate c X) [] = zip_with Rplus (nth i X []) c.
Proof.
  intros Hi. destruct (lookup_lt_is_Some_2 X i Hi) as [r Hr].
  rewrite (nth_lookup_Some _ _ _ _ Hr). apply nth_lookup_Some.
  unfold translate. by rewrite list_lookup_fmap, Hr.
Qed.

Lemma vec_sub_translate u v c :
  (length u ≤ length c)%nat → (length v ≤ length c)%nat →
  vec_sub (zip_with Rplus u c) (zip_with Rplus v c) = vec_sub u v.
Proof.
  unfold vec_sub. revert v c. induction u as [|x u IH]; intros [|y v] [|z c] Hu Hv;
    cbn in *; try done; try lia.
  rewrite IH by lia. f_equal. lra.
Qed.

Lemma translate_shape p n c X : is_shape p n X → length c = n → is_shape p n (translate c X).
Proof.
  intros [Hlen HX] Hc. unfold translate. split; [by rewrite length_fmap|].
  apply Forall_fmap. eapply Forall_impl; [exact HX|]. cbn. intros r Hr.
  rewrite length_zip_with. lia.
Qed.

Lemma self_covariance_translate p n VI c X :
  is_shape p n X → length c = n →
  self_covariance VI (translate c X) = self_covariance VI X.
Proof.
  intros HX Hc. pose proof HX as [Hlen _].
  assert (Hlen' : length (translate c X) = length X) by (unfold translate; apply length_fmap).
  apply (matrix_ext (length X) (length X)).
  - rewrite <-Hlen' at 1 2. apply self_covariance_shape.
  - apply self_covariance_shape.
  - intros i j Hi Hj. rewrite !entry_self_covariance by (rewrite ?Hlen'; done).
    destruct (decide (i = j)); [done|].
    rewrite !nth_translate by done. unfold mahalanobis. cbv zeta.
    rewrite vec_sub_translate; [done| |];
      rewrite (is_shape_nth p n) by (done || lia); lia.
Qed.

(** X8: the kernel is stationary: moving every row of [X] (and of [Y])
    by one vector [c] changes neither the covariance matrix nor its
    gradient. *)
Theorem AnisotropicRBF_stationary n p q (k : AnisotropicRBF.t) (X Y : matrix) (c : vector) :
  is_shape p n X → is_shape q n Y → length c = n → (0 < p)%nat → (0 < q)%nat →
  AnisotropicRBF.__call__ k (of_matrix (translate c X)) None false
  = AnisotropicRBF.__call__ k (of_matrix X) None false
  ∧ AnisotropicRBF.__call__ k (of_matrix (translate c X))
      (Some (of_matrix (translate c Y))) false
    = AnisotropicRBF.__call__ k (of_matrix X) (Some (of_matrix Y)) false
  ∧ (kernel_shape n k →
       AnisotropicRBF.__call__ k (of_matrix (translate c X)) None true
       = AnisotropicRBF.__call__ k (of_matrix X) None true).
Proof.
  intros HX HY Hc Hp Hq.
  assert (HXne : X ≠ []) by (destruct HX as [HX _]; destruct X; [cbn in *; lia|done]).
  assert (HYne : Y ≠ []) by (destruct HY as [HY _]; destruct Y; [cbn in *; lia|done]).
  assert (HXne' : translate c X ≠ []) by (by destruct X).
  assert (HYne' : translate c Y ≠ []) by (by destruct Y).
  assert (Hrows : ∀ m (Z : matrix), is_shape m n Z → Forall (λ r, length r ≤ length c)%nat Z).
  { intros m Z [_ HZ]. eapply Forall_impl; [exact HZ|]. cbn. intros r Hr. lia. }
  split; [|split].
  - rewrite !AnisotropicRBF_call_self by done.
    by rewrite (self_covariance_translate p n).
  - assert (Hcols : ∀ m (Z : matrix), is_shape m n Z → (0 < m)%nat → ncols Z = n).
    { intros m Z [HlenZ HZ] Hm. destruct Z as [|r Z]; [cbn in *; lia|].
      apply Forall_cons in HZ as [Hr _]. done. }
    rewrite !AnisotropicRBF_call_cross; try done.
    2: { rewrite (Hcols p X), (Hcols q Y); done. }
    2: { rewrite (Hcols p (translate c X)), (Hcols q (translate c Y));
           (done || by apply translate_shape). }
    do 3 f_equal. unfold translate. rewrite <-list_fmap_compose.
    apply Forall_fmap_ext_1. eapply Forall_impl; [exact (Hrows p X HX)|].
    cbn. intros u Hu. rewrite <-list_fmap_compose.
    apply Forall_fmap_ext_1. eapply Forall_impl; [exact (Hrows q Y HY)|].
    cbn. intros v Hv. unfold mahalanobis. cbv zeta. by rewrite vec_sub_translate.
  - intros Hk. rewrite !(AnisotropicRBF_call_gradient n) by done.
    rewrite (self_covariance_translate p n) by done.
    do 3 f_equal. unfold K_gradient_computed. f_equal.
    unfold translate. rewrite <-!list_fmap_compose.
    apply Forall_fmap_ext_1. eapply Forall_impl; [exact (Hrows p X HX)|].
    cbn. intros u Hu. rewrite <-!list_fmap_compose.
    apply Forall_fmap_ext_1. eapply Forall_impl; [exact (Hrows p X HX)|].
    cbn. intros v Hv. by rewrite vec_sub_translate.
Qed.
End kernel_values.

(** ** More on the empirical kernel *)

Section more_empirical.
Import np.
Local Open Scope R_scope.

Lemma mapM_result_cons {A B} (f : A → result B) x l :
  mapM f (x :: l) = (y <- f x ;; ys <- mapM f l ;; Ok (y :: ys)).
Proof. reflexivity. Qed.

(** A traversal that fails raises the exception of its first failing
    element. *)
Lemma mapM_result_first_raise {A B} (f : A → result B) pre x post e :
  Forall (λ a, is_ok (f a)) pre → f x = Raise e → mapM f (pre ++ x :: post) = Raise e.
Proof.
  intros Hpre Hx. induction Hpre as [|a pre [b Hb] _ IH].
  - cbn [app]. rewrite mapM_result_cons, Hx. done.
  - cbn [app]. rewrite mapM_result_cons, Hb, IH. done.
Qed.

Lemma mapM_result_raises_class {A B} (f : A → result B) c l :
  (∀ x, is_ok (f x) ∨ raises (f x) c) → is_ok (mapM f l) ∨ raises (mapM f l) c.
Proof.
  intros Hf. induction l as [|x l IH]; [left; by eexists|].
  rewrite mapM_result_cons. destruct (Hf x) as [[y ->]|[msg ->]].
  - destruct IH as [[ys ->]|[msg ->]]; [left|right]; by eexists.
  - right. by eexists.
Qed.

Lemma item_ok_or_raises j a : is_ok (item j a) ∨ raises (item j a) IndexError.
Proof.
  destruct a as [x|items]; cbn; [right; by eexists|].
  destruct (items !! j); cbn; [left|right]; by eexists.
Qed.

Lemma column_ok_or_raises j a : is_ok (column j a) ∨ raises (column j a) IndexError.
Proof.
  destruct a as [x|rows]; cbn; [right; by eexists|].
  destruct (mapM_result_raises_class (item j) IndexError rows (item_ok_or_raises j))
    as [[ys ->]|[msg ->]]; [left|right]; by eexists.
Qed.

Lemma column_short_raises j M :
  Exists (λ r, (length r ≤ j)%nat) M → raises (column j (of_matrix M)) IndexError.
Proof.
  intros Hex. destruct (column_ok_or_raises j (of_matrix M)) as [[y Hy]|]; [|done].
  exfalso. unfold column, of_matrix in Hy.
  destruct (mapM (item j) (of_vector <$> M)) as [ys|e] eqn:Hys; [|discriminate].
  clear Hy. revert ys Hys. induction Hex as [r M Hr|r M _ IH]; intros ys.
  - cbn [fmap list_fmap]. rewrite mapM_result_cons.
    unfold item at 1, of_vector at 1. rewrite list_lookup_fmap, lookup_ge_None_2 by done.
    discriminate.
  - cbn [fmap list_fmap]. rewrite mapM_result_cons.
    destruct (item j (of_vector r)); [|discriminate]. cbn [rbind].
    destruct (mapM (item j) (of_vector <$> M)) as [ys'|e] eqn:Hys'; [|discriminate].
    intros _. by apply (IH ys').
Qed.

Lemma EmpiricalKernel_call_short_rows (self : EmpiricalKernel.t) (M : matrix)
    (Y : option ndarray) :
  Exists (λ r, (length r < 2)%nat) M →
  raises (EmpiricalKernel.__call__ self (of_matrix M) Y false) IndexError.
Proof.
  intros Hex. assert (HM : M ≠ []) by (intros ->; by apply Exists_nil in Hex).
  unfold EmpiricalKernel.__call__. rewrite atleast_2d_of_matrix by done.
  destruct (column_ok_or_raises 0 (of_matrix M)) as [[x0 ->]|[msg ->]];
    [|by eexists]. cbn [rbind].
  match goal with |- context [column 0 ?Y0] =>
    destruct (column_ok_or_raises 0 Y0) as [[y0 ->]|[msg ->]]; [|by eexists] end.
  cbn [rbind].
  destruct (column_short_raises 1 M) as [msg ->]; [|by eexists].
  eapply Exists_impl; [exact Hex|]. cbn. intros; lia.
Qed.

Lemma atleast_2d_of_vector v : atleast_2d (of_vector v) = of_matrix [v].
Proof. by destruct v. Qed.

(** X9: the kernel needs two columns: on a matrix [X] with a row of fewer
    than two entries, on a 1-d [X] of fewer than two entries (it is taken
    as one row) and on a scalar [X], a call raises [IndexError], whatever
    [Y] is. *)
Theorem EmpiricalKernel_needs_two_columns (self : EmpiricalKernel.t) (Y : option ndarray) :
  (∀ M : matrix, Exists (λ r, (length r < 2)%nat) M →
     raises (EmpiricalKernel.__call__ self (of_matrix M) Y false) IndexError)
  ∧ (∀ v : vector, (length v < 2)%nat →
       raises (EmpiricalKernel.__call__ self (of_vector v) Y false) IndexError)
  ∧ (∀ x : R, raises (EmpiricalKernel.__call__ self (Sc x) Y false) IndexError).
Proof.
  split; [|split].
  - intros M HM. by apply EmpiricalKernel_call_short_rows.
  - intros v Hv.
    assert (Heq : EmpiricalKernel.__call__ self (of_vector v) Y false
                  = EmpiricalKernel.__call__ self (of_matrix [v]) Y false).
    { unfold EmpiricalKernel.__call__.
      by rewrite atleast_2d_of_vector, atleast_2d_of_matrix. }
    rewrite Heq. apply EmpiricalKernel_call_short_rows. by left.
  - intros x.
    assert (Heq : EmpiricalKernel.__call__ self (Sc x) Y false
                  = EmpiricalKernel.__call__ self (of_matrix [[x]]) Y false) by reflexivity.
    rewrite Heq. apply EmpiricalKernel_call_short_rows. left. cbn. lia.
Qed.

Lemma nd_map_of_vector (f : R → R) v : nd_map f (of_vector v) = of_vector (f <$> v).
Proof.
  unfold nd_map, of_vector. cbn [nd_bind]. f_equal.
  induction v as [|y v IH]; [done|]. cbn [fmap list_fmap map nd_bind]. f_equal. exact IH.
Qed.

Lemma nd_bind_of_vector (f : R → ndarray) v : nd_bind f (of_vector v) = Nd (f <$> v).
Proof.
  unfold of_vector. cbn [nd_bind]. f_equal.
  induction v as [|y v IH]; [done|]. cbn [fmap list_fmap map nd_bind]. f_equal. exact IH.
Qed.

Lemma subtract_outer_of_vector u v :
  subtract_outer (of_vector u) (of_vector v) = of_matrix ((λ x, (λ y, x - y) <$> v) <$> u).
Proof.
  unfold subtract_outer, of_matrix. rewrite nd_bind_of_vector. f_equal.
  rewrite <-list_fmap_compose. apply list_fmap_ext. intros _ x _. cbn.
  apply nd_map_of_vector.
Qed.

Lemma subtract_outer_shift a u v :
  subtract_outer (of_vector ((λ x, x + a) <$> u)) (of_vector ((λ x, x + a) <$> v))
  = subtract_outer (of_vector u) (of_vector v).
Proof.
  rewrite !subtract_outer_of_vector. f_equal. rewrite <-list_fmap_compose.
  apply list_fmap_ext. intros _ x _. cbn. rewrite <-list_fmap_compose.
  apply list_fmap_ext. intros _ y _. cbn. lra.
Qed.

Lemma col_translate j c M :
  (j < length c)%nat → Forall (λ r, (j < length r)%nat) M →
  col j (translate c M) = (λ x, x + nth j c 0) <$> col j M.
Proof.
  intros Hj HM. unfold col, translate. rewrite <-!list_fmap_compose.
  apply Forall_fmap_ext_1. eapply Forall_impl; [exact HM|]. cbn. intros r Hr.
  destruct (lookup_lt_is_Some_2 r j Hr) as [x Hx].
  destruct (lookup_lt_is_Some_2 c j Hj) as [z Hz].
  rewrite (nth_lookup_Some _ _ _ _ Hx), (nth_lookup_Some _ _ _ _ Hz).
  apply nth_lookup_Some. rewrite lookup_zip_with, Hx. cbn. by rewrite Hz.
Qed.

(** X10: the kernel is stationary: on matrices whose rows have two
    entries or more, moving every row of [X] (and of [Y]) by one vector
    [c] does not change what the kernel returns: [fn] is given the same
    differences. *)
Theorem EmpiricalKernel_stationary (self : EmpiricalKernel.t) (X : matrix)
    (Y : option matrix) (c : vector) :
  X ≠ [] → Forall (λ r, (2 ≤ length r)%nat) X →
  (∀ Ym, Y = Some Ym → Forall (λ r, (2 ≤ length r)%nat) Ym) →
  (2 ≤ length c)%nat →
  is_ok (EmpiricalKernel.__call__ self (of_matrix X) (of_matrix <$> Y) false)
  ∧ EmpiricalKernel.__call__ self (of_matrix (translate c X))
      (of_matrix <$> (translate c <$> Y)) false
    = EmpiricalKernel.__call__ self (of_matrix X) (of_matrix <$> Y) false.
Proof.
  intros HX HXw HYw Hc.
  assert (Hw : ∀ M : matrix, Forall (λ r, (2 ≤ length r)%nat) M →
                 Forall (λ r, (2 ≤ length r)%nat) (translate c M)).
  { intros M HM. unfold translate. apply Forall_fmap. eapply Forall_impl; [exact HM|].
    cbn. intros r Hr. rewrite length_zip_with. lia. }
  rewrite !EmpiricalKernel_call_matrix; try done.
  - split; [by eexists|].
    assert (HdY : default (translate c X) (translate c <$> Y) = translate c (default X Y))
      by (by destruct Y).
    assert (HYw' : Forall (λ r, (2 ≤ length r)%nat) (default X Y)).
    { destruct Y as [Ym|]; cbn; [by apply HYw|done]. }
    rewrite HdY, !col_translate, !subtract_outer_shift; try done; try lia.
    all: eapply Forall_impl; [eassumption|]; cbn; intros; lia.
  - by destruct X.
  - by apply Hw.
  - intros Ym HYm. destruct Y as [Y0|]; [|done]. cbn in HYm. injection HYm as <-.
    by apply Hw, HYw.
Qed.
End more_empirical.

(** ** More on the interpolator *)

Section more_interp.
Context `{Numerics}.
Import np sklearn.

Lemma mapM_result_Forall2 {A B} (f : A → result B) l ys :
  Forall2 (λ x y, f x = Ok y) l ys → mapM f l = Ok ys.
Proof.
  induction 1 as [|x y l ys Hx _ IH]; [done|].
  by rewrite mapM_result_cons, Hx, IH.
Qed.

Lemma mapM_result_is_ok {A B} (f : A → result B) l :
  Forall (λ x, is_ok (f x)) l → is_ok (mapM f l).
Proof.
  induction 1 as [|x l [y Hy] _ [ys IH]]; [by eexists|].
  rewrite mapM_result_cons, Hy, IH. by eexists.
Qed.

Lemma getProperties_at (self : GPInterp.t) star h props fit :
  star_at h star props fit →
  GPInterp.getProperties self star h
  = (vals <- mapM (λ key, or_raise (props !! key) (Exc KeyError key))
               self.(GPInterp.attr_interp) ;;
     Ok (of_vector vals)).
Proof.
  intros (data & Hstar & Hdata). unfold GPInterp.getProperties, Star.data.
  rewrite Hstar. cbn [rbind]. unfold Star.getitem. by rewrite Hdata.
Qed.

(** X11: the covariates of a star are the values its data holds under
    the keys of [attr_interp], in the order of [attr_interp]; a key the
    data does not hold raises [KeyError] with that key, the first such key
    in the order of [attr_interp]. *)
Theorem getProperties_reads_attr_interp (self : GPInterp.t) (star : nat) (h : heap)
    (props : gmap string R) (fit : option nat) :
  star_at h star props fit →
  (∀ vals, Forall2 (λ key v, props !! key = Some v) self.(GPInterp.attr_interp) vals →
     GPInterp.getProperties self star h = Ok (of_vector vals))
  ∧ (∀ pre key post,
       self.(GPInterp.attr_interp) = pre ++ key :: post →
       Forall (λ k, is_Some (props !! k)) pre → props !! key = None →
       GPInterp.getProperties self star h = Raise (Exc KeyError key)).
Proof.
  intros Hstar. rewrite (getProperties_at self star h props fit Hstar). split.
  - intros vals Hvals. rewrite (mapM_result_Forall2 _ _ vals); [done|].
    eapply Forall2_impl; [exact Hvals|]. cbn. by intros key v ->.
  - intros pre key post -> Hpre Hkey.
    rewrite (mapM_result_first_raise _ pre key post (Exc KeyError key)); [done| |].
    + eapply Forall_impl; [exact Hpre|]. cbn. intros k [v ->]. by eexists.
    + by rewrite Hkey.
Qed.

(** X12: [solve] reads the covariates of every star before the
    parameters of any: the first star whose covariates cannot be read
    decides the exception; and when all covariates can be read, the
    first star without a fit makes [solve] raise [AttributeError]. *)
Theorem solve_reads_covariates_then_fits (self : GPInterp.t) (h : heap)
    (pre post : list nat) (s : nat) :
  (∀ e, Forall (λ s', is_ok (GPInterp.getProperties self s' h)) pre →
        GPInterp.getProperties self s h = Raise e →
        GPInterp.solve self (Some (pre ++ s :: post)) h = Raise e)
  ∧ (∀ data,
       Forall (λ s', is_ok (GPInterp.getProperties self s' h)) (pre ++ s :: post) →
       Forall (has_fit h) pre → h !! s = Some (OStar data None) →
       GPInterp.solve self (Some (pre ++ s :: post)) h
       = Raise (Exc AttributeError "'NoneType' object has no attribute 'params'")).
Proof.
  split.
  - intros e Hpre Hs. unfold GPInterp.solve. cbn [or_raise rbind].
    by rewrite (mapM_result_first_raise _ pre s post e).
  - intros data Hprops Hpre Hs. unfold GPInterp.solve. cbn [or_raise rbind].
    destruct (mapM_result_is_ok _ _ Hprops) as [X ->]. cbn [rbind].
    rewrite (mapM_result_first_raise _ pre s post
               (Exc AttributeError "'NoneType' object has no attribute 'params'")); [done| |].
    + eapply Forall_impl; [exact Hpre|]. cbn.
      intros s' (d & f & sf & Hs' & Hf). unfold Star.fit, Star.fit_params.
      rewrite Hs'. cbn [rbind]. rewrite Hf. by eexists.
    + unfold Star.fit. by rewrite Hs.
Qed.

(** X13: when [interpolateList] fails before its loop, nothing has been
    allocated: on an empty list of stars it raises [ValueError] (the
    regressor refuses an array without rows); the first star whose
    covariates cannot be read decides the exception; and an exception of
    the prediction is passed on. *)
Theorem interpolateList_early_failure_allocates_nothing (self : GPInterp.t) (h : heap) :
  GPInterp.interpolateList self [] h
  = (Raise (Exc ValueError "Expected 2D array, got 1D array instead"), h)
  ∧ (∀ pre s post e,
       Forall (λ s', is_ok (GPInterp.getProperties self s' h)) pre →
       GPInterp.getProperties self s h = Raise e →
       GPInterp.interpolateList self (pre ++ s :: post) h = (Raise e, h))
  ∧ (∀ stars Xstar e,
       mapM (λ star, GPInterp.getProperties self star h) stars = Ok Xstar →
       GPInterp._predict self (array Xstar) = Raise e →
       GPInterp.interpolateList self stars h = (Raise e, h)).
Proof.
  split; [reflexivity|]. split.
  - intros pre s post e Hpre Hs. unfold GPInterp.interpolateList, hbind, hread.
    by rewrite (mapM_result_first_raise _ pre s post e).
  - intros stars Xstar e HX Hy. unfold GPInterp.interpolateList, hbind, hread.
    by rewrite HX, Hy.
Qed.

(** X14: an interpolator constructed with [npca > 0] cannot interpolate
    before [solve]: the principal-component transform does not exist yet,
    so [interpolateList] raises for every list of stars, and allocates
    nothing; when the regressor does predict, the exception is
    [AttributeError]. *)
Theorem interpolateList_before_solve_with_pca_raises (attr_interp : option (list string))
    (kernel : option kernel_obj) (optimizer : option string) (npca : Z)
    (stars : list nat) (h : heap) :
  (npca > 0)%Z →
  let self := GPInterp.__init__ attr_interp kernel optimizer npca in
  ∃ e, GPInterp.interpolateList self stars h = (Raise e, h)
       ∧ ∀ Xstar y,
           mapM (λ star, GPInterp.getProperties self star h) stars = Ok Xstar →
           gp_predict self.(GPInterp.gp) (array Xstar) = Ok y →
           e = Exc AttributeError "'GPInterp' object has no attribute '_pca'".
Proof.
  intros Hnpca self. unfold GPInterp.interpolateList, hbind, hread.
  destruct (mapM _ stars) as [Xstar|e] eqn:HX.
  2: { exists e. split; [done|]. intros ?? [=]. }
  unfold GPInterp._predict.
  destruct (gp_predict _ (array Xstar)) as [y|e] eqn:Hy.
  2: { exists e. split; [done|]. intros X1 y1 [= <-] Hy1. rewrite Hy in Hy1. discriminate. }
  cbn [rbind]. rewrite decide_True by done. cbn.
  eexists. split; [done|]. done.
Qed.

(** X15: a [solve] that returns was given at least one star; it leaves
    the configuration of the interpolator as it was (the covariate names,
    the kernel, [npca], the regressor's kernel and optimizer), stores a
    fitted regressor and, when [npca > 0], a fitted whitening transform of
    [npca] components; with [npca <= 0] the transform is not touched. *)
Theorem solve_keeps_configuration (self self' : GPInterp.t) (stars : option (list nat))
    (h : heap) :
  GPInterp.solve self stars h = Ok self' →
  (∃ s rest, stars = Some (s :: rest))
  ∧ self'.(GPInterp.attr_interp) = self.(GPInterp.attr_interp)
  ∧ self'.(GPInterp.kernel) = self.(GPInterp.kernel)
  ∧ self'.(GPInterp.npca) = self.(GPInterp.npca)
  ∧ self'.(GPInterp.gp).(gp_kernel) = self.(GPInterp.gp).(gp_kernel)
  ∧ self'.(GPInterp.gp).(gp_optimizer) = self.(GPInterp.gp).(gp_optimizer)
  ∧ is_Some self'.(GPInterp.gp).(gp_state)
  ∧ if decide (self.(GPInterp.npca) > 0)%Z
    then ∃ pca, self'.(GPInterp._pca) = Some pca
                ∧ pca.(n_components) = self.(GPInterp.npca)
                ∧ pca.(whiten) = true
                ∧ is_Some pca.(pca_state)
    else self'.(GPInterp._pca) = self.(GPInterp._pca).
Proof.
  unfold GPInterp.solve. destruct stars as [stars|]; [|discriminate]. cbn [or_raise rbind].
  destruct (mapM _ stars) as [X|e] eqn:HX; [|discriminate]. cbn [rbind].
  destruct (mapM _ stars) as [y|e] eqn:Hy in |- *; [|discriminate]. cbn [rbind].
  assert (Hgp : ∀ X y gp', gp_fit self.(GPInterp.gp) X y = Ok gp' →
            X ≠ array [] ∧ gp'.(gp_kernel) = self.(GPInterp.gp).(gp_kernel)
            ∧ gp'.(gp_optimizer) = self.(GPInterp.gp).(gp_optimizer)
            ∧ is_Some gp'.(gp_state)).
  { intros X0 y0 gp'. unfold gp_fit.
    destruct (check_array X0) as [Xm|] eqn:HXm; [|discriminate]. cbn [rbind].
    destruct (len y0); [|discriminate]. cbn [rbind].
    destruct (decide _); [|discriminate].
    destruct (gp_fit_core _ _ _ _); [|discriminate]. cbn [rbind].
    intros [= <-]. cbn. split; [|by eauto]. intros ->. discriminate. }
  assert (Hne : ∀ X0 : list ndarray, array X0 ≠ array [] → X = X0 →
            ∃ s rest, Some stars = Some (s :: rest)).
  { intros X0 HX0 <-. destruct stars as [|s rest]; [|by eauto].
    exfalso. apply HX0. cbn in HX. by injection HX as <-. }
  unfold GPInterp._fit. destruct (decide (GPInterp.npca self > 0)%Z) as [Hn|Hn].
  - unfold pca_fit. destruct (check_array (array y)); [|discriminate]. cbn [rbind].
    destruct (pca_fit_core _ _) as [st|]; [|discriminate]. cbn [rbind].
    destruct (pca_transform _ _) as [y'|]; [|discriminate]. cbn [rbind].
    destruct (gp_fit _ _ _) as [gp'|] eqn:Hfit; [|discriminate]. cbn [rbind].
    intros [= <-]. cbn.
    destruct (Hgp _ _ _ Hfit) as (HXne & Hk & Ho & Hst).
    split; [by apply (Hne X)|]. repeat (split; [done|]).
    eexists. split; [done|]. cbn. eauto.
  - destruct (gp_fit _ _ _) as [gp'|] eqn:Hfit; [|discriminate]. cbn [rbind].
    intros [= <-]. cbn.
    destruct (Hgp _ _ _ Hfit) as (HXne & Hk & Ho & Hst).
    split; [by apply (Hne X)|]. done.
Qed.

(** X16: [interpolateList] returns one star for each pair of a row of
    the prediction and an input star, in order (the shorter of the two
    decides the length); for an input star that has a fit, the new star
    is on the same data and has a new fit that holds the star's own row
    of the prediction and the covariance record of the old fit. *)
Theorem interpolateList_fitted_star_gets_own_row (self : GPInterp.t) (stars out : list nat)
    (h h' : heap) :
  GPInterp.interpolateList self stars h = (Ok out, h') →
  ∃ Xstar y rows,
    mapM (λ star, GPInterp.getProperties self star h) stars = Ok Xstar
    ∧ GPInterp._predict self (array Xstar) = Ok y
    ∧ GPInterp.iter y = Ok rows
    ∧ length out = length rows `min` length stars
    ∧ ∀ i star y0 data fo old,
        stars !! i = Some star → rows !! i = Some y0 →
        h !! star = Some (OStar data (Some fo)) → h !! fo = Some (OStarFit old) →
        ∃ new f,
          out !! i = Some new
          ∧ h !! new = None ∧ h !! f = None
          ∧ h' !! new = Some (OStar data (Some f))
          ∧ h' !! f = Some (OStarFit {| params := y0; params_cov := old.(params_cov) |}).
Proof.
  intros Hrun.
  pose proof (framed_interpolateList self stars h) as Hsub. rewrite Hrun in Hsub.
  cbn in Hsub.
  pose proof (interpolateList_new self stars h out h' Hrun) as Hnew.
  destruct (interpolateList_spec self stars h out h' Hrun)
    as (Xstar & y & rows & HX & Hy & Hrows & Hlen & Hbuilt).
  exists Xstar, y, rows. repeat (split; [done|]).
  intros i star y0 data fo old Hstar Hy0 Hs Hfo.
  destruct (Hbuilt i y0 star Hy0 Hstar)
    as (new & Hout & data' & oldfit & f & fit & Hs' & Hnew' & Hf & Hfit).
  rewrite (lookup_weaken _ _ _ _ Hs Hsub) in Hs'. injection Hs' as <- <-.
  destruct Hfit as (old' & Hold' & ->).
  rewrite (lookup_weaken _ _ _ _ Hfo Hsub) in Hold'. injection Hold' as <-.
  rewrite Forall_forall in Hnew.
  destruct (Hnew new) as (Hn & d2 & f2 & Hn2 & Hf2);
    [eapply list_elem_of_lookup_2; eassumption|].
  rewrite Hnew' in Hn2. injection Hn2 as <- <-.
  exists new, f. done.
Qed.

(** X17: [interpolate] on a star that has a fit returns a new star on
    the same data whose new fit holds the first row of the prediction for
    that star's covariates, and the covariance record of the old fit. *)
Theorem interpolate_fitted_star (self : GPInterp.t) (star new : nat) (h h' : heap)
    (data fo : nat) (old : StarFit) :
  GPInterp.interpolate self star h = (Ok new, h') →
  h !! star = Some (OStar data (Some fo)) → h !! fo = Some (OStarFit old) →
  ∃ x y y0 rows f,
    GPInterp.getProperties self star h = Ok x
    ∧ GPInterp._predict self (array [x]) = Ok y
    ∧ GPInterp.iter y = Ok (y0 :: rows)
    ∧ h !! new = None ∧ h !! f = None
    ∧ h' !! new = Some (OStar data (Some f))
    ∧ h' !! f = Some (OStarFit {| params := y0; params_cov := old.(params_cov) |}).
Proof.
  unfold GPInterp.interpolate, hbind, hread.
  destruct (GPInterp.interpolateList self [star] h) as [[out|e] h1] eqn:Hrun; [|discriminate].
  destruct (out !! 0) as [new'|] eqn:Hout; cbn; [|discriminate].
  intros [= -> ->] Hs Hfo.
  pose proof (framed_interpolateList self [star] h) as Hsub. rewrite Hrun in Hsub.
  cbn in Hsub.
  pose proof (interpolateList_new self [star] h out h' Hrun) as Hnew.
  destruct (interpolateList_spec self [star] h out h' Hrun)
    as (Xstar & y & rows & HX & Hy & Hrows & Hlen & Hbuilt).
  rewrite mapM_result_cons in HX.
  destruct (GPInterp.getProperties self star h) as [x|] eqn:Hx; [|discriminate].
  cbn in HX. injection HX as <-.
  destruct rows as [|y0 rows]; [destruct out; [discriminate|cbn in Hlen; lia]|].
  destruct (Hbuilt 0 y0 star eq_refl eq_refl)
    as (new' & Hout' & data' & oldfit & f & fit & Hs' & Hnew' & Hf & Hfit).
  rewrite Hout in Hout'. injection Hout' as <-.
  rewrite (lookup_weaken _ _ _ _ Hs Hsub) in Hs'. injection Hs' as <- <-.
  destruct Hfit as (old' & Hold' & ->).
  rewrite (lookup_weaken _ _ _ _ Hfo Hsub) in Hold'. injection Hold' as <-.
  rewrite Forall_forall in Hnew.
  destruct (Hnew new) as (Hn & d2 & f2 & Hn2 & Hf2);
    [eapply list_elem_of_lookup_2; eassumption|].
  rewrite Hnew' in Hn2. injection Hn2 as <- <-.
  exists x, y, y0, rows, f. done.
Qed.

(** X18: [initialize] is [solve] followed by [interpolateList] on the
    fitted interpolator: it leaves every object of the heap as it was;
    when [solve] raises, [initialize] raises the same exception and
    allocates nothing; and what it returns is the interpolator that
    [solve] fitted with the stars that this interpolator gives, all of
    them new. *)
Theorem initialize_solves_then_interpolates (self : GPInterp.t) (stars : list nat)
    (h : heap) :
  h ⊆ (GPInterp.initialize self stars h).2
  ∧ (∀ e, GPInterp.solve self (Some stars) h = Raise e →
          GPInterp.initialize self stars h = (Raise e, h))
  ∧ (∀ self' out h',
       GPInterp.initialize self stars h = (Ok (self', out), h') →
       GPInterp.solve self (Some stars) h = Ok self'
       ∧ GPInterp.interpolateList self' stars h = (Ok out, h')
       ∧ Forall (new_star h h') out).
Proof.
  unfold GPInterp.initialize, hbind, hread, hret. split; [|split].
  - destruct (GPInterp.solve self (Some stars) h) as [self'|e]; [|done].
    pose proof (framed_interpolateList self' stars h) as Hsub.
    by destruct (GPInterp.interpolateList self' stars h) as [[out|e] h1].
  - by intros e ->.
  - intros self' out h'.
    destruct (GPInterp.solve self (Some stars) h) as [self1|e]; [|discriminate].
    destruct (GPInterp.interpolateList self1 stars h) as [[out1|e] h1] eqn:Hrun;
      [|discriminate].
    intros [= -> -> ->]. split; [done|]. split; [done|].
    by apply (interpolateList_new self' stars).
Qed.
End more_interp.

(** * Properties of the configuration functions *)

Section config_properties.
Context `{Outside}.
Import logging.

(** ** [setup_logger] *)

Lemma logging_level_of_int (v : Z) :
  config.logging_level_of (PInt v)
  = if decide (v = 0)%Z then Ok CRITICAL
    else if decide (v = 1)%Z then Ok WARNING
    else if decide (v = 2)%Z then Ok INFO
    else if decide (v = 3)%Z then Ok DEBUG
    else Raise (Exc KeyError (py_repr (PInt v))).
Proof.
  unfold config.logging_level_of, config.logging_levels. cbn.
  repeat (case_bool_decide; [subst; repeat case_decide; try done; try lia|]).
  repeat case_decide; try lia; done.
Qed.

Lemma logging_level_of_in_range (v : Z) :
  (0 ≤ v ≤ 3)%Z →
  config.logging_level_of (PInt v) = Ok (nth (Z.to_nat v) [50; 30; 20; 10]%Z 0%Z).
Proof.
  intros Hv. rewrite logging_level_of_int.
  repeat case_decide; subst; try reflexivity. lia.
Qed.

(** X19: a verbosity that is an integer outside 0..3 makes [setup_logger]
    raise [KeyError] before it touches the logger: the loggers and the
    outside are as they were. *)
Theorem setup_logger_verbosity_out_of_range (v : Z) (log_file : option string)
    (w : config.world) :
  (v < 0 ∨ 3 < v)%Z →
  config.setup_logger (PInt v) log_file w = (Raise (Exc KeyError (py_repr (PInt v))), w).
Proof.
  intros Hv. unfold config.setup_logger, config.wbind, config.wlift.
  rewrite logging_level_of_int. repeat case_decide; try lia. done.
Qed.

(** The world after [setup_logger] attached the handler [h] and set the
    level [lvl]. *)
Lemma setup_logger_steps (lvl : Z) (h : Handler) (r : registry) (e : ext) :
  (config.wbind
     (config.update_logger "piff" (addHandler (setFormatter "%(message)s" h)))
     (λ _, config.wbind (config.update_logger "piff" (setLevel lvl))
             (λ _, config.wret "piff"%string)))
    {| config.loggers :=
         <["piff"%string := {| handlers := []; level := (getLogger "piff" r).(level) |}]> r;
       config.outside := e |}
  = (Ok "piff"%string,
     {| config.loggers :=
          <["piff"%string := {| handlers := [setFormatter "%(message)s" h];
                                 level := lvl |}]> r;
        config.outside := e |}).
Proof.
  unfold config.wbind, config.update_logger, config.wret, getLogger. cbn.
  rewrite !lookup_insert_eq. cbn. rewrite !insert_insert_eq.
  unfold addHandler. cbn. rewrite decide_False by (by intros ?%elem_of_nil). done.
Qed.

(** X20: [setup_logger] replaces the handlers of the logger, it does not
    add to them: with a verbosity in 0..3, whatever handlers and level
    the [piff] logger had before, it has afterwards the one new handler
    (to the stream, or to the log file if that can be opened) and the
    level of the verbosity (50, 30, 20, 10), and no other logger is
    touched; so the last of two calls decides.  When the log file cannot
    be opened, the exception leaves the logger without any handler. *)
Theorem setup_logger_replaces_handlers (v : Z) (w : config.world) :
  (0 ≤ v ≤ 3)%Z →
  let lvl := nth (Z.to_nat v) [50; 30; 20; 10]%Z 0%Z in
  let handler f := {| target := f; formatter := Some "%(message)s"%string |} in
  config.setup_logger (PInt v) None w
  = (Ok "piff"%string,
     {| config.loggers :=
          <["piff"%string := {| handlers := [handler None]; level := lvl |}]>
            w.(config.loggers);
        config.outside := w.(config.outside) |})
  ∧ (∀ f e, open_log f w.(config.outside) = (Ok tt, e) →
       config.setup_logger (PInt v) (Some f) w
       = (Ok "piff"%string,
          {| config.loggers :=
               <["piff"%string := {| handlers := [handler (Some f)]; level := lvl |}]>
                 w.(config.loggers);
             config.outside := e |}))
  ∧ (∀ f ex e, open_log f w.(config.outside) = (Raise ex, e) →
       config.setup_logger (PInt v) (Some f) w
       = (Raise ex,
          {| config.loggers :=
               <["piff"%string :=
                   {| handlers := [];
                      level := (getLogger "piff" w.(config.loggers)).(level) |}]>
                 w.(config.loggers);
             config.outside := e |}))
  ∧ (∀ v' log_file w', (0 ≤ v' ≤ 3)%Z →
       config.setup_logger (PInt v') log_file w = (Ok "piff"%string, w') →
       config.setup_logger (PInt v) None w'
       = (Ok "piff"%string,
          {| config.loggers :=
               <["piff"%string := {| handlers := [handler None]; level := lvl |}]>
                 w.(config.loggers);
             config.outside := w'.(config.outside) |})).
Proof.
  intros Hv lvl handler.
  assert (Hnone : ∀ w0 : config.world,
    config.setup_logger (PInt v) None w0
    = (Ok "piff"%string,
       {| config.loggers :=
            <["piff"%string := {| handlers := [handler None]; level := lvl |}]>
              w0.(config.loggers);
          config.outside := w0.(config.outside) |})).
  { intros w0. unfold config.setup_logger.
    unfold config.wbind at 1, config.wlift. rewrite logging_level_of_in_range by done.
    unfold config.wbind at 1, config.update_logger at 1. cbn [fst snd].
    unfold config.wbind at 1, config.wret at 1.
    apply setup_logger_steps. }
  assert (Hfile : ∀ (w0 : config.world) f e, open_log f w0.(config.outside) = (Ok tt, e) →
    config.setup_logger (PInt v) (Some f) w0
    = (Ok "piff"%string,
       {| config.loggers :=
            <["piff"%string := {| handlers := [handler (Some f)]; level := lvl |}]>
              w0.(config.loggers);
          config.outside := e |})).
  { intros w0 f e Hopen. unfold config.setup_logger.
    unfold config.wbind at 1, config.wlift. rewrite logging_level_of_in_range by done.
    unfold config.wbind at 1, config.update_logger at 1. cbn [fst snd].
    unfold config.wbind at 1 2, config.wext at 1, config.wret at 1.
    cbn [config.outside config.loggers]. rewrite Hopen.
    apply setup_logger_steps. }
  split; [apply Hnone|]. split; [apply Hfile|]. split.
  - intros f ex e Hopen. unfold config.setup_logger.
    unfold config.wbind at 1, config.wlift. rewrite logging_level_of_in_range by done.
    unfold config.wbind at 1, config.update_logger at 1. cbn [fst snd].
    unfold config.wbind at 1 2, config.wext at 1.
    cbn [config.outside config.loggers]. by rewrite Hopen.
  - intros v' log_file w' Hv' Hfirst. rewrite Hnone. do 2 f_equal.
    assert (Hlog : ∃ l, w'.(config.loggers) = <["piff"%string := l]> w.(config.loggers)).
    { revert Hfirst. unfold config.setup_logger.
      unfold config.wbind at 1, config.wlift. rewrite logging_level_of_in_range by done.
      unfold config.wbind at 1, config.update_logger at 1. cbn [fst snd].
      destruct log_file as [f|].
      - unfold config.wbind at 1 2, config.wext at 1, config.wret at 1.
        cbn [config.outside config.loggers].
        destruct (open_log f (config.outside w)) as [[[]|ex] e]; [|discriminate].
        rewrite setup_logger_steps. intros [= <-]. by eexists.
      - unfold config.wbind at 1, config.wret at 1.
        rewrite setup_logger_steps. intros [= <-]. by eexists. }
    destruct Hlog as [l ->]. by rewrite insert_insert_eq.
Qed.

(** ** [parse_variables] *)

Lemma split_eq_variable_text k s :
  config.split_eq k = None → config.split_eq (variable_text (k, s)) = Some (k, s).
Proof.
  unfold variable_text. cbn [fst snd]. induction k as [|c k IH]; [done|].
  change (String c k +:+ "=" +:+ s) with (String c (k +:+ "=" +:+ s)).
  cbn [config.split_eq]. destruct (Ascii.eqb c _) eqn:Hc; [done|].
  destruct (config.split_eq k) as [[]|] eqn:Hk; [done|]. intros _.
  by rewrite IH.
Qed.

Lemma split_eq_Some v k s :
  config.split_eq v = Some (k, s) → v = variable_text (k, s) ∧ config.split_eq k = None.
Proof.
  unfold variable_text. cbn [fst snd]. revert k. induction v as [|c v IH]; intros k; [done|].
  cbn [config.split_eq]. destruct (Ascii.eqb c _) eqn:Hc.
  - intros [= <- <-]. apply Ascii.eqb_eq in Hc as ->. done.
  - destruct (config.split_eq v) as [[k' s']|]; [|done]. intros [= <- ->].
    destruct (IH k' eq_refl) as [-> Hk'].
    change (String c k' +:+ "=" +:+ s) with (String c (k' +:+ "=" +:+ s)).
    split; [done|]. cbn [config.split_eq]. by rewrite Hc, Hk'.
Qed.

(** Logging leaves the loggers as they are. *)
Lemma log_loggers name lvl msg (w : config.world) :
  ∃ e, config.log name lvl msg w
       = (Ok tt, {| config.loggers := w.(config.loggers); config.outside := e |}).
Proof. by eexists. Qed.

Lemma parse_loop_without_eq pre v post logger new_params (w : config.world) :
  Forall (λ u, is_Some (config.split_eq u)) pre → config.split_eq v = None →
  ∃ w', config.parse_loop (pre ++ v :: post) logger new_params w
        = (Raise (Exc ValueError
             ("Improper variable specificationi: " +:+ v +:+ ".  Use field.item=value.")), w').
Proof.
  intros Hpre Hv. revert new_params w.
  induction Hpre as [|u pre [[k s] Hu] _ IH]; intros new_params w; cbn [app config.parse_loop].
  - unfold config.wbind, config.log, config.wlift. rewrite Hv. by eexists.
  - unfold config.wbind at 1, config.log at 1. rewrite Hu.
    unfold config.wbind at 1.
    destruct (yaml_load s) as [parsed|err].
    + unfold config.wret at 1. apply IH.
    + unfold config.wbind at 1 2, config.log at 1 2, config.wret at 1. apply IH.
Qed.

(** X21: a variable without ['='] makes [parse_variables] raise
    [ValueError] naming that variable, the first such one, and the
    configuration is not updated, whatever the variables before and
    after it say. *)
Theorem parse_variables_without_eq_raises (config : cfg) (pre post : list string)
    (v logger : string) (w : config.world) :
  Forall (λ u, is_Some (config.split_eq u)) pre → config.split_eq v = None →
  (config.parse_variables config (pre ++ v :: post) logger w).1
  = (Raise (Exc ValueError
       ("Improper variable specificationi: " +:+ v +:+ ".  Use field.item=value.")),
     config).
Proof.
  intros Hpre Hv. unfold config.parse_variables.
  destruct (parse_loop_without_eq pre v post logger [] w Hpre Hv) as [w' ->]. done.
Qed.

Lemma pydict_get_set_eq {V} k (v : V) d : pydict.get k (pydict.set k v d) = Some v.
Proof.
  induction d as [|[k' v'] d IH]; cbn; [by rewrite decide_True|].
  destruct (decide (k' = k)) as [->|Hne]; cbn; [by rewrite decide_True|].
  by rewrite decide_False.
Qed.

Lemma pydict_get_set_ne {V} k k' (v : V) d :
  k ≠ k' → pydict.get k' (pydict.set k v d) = pydict.get k' d.
Proof.
  intros Hne. induction d as [|[k0 v0] d IH]; cbn; [by rewrite decide_False|].
  destruct (decide (k0 = k)) as [->|Hne0]; cbn.
  - by rewrite !decide_False.
  - by rewrite IH.
Qed.

(** The dict the loop builds from well-formed variables. *)
Lemma parse_loop_pairs pairs logger new_params (w : config.world) :
  Forall (λ kv, config.split_eq kv.1 = None) pairs →
  ∃ e, config.parse_loop (variable_text <$> pairs) logger new_params w
       = (Ok (foldl (λ d kv, pydict.set kv.1 (value_of kv.2) d) new_params pairs),
          {| config.loggers := w.(config.loggers); config.outside := e |}).
Proof.
  intros Hpairs. revert new_params w.
  induction Hpairs as [|[k s] pairs Hk _ IH]; intros new_params w;
    cbn [fmap list_fmap config.parse_loop foldl].
  - destruct w. by eexists.
  - unfold config.wbind at 1, config.log at 1.
    rewrite (split_eq_variable_text k s Hk). unfold config.wbind at 1.
    unfold value_of. cbn [fst snd]. destruct (yaml_load s) as [parsed|err].
    + unfold config.wret at 1.
      match goal with |- context [config.parse_loop _ _ ?np ?w1] =>
        destruct (IH np w1) as [e ->] end.
      by eexists.
    + unfold config.wbind at 1 2, config.log at 1 2, config.wret at 1.
      match goal with |- context [config.parse_loop _ _ ?np ?w1] =>
        destruct (IH np w1) as [e ->] end.
      by eexists.
Qed.

Lemma get_foldl_set_notin {V} (f : string → V) k (pairs : list (string * string)) d :
  k ∉ pairs.*1 →
  pydict.get k (foldl (λ d kv, pydict.set kv.1 (f kv.2) d) d pairs) = pydict.get k d.
Proof.
  revert d. induction pairs as [|[k' s'] pairs IH]; intros d Hk; [done|].
  cbn in *. apply not_elem_of_cons in Hk as [Hne Hk].
  rewrite IH by done. by apply pydict_get_set_ne.
Qed.

(** X22: for variables [key=value] whose keys hold no ['='],
    [parse_variables] passes to [UpdateConfig] a dict that maps each key
    to the value of the last variable with that key, and holds no other
    key; a variable is split at its first ['='], so a value may hold
    ['='] itself; the value is what the YAML parser makes of the text,
    or the text when it fails.  The loggers are left as they are. *)
Theorem parse_variables_last_value_wins (config : cfg) (pairs : list (string * string))
    (logger : string) (w : config.world) :
  Forall (λ kv, config.split_eq kv.1 = None) pairs →
  ∃ new_params w',
    config.parse_variables config (variable_text <$> pairs) logger w
    = (UpdateConfig config new_params, w')
    ∧ w'.(config.loggers) = w.(config.loggers)
    ∧ (∀ k, k ∉ pairs.*1 → pydict.get k new_params = None)
    ∧ (∀ pre k s post, pairs = pre ++ (k, s) :: post → k ∉ post.*1 →
         pydict.get k new_params = Some (value_of s)).
Proof.
  intros Hpairs. unfold config.parse_variables.
  destruct (parse_loop_pairs pairs logger [] w Hpairs) as [e ->].
  eexists _, _. split; [reflexivity|]. split; [reflexivity|]. split.
  - intros k Hk. by rewrite get_foldl_set_notin.
  - intros pre k s post -> Hk. rewrite foldl_app. cbn [foldl fst snd].
    rewrite get_foldl_set_notin by done. apply pydict_get_set_eq.
Qed.

(** ** The drivers *)

Lemma require_fields_first_missing pre key post (config : cfg) :
  Forall (λ k, pydict.contains k config = true) pre → pydict.contains key config = false →
  config.require_fields (pre ++ key :: post) config
  = Raise (Exc ValueError (key +:+ " field is required in config dict")).
Proof.
  intros Hpre Hkey. induction Hpre as [|k pre Hk _ IH]; cbn.
  - by rewrite Hkey.
  - by rewrite Hk.
Qed.

Lemma require_fields_ok keys (config : cfg) :
  Forall (λ k, pydict.contains k config = true) keys → config.require_fields keys config = Ok tt.
Proof. induction 1 as [|k keys Hk _ IH]; cbn; [done|]. by rewrite Hk. Qed.

(** X23: [piffify] checks the fields [input], [output] and [psf], in
    this order, before anything else: the first one that the
    configuration lacks gives the [ValueError], and neither a logger is
    set up nor a collaborator called. *)
Theorem piffify_checks_fields_first (config : cfg) (logger : option string)
    (w : config.world) (pre post : list string) (key : string) :
  ["input"; "output"; "psf"]%string = pre ++ key :: post →
  Forall (λ k, pydict.contains k config = true) pre → pydict.contains key config = false →
  config.piffify config logger w
  = (Raise (Exc ValueError (key +:+ " field is required in config dict")), w).
Proof.
  intros Hkeys Hpre Hkey. unfold config.piffify, config.wbind at 1, config.wlift at 1.
  by rewrite Hkeys, (require_fields_first_missing pre key post).
Qed.

(** X24: [process] and [plotify] set up the logger before they check the
    fields.  Without a logger given, a verbosity that [setup_logger]
    refuses decides the exception, whatever fields are missing; with a
    verbosity it takes, a missing [input] gives the [ValueError] but the
    [piff] logger has been set up anew; with a logger given, a missing
    [input] gives the [ValueError] and nothing has happened. *)
Theorem drivers_set_up_logger_first (config : cfg) (w : config.world) :
  let verbose := default (PInt 1) (pydict.get "verbose" config) in
  let missing := Exc ValueError "input field is required in config dict" in
  (∀ e, config.logging_level_of verbose = Raise e →
        config.process config None w = (Raise e, w)
        ∧ config.plotify config None w = (Raise e, w))
  ∧ (∀ lvl, config.logging_level_of verbose = Ok lvl →
        pydict.contains "input" config = false →
        let w' :=
          {| config.loggers :=
               <["piff"%string :=
                   {| handlers := [{| target := None;
                                      formatter := Some "%(message)s"%string |}];
                      level := lvl |}]> w.(config.loggers);
             config.outside := w.(config.outside) |} in
        config.process config None w = (Raise missing, w')
        ∧ config.plotify config None w = (Raise missing, w'))
  ∧ (∀ logger, pydict.contains "input" config = false →
        config.process config (Some logger) w = (Raise missing, w)
        ∧ config.plotify config (Some logger) w = (Raise missing, w)).
Proof.
  intros verbose missing. split; [|split].
  - intros e He.
    assert (Hsetup : config.logger_or_setup config None w = (Raise e, w)).
    { unfold config.logger_or_setup. fold verbose.
      unfold config.setup_logger, config.wbind, config.wlift. by rewrite He. }
    unfold config.process, config.plotify, config.wbind. by rewrite Hsetup.
  - intros lvl Hlvl Hin w'.
    assert (Hsetup : config.logger_or_setup config None w = (Ok "piff"%string, w')).
    { unfold config.logger_or_setup. fold verbose. unfold config.setup_logger.
      unfold config.wbind at 1, config.wlift. rewrite Hlvl.
      unfold config.wbind at 1, config.update_logger at 1. cbn [fst snd].
      unfold config.wbind at 1, config.wret at 1.
      apply (setup_logger_steps lvl {| target := None; formatter := None |}). }
    unfold config.process, config.plotify, config.wbind. rewrite Hsetup.
    unfold config.wlift. cbn [config.require_fields]. by rewrite Hin.
  - intros logger Hin.
    unfold config.process, config.plotify, config.wbind, config.logger_or_setup,
      config.wret, config.wlift.
    cbn [config.require_fields]. by rewrite Hin.
Qed.

(** X25: [plotify] asks for [file_name] in [config['output']] once
    [input] and [output] are there, before any collaborator is called:
    with a logger given, an [output] without it gives the [ValueError]
    and an [output] that is not a container the [TypeError] of the
    membership test, and nothing has happened. *)
Theorem plotify_requires_file_name (config : cfg) (logger : string) (w : config.world)
    (config_output : pyval) :
  pydict.contains "input" config = true →
  pydict.get "output" config = Some config_output →
  (py_contains "file_name" config_output = Ok false →
     config.plotify config (Some logger) w
     = (Raise (Exc ValueError "file_name field is required in config dict output"), w))
  ∧ (∀ e, py_contains "file_name" config_output = Raise e →
       config.plotify config (Some logger) w = (Raise e, w)).
Proof.
  intros Hin Hout.
  assert (Hfields : config.require_fields ["input"; "output"]%string config = Ok tt).
  { apply require_fields_ok. repeat constructor; [done|].
    unfold pydict.contains. by rewrite Hout. }
  assert (Hrun : ∀ r, py_contains "file_name" config_output = r →
            config.plotify config (Some logger) w
            = match r with
              | Ok true => config.plotify config (Some logger) w
              | Ok false =>
                  (Raise (Exc ValueError "file_name field is required in config dict output"), w)
              | Raise e => (Raise e, w)
              end).
  { intros r Hr. destruct r as [[|]|e]; [done| |].
    - unfold config.plotify, config.wbind, config.logger_or_setup, config.wret,
        config.wlift, pydict.getitem.
      rewrite Hfields, Hout. cbn [or_raise]. by rewrite Hr.
    - unfold config.plotify, config.wbind, config.logger_or_setup, config.wret,
        config.wlift, pydict.getitem.
      rewrite Hfields, Hout. cbn [or_raise]. by rewrite Hr. }
  split.
  - intros Hr. by rewrite (Hrun _ Hr).
  - intros e Hr. by rewrite (Hrun _ Hr).
Qed.
End config_properties.

(** ** The gradient as a derivative *)

Section gradient_is_derivative.
Import np scipy.
Local Open Scope R_scope.

(** *** Sums of matrices and their quadratic forms *)















(** *** The factor as a function of one parameter *)




(** *** The covariance as a function of the parameters *)




(** *** Derivatives *)




End gradient_is_derivative.

(** ** The sizes of the parameter vector *)

Section parameter_sizes.
Import np.
Local Open Scope R_scope.

(** X27: the kernel constructed on a symmetric positive-definite
    [n] by [n] matrix has [n (n + 1) / 2] parameters, and [theta],
    [bounds] and the hyperparameter agree on that number: [bounds] has
    one pair [(-5, 5)] per entry of [theta], the hyperparameter counts as
    many elements and is not fixed; setting a [theta] of that length keeps
    this. *)
Theorem AnisotropicRBF_bounds_match_theta n (invLam : matrix) :
  spd n invLam →
  ∃ k, AnisotropicRBF.__init__ invLam = Ok k
       ∧ length (AnisotropicRBF.theta k) = (n * (n + 1) / 2)%nat
       ∧ AnisotropicRBF.bounds k = replicate (length (AnisotropicRBF.theta k)) (-5, 5)
       ∧ hp_n_elements (AnisotropicRBF.hyperparameter_cho_factor k)
         = length (AnisotropicRBF.theta k)
       ∧ hp_fixed (AnisotropicRBF.hyperparameter_cho_factor k) = false
       ∧ ∀ theta', length theta' = length (AnisotropicRBF.theta k) →
           ∃ k', AnisotropicRBF.theta_set k theta' = Ok k'
                 ∧ AnisotropicRBF.bounds k'
                   = replicate (length (AnisotropicRBF.theta k')) (-5, 5)
                 ∧ hp_n_elements (AnisotropicRBF.hyperparameter_cho_factor k')
                   = length (AnisotropicRBF.theta k').
Proof.
  intros Hspd. destruct (init_ok n invLam Hspd) as (k & Hk & Hwf & _ & Htheta).
  assert (Hlen : length (AnisotropicRBF.theta k) = (n * (n + 1) / 2)%nat)
    by (rewrite Htheta; apply length_theta_of_factor).
  destruct Hwf as (Hshape & _). pose proof Hshape as (_ & Hntheta & _).
  exists k. split; [done|]. split; [done|].
  unfold AnisotropicRBF.bounds, AnisotropicRBF.hyperparameter_cho_factor. cbn.
  rewrite Hlen, Hntheta. repeat (split; [done|]).
  intros theta' Hlen'.
  destruct (theta_set_ok n k theta' Hshape Hlen') as (k' & Hk' & Hth' & Hwf' & _).
  exists k'. split; [done|]. destruct Hwf' as ((_ & Hntheta' & _) & _).
  rewrite Hth', Hlen', Hntheta'. done.
Qed.
End parameter_sizes.


(** ** The further properties on the sample inputs *)

Section more_samples.
Import np scipy.
Local Open Scope R_scope.

Lemma sample_X_ne : sample_X ≠ [].
Proof. discriminate. Qed.


Lemma AnisotropicRBF_init_iff_pos_def_witness :
  is_shape 2 2 sample_invLam ∧ symmetric 2 sample_invLam
  ∧ ∃ k, AnisotropicRBF.__init__ sample_invLam = Ok k
         ∧ k.(AnisotropicRBF.invLam) = sample_invLam
         ∧ length (AnisotropicRBF.theta k) = 3%nat.
Proof.
  destruct sample_invLam_spd as (Hshape & Hsym & Hpd).
  split; [exact Hshape|]. split; [exact Hsym|].
  destruct (proj1 (AnisotropicRBF_init_iff_pos_def 2 sample_invLam Hshape Hsym) Hpd)
    as (k & Hk & HinvLam & _ & _ & _ & Hlen).
  exists k. split; [exact Hk|]. split; [exact HinvLam|exact Hlen].
Defined.


Lemma AnisotropicRBF_cross_covariance_witness :
  sample_X ≠ [] ∧ sample_X3 ≠ []
  ∧ AnisotropicRBF.__call__ sample_kernel (of_matrix sample_X) (Some (of_matrix sample_X3))
      false
    = Raise (Exc ValueError "XA and XB must have the same number of columns")
  ∧ ∃ K, AnisotropicRBF.__call__ sample_kernel (of_matrix sample_X)
           (Some (of_matrix sample_X)) false
         = Ok (KernelOnly (of_matrix K))
         ∧ is_shape 3 3 K.
Proof.
  assert (H3 : sample_X3 ≠ []) by discriminate.
  split; [exact sample_X_ne|]. split; [exact H3|]. split.
  - apply (proj2 (AnisotropicRBF_cross_covariance sample_kernel sample_X sample_X3
                    sample_X_ne H3)).
    cbn. lia.
  - destruct (proj1 (AnisotropicRBF_cross_covariance sample_kernel sample_X sample_X
                       sample_X_ne sample_X_ne) eq_refl) as (K & HK & Hshape & _).
    exists K. split; [exact HK|exact Hshape].
Defined.

Lemma AnisotropicRBF_Y_is_X_witness :
  sample_X ≠ []
  ∧ AnisotropicRBF.__call__ sample_kernel (of_matrix sample_X) (Some (of_matrix sample_X))
      false
    = AnisotropicRBF.__call__ sample_kernel (of_matrix sample_X) None false.
Proof.
  split; [exact sample_X_ne|].
  exact (AnisotropicRBF_Y_is_X sample_kernel sample_X sample_X_ne).
Defined.

Lemma AnisotropicRBF_normalized_witness :
  kernel_wf 2 sample_kernel ∧ is_shape 3 2 sample_X
  ∧ ∃ K, AnisotropicRBF.__call__ sample_kernel (of_matrix sample_X) None false
         = Ok (KernelOnly (of_matrix K))
         ∧ 0 < entry K 0 1 <= 1.
Proof.
  split; [exact sample_kernel_wf|]. split; [exact sample_X_shape|].
  destruct (AnisotropicRBF_normalized 2 3 sample_kernel sample_X
              sample_kernel_wf sample_X_shape) as (K & HK & Hent); [lia|].
  exists K. split; [exact HK|]. apply (Hent 0 1)%nat; lia.
Defined.

Lemma AnisotropicRBF_gradient_symmetric_witness :
  kernel_shape 2 sample_kernel ∧ is_shape 3 2 sample_X
  ∧ ∃ K G,
      AnisotropicRBF.__call__ sample_kernel (of_matrix sample_X) None true
      = Ok (KernelWithGradient (of_matrix K) (of_tensor3 G))
      ∧ entry3 G 1 1 2 = 0 ∧ entry3 G 0 2 1 = entry3 G 2 0 1.
Proof.
  split; [exact (proj1 sample_kernel_wf)|]. split; [exact sample_X_shape|].
  destruct (AnisotropicRBF_gradient_symmetric 2 3 sample_kernel sample_X
              (proj1 sample_kernel_wf) sample_X_shape) as (K & G & Hcall & Hent); [lia|].
  exists K, G. split; [exact Hcall|]. split.
  - apply (Hent 1 1 2)%nat; cbn; lia.
  - apply (Hent 0 2 1)%nat; cbn; lia.
Defined.

Lemma AnisotropicRBF_stationary_witness :
  is_shape 3 2 sample_X ∧ length [10; 20] = 2%nat
  ∧ AnisotropicRBF.__call__ sample_kernel (of_matrix (translate [10; 20] sample_X)) None true
    = AnisotropicRBF.__call__ sample_kernel (of_matrix sample_X) None true.
Proof.
  split; [exact sample_X_shape|]. split; [reflexivity|].
  destruct (AnisotropicRBF_stationary 2 3 3 sample_kernel sample_X sample_X [10; 20]
              sample_X_shape sample_X_shape eq_refl) as (_ & _ & Hgrad); [lia|lia|].
  exact (Hgrad (proj1 sample_kernel_wf)).
Defined.

Lemma EmpiricalKernel_stationary_witness :
  sample_X3 ≠ [] ∧ Forall (λ r, 2 ≤ length r)%nat sample_X3
  ∧ EmpiricalKernel.__call__ sample_empirical (of_matrix (translate [10; 20; 30] sample_X3))
      None false
    = EmpiricalKernel.__call__ sample_empirical (of_matrix sample_X3) None false.
Proof.
  assert (H1 : sample_X3 ≠ []) by discriminate.
  assert (H2 : Forall (λ r, 2 ≤ length r)%nat sample_X3) by (repeat constructor).
  assert (H3 : ∀ Ym : matrix, None = Some Ym → Forall (λ r, 2 ≤ length r)%nat Ym)
    by discriminate.
  assert (H4 : (2 ≤ length [10; 20; 30])%nat) by (cbn; lia).
  split; [exact H1|]. split; [exact H2|].
  exact (proj2 (EmpiricalKernel_stationary sample_empirical sample_X3 None [10; 20; 30]
                  H1 H2 H3 H4)).
Defined.

Lemma sample_star_at : star_at two_unfitted_stars 1 (sample_props 1 2) None.
Proof. exists 0%nat. split; reflexivity. Qed.

Lemma getProperties_reads_attr_interp_witness :
  star_at two_unfitted_stars 1 (sample_props 1 2) None
  ∧ @GPInterp.getProperties echo_numerics sample_interp 1 two_unfitted_stars
    = Ok (of_vector [1; 2]).
Proof.
  split; [exact sample_star_at|].
  apply (proj1 (@getProperties_reads_attr_interp echo_numerics sample_interp 1
                  two_unfitted_stars (sample_props 1 2) None sample_star_at)).
  repeat constructor.
Defined.

Lemma interpolateList_before_solve_with_pca_raises_witness :
  (1 > 0)%Z
  ∧ ∃ e, @GPInterp.interpolateList echo_numerics
           (@GPInterp.__init__ echo_numerics None None None 1) [1; 3]%nat two_unfitted_stars
         = (Raise e, two_unfitted_stars).
Proof.
  assert (H1 : (1 > 0)%Z) by lia.
  split; [exact H1|].
  destruct (@interpolateList_before_solve_with_pca_raises echo_numerics None None None 1
              [1; 3]%nat two_unfitted_stars H1) as (e & He & _).
  exists e. exact He.
Defined.

Lemma solve_keeps_configuration_witness :
  ∃ self',
    @GPInterp.solve echo_numerics sample_interp (Some [2; 5]%nat) two_fitted_stars = Ok self'
    ∧ self'.(GPInterp.attr_interp) = ["u"; "v"]%string
    ∧ is_Some self'.(GPInterp.gp).(sklearn.gp_state).
Proof.
  destruct (@GPInterp.solve echo_numerics sample_interp (Some [2; 5]%nat) two_fitted_stars)
    as [self'|e] eqn:Hsolve; [|vm_compute in Hsolve; discriminate].
  exists self'. split; [reflexivity|].
  destruct (@solve_keeps_configuration echo_numerics sample_interp self' _ _ Hsolve)
    as (_ & Hattr & _ & _ & _ & _ & Hst & _).
  split; [exact Hattr|exact Hst].
Defined.

Lemma interpolateList_fitted_star_gets_own_row_witness :
  ∃ out h',
    @GPInterp.interpolateList echo_numerics sample_interp [2; 5]%nat two_fitted_stars
    = (Ok out, h')
    ∧ ∃ new f,
        out !! 1%nat = Some new
        ∧ h' !! new = Some (OStar 3 (Some f))
        ∧ h' !! f = Some (OStarFit {| params := of_vector [3; 4];
                                      params_cov := Some (of_vector [10]) |}).
Proof.
  destruct (@GPInterp.interpolateList echo_numerics sample_interp [2; 5]%nat two_fitted_stars)
    as [[out|e] h'] eqn:Hrun; [|vm_compute in Hrun; discriminate].
  exists out, h'. split; [reflexivity|].
  destruct (@interpolateList_fitted_star_gets_own_row echo_numerics sample_interp
              [2; 5]%nat out two_fitted_stars h' Hrun)
    as (Xstar & y & rows & HX & Hy & Hrows & _ & Hstars).
  assert (Hrow : rows !! 1%nat = Some (of_vector [3; 4])).
  { vm_compute in HX. injection HX as <-. vm_compute in Hy. injection Hy as <-.
    vm_compute in Hrows. injection Hrows as <-. reflexivity. }
  destruct (Hstars 1%nat 5%nat (of_vector [3; 4]) 3%nat 4%nat
              {| params := of_vector [8; 9]; params_cov := Some (of_vector [10]) |}
              eq_refl Hrow eq_refl eq_refl)
    as (new & f & Hout & _ & _ & Hnew & Hf).
  exists new, f. split; [exact Hout|]. split; [exact Hnew|exact Hf].
Defined.

Lemma interpolate_fitted_star_witness :
  ∃ new h',
    @GPInterp.interpolate echo_numerics sample_interp 5 two_fitted_stars = (Ok new, h')
    ∧ ∃ f y0, h' !! new = Some (OStar 3 (Some f))
              ∧ h' !! f = Some (OStarFit {| params := y0;
                                            params_cov := Some (of_vector [10]) |}).
Proof.
  destruct (@GPInterp.interpolate echo_numerics sample_interp 5 two_fitted_stars)
    as [[new|e] h'] eqn:Hrun; [|vm_compute in Hrun; discriminate].
  exists new, h'. split; [reflexivity|].
  destruct (@interpolate_fitted_star echo_numerics sample_interp 5 new two_fitted_stars h'
              3%nat 4%nat
              {| params := of_vector [8; 9]; params_cov := Some (of_vector [10]) |}
              Hrun eq_refl eq_refl)
    as (x & y & y0 & rows & f & _ & _ & _ & _ & _ & Hnew & Hf).
  exists f, y0. split; [exact Hnew|exact Hf].
Defined.
End more_samples.

(** ** The configuration functions on sample inputs *)

Section config_samples.
Import logging.

Lemma setup_logger_verbosity_out_of_range_witness :
  (7 < 0 ∨ 3 < 7)%Z
  ∧ @config.setup_logger quiet_outside (PInt 7) None fresh_world
    = (Raise (Exc KeyError "?"), fresh_world).
Proof.
  assert (H7 : (7 < 0 ∨ 3 < 7)%Z) by lia.
  split; [exact H7|].
  exact (@setup_logger_verbosity_out_of_range quiet_outside 7 None fresh_world H7).
Defined.

Lemma setup_logger_replaces_handlers_witness :
  (0 ≤ 2 ≤ 3)%Z
  ∧ @config.setup_logger quiet_outside (PInt 2) None fresh_world
    = (Ok "piff"%string,
       @config.Build_world quiet_outside
         (<["piff"%string :=
              {| handlers := [{| target := None; formatter := Some "%(message)s"%string |}];
                 level := 20 |}]> ∅)
         tt).
Proof.
  assert (H2 : (0 ≤ 2 ≤ 3)%Z) by lia.
  split; [exact H2|].
  exact (proj1 (@setup_logger_replaces_handlers quiet_outside 2 fresh_world H2)).
Defined.

Lemma parse_variables_without_eq_raises_witness :
  Forall (λ u, is_Some (config.split_eq u)) ["a=1"%string]
  ∧ config.split_eq "b" = None
  ∧ (@config.parse_variables quiet_outside [("a"%string, PInt 0)]
       ["a=1"; "b"; "c=2"]%string "piff" fresh_world).1
    = (Raise (Exc ValueError "Improper variable specificationi: b.  Use field.item=value."),
       [("a"%string, PInt 0)]).
Proof.
  assert (H1 : Forall (λ u, is_Some (config.split_eq u)) ["a=1"%string])
    by (repeat constructor; by eexists).
  assert (H2 : config.split_eq "b" = None) by reflexivity.
  split; [exact H1|]. split; [exact H2|].
  exact (@parse_variables_without_eq_raises quiet_outside [("a"%string, PInt 0)]
           ["a=1"%string] ["c=2"%string] "b" "piff" fresh_world H1 H2).
Defined.

Lemma parse_variables_last_value_wins_witness :
  Forall (λ kv : string * string, config.split_eq kv.1 = None)
    [("a", "1"); ("b", "x=y"); ("a", "2")]%string
  ∧ ∃ new_params w',
      @config.parse_variables quiet_outside [] ["a=1"; "b=x=y"; "a=2"]%string "piff"
        fresh_world
      = (@UpdateConfig quiet_outside [] new_params, w')
      ∧ pydict.get "a" new_params = Some (PStr "2")
      ∧ pydict.get "b" new_params = Some (PStr "x=y").
Proof.
  assert (H1 : Forall (λ kv : string * string, config.split_eq kv.1 = None)
                 [("a", "1"); ("b", "x=y"); ("a", "2")]%string)
    by (repeat constructor).
  split; [exact H1|].
  destruct (@parse_variables_last_value_wins quiet_outside []
              [("a", "1"); ("b", "x=y"); ("a", "2")]%string "piff" fresh_world H1)
    as (new_params & w' & Hrun & _ & _ & Hlast).
  exists new_params, w'. split; [exact Hrun|]. split.
  - apply (Hlast [("a", "1"); ("b", "x=y")]%string "a"%string "2"%string []); [reflexivity|].
    cbn. apply not_elem_of_nil.
  - apply (Hlast [("a", "1")]%string "b"%string "x=y"%string [("a", "2")]%string);
      [reflexivity|].
    cbn. intros Hin%list_elem_of_singleton. discriminate.
Defined.

Lemma piffify_checks_fields_first_witness :
  @config.piffify quiet_outside [("input"%string, PNone); ("psf"%string, PNone)] None
    fresh_world
  = (Raise (Exc ValueError "output field is required in config dict"), fresh_world).
Proof.
  apply (@piffify_checks_fields_first quiet_outside
           [("input"%string, PNone); ("psf"%string, PNone)] None fresh_world
           ["input"%string] ["psf"%string] "output"%string).
  - reflexivity.
  - repeat constructor.
  - reflexivity.
Defined.

Lemma plotify_requires_file_name_witness :
  @config.plotify quiet_outside
    [("input"%string, PNone); ("output"%string, PDict [("dir"%string, PStr "out")])]
    (Some "piff"%string) fresh_world
  = (Raise (Exc ValueError "file_name field is required in config dict output"), fresh_world)
  ∧ @config.plotify quiet_outside [("input"%string, PNone); ("output"%string, PInt 3)]
      (Some "piff"%string) fresh_world
    = (Raise (Exc TypeError "argument of type 'int' is not iterable"), fresh_world).
Proof.
  split.
  - apply (proj1 (@plotify_requires_file_name quiet_outside
             [("input"%string, PNone); ("output"%string, PDict [("dir"%string, PStr "out")])]
             "piff" fresh_world (PDict [("dir"%string, PStr "out")]) eq_refl eq_refl)).
    reflexivity.
  - apply (proj2 (@plotify_requires_file_name quiet_outside
             [("input"%string, PNone); ("output"%string, PInt 3)]
             "piff" fresh_world (PInt 3) eq_refl eq_refl)).
    reflexivity.
Defined.
End config_samples.

(** ** The derivative and the sizes on the sample inputs *)

Section derivative_samples.
Import np.
Local Open Scope R_scope.


Lemma AnisotropicRBF_bounds_match_theta_witness :
  spd 2 sample_invLam
  ∧ ∃ k, AnisotropicRBF.__init__ sample_invLam = Ok k
         ∧ AnisotropicRBF.bounds k = [(-5, 5); (-5, 5); (-5, 5)].
Proof.
  split; [exact sample_invLam_spd|].
  destruct (AnisotropicRBF_bounds_match_theta 2 sample_invLam sample_invLam_spd)
    as (k & Hk & Hlen & Hbounds & _).
  exists k. split; [exact Hk|]. rewrite Hbounds, Hlen. reflexivity.
Defined.
End derivative_samples.
